(** * Witcher Tracker: a shallow embedding of the command interpreter

    The development follows the C++ sources: [Utils] (tokenizer and grammar
    checks of Utils.cpp), [Potion] and [Monster] (the two value classes) and
    the [Inventory] handlers together with [execute_line] of main.cpp.

    Conventions of the embedding.
    - A C++ computation is a value of [outcome]: it returns normally, throws
      one of the two exceptions [std::stoi] can raise, runs into behaviour the
      language leaves undefined (a [std::vector] or [std::string] read past
      its end, signed [int] overflow), or leaves the process through
      [exit(0)].
    - The globals [Utils::words] and [Utils::word_count] are passed
      explicitly: every function that reads them takes [words], and
      [word_count] is the length of that vector.
    - [std::map] is a [gmap], [std::set] a [gset]; wherever the source
      iterates over one of them the embedding goes through the keys in
      ascending [std::string] order.
    - [int] quantities are integers of [Z] together with an explicit range
      check at every arithmetic operation; positions inside a line or inside
      [words] are plain [Z] (a line is assumed to hold fewer than [2^31]
      tokens), except where the source converts the [size_t] result of
      [std::string::find] to [int], which is written out.
    - Character classes are those of the "C" locale. *)

From Stdlib Require Import ZArith Ascii String.
From stdpp Require Import gmap strings list sorting pretty.

Local Open Scope Z_scope.

(** ** Outcomes of a C++ computation *)

Inductive exception : Type :=
| out_of_range
| invalid_argument.

Inductive outcome (A : Type) : Type :=
| Normal (a : A)
| Throw (e : exception)
| Undefined
| Exited
| OutOfFuel.

Arguments Normal {A} a.
Arguments Throw {A} e.
Arguments Undefined {A}.
Arguments Exited {A}.
Arguments OutOfFuel {A}.

Global Instance outcome_ret : MRet outcome := λ A a, Normal a.

Global Instance outcome_bind : MBind outcome := λ A B k m,
  match m with
  | Normal a => k a
  | Throw e => Throw e
  | Undefined => Undefined
  | Exited => Exited
  | OutOfFuel => OutOfFuel
  end.

(** Short-circuit conjunction and disjunction: the right operand is only
    evaluated, and can only go wrong, when the left one does not decide. *)
Definition and_then (a b : outcome bool) : outcome bool :=
  a ≫= λ x : bool, if x then b else Normal false.
Definition or_else (a b : outcome bool) : outcome bool :=
  a ≫= λ x : bool, if x then Normal true else b.

Infix "&&&" := and_then (at level 40, left associativity).
Infix "|||" := or_else (at level 50, left associativity).

(** ** The [int] type *)

Definition INT_MAX : Z := 2147483647.
Definition INT_MIN : Z := -2147483648.

Definition in_int (z : Z) : bool := (INT_MIN <=? z) && (z <=? INT_MAX).

(** Signed arithmetic: a result outside the range of [int] is undefined. *)
Definition int_add (a b : Z) : outcome Z :=
  if in_int (a + b) then Normal (a + b) else Undefined.
Definition int_sub (a b : Z) : outcome Z :=
  if in_int (a - b) then Normal (a - b) else Undefined.

(** ** Characters and strings *)

Definition ascii_Z (c : ascii) : Z := Z.of_N (N_of_ascii c).

Definition isdigit (c : ascii) : bool :=
  (48 <=? ascii_Z c) && (ascii_Z c <=? 57).

Definition isalpha (c : ascii) : bool :=
  ((65 <=? ascii_Z c) && (ascii_Z c <=? 90))
  || ((97 <=? ascii_Z c) && (ascii_Z c <=? 122)).

(** [isspace], also the class [\s] of the tokenizer's regular expression. *)
Definition isspace (c : ascii) : bool := Ascii.is_space c.

Definition str_length (s : string) : Z := Z.of_nat (String.length s).

(** [s[i]] on a [std::string]: the character at [i], the terminating null
    character at [i = size()], undefined elsewhere. *)
Definition char_at (s : string) (i : Z) : outcome ascii :=
  if i <? 0 then Undefined
  else match String.get (Z.to_nat i) s with
       | Some c => Normal c
       | None => if i =? str_length s then Normal "000"%char else Undefined
       end.

(** [std::string::find]: the position of the first occurrence of [w] in
    [line], or [npos]. *)
Definition npos : Z := 2 ^ 64 - 1.

Fixpoint find_from (w line : string) (pos : Z) : Z :=
  if String.prefix w line then pos
  else match line with
       | EmptyString => npos
       | String _ rest => find_from w rest (pos + 1)
       end.

Definition str_find (line w : string) : Z := find_from w line 0.

(** Conversions between [size_t] and [int]. *)
Definition to_size_t (z : Z) : Z := z mod 2 ^ 64.
Definition to_int (z : Z) : Z :=
  let r := z mod 2 ^ 32 in if r <? 2 ^ 31 then r else r - 2 ^ 32.

(** [std::stoi] in base 10: leading white space, an optional sign, then the
    longest run of digits.  No digit at all is [invalid_argument]; a value
    that does not fit an [int] is [out_of_range]. *)
Fixpoint skip_spaces (s : string) : string :=
  match s with
  | String c rest => if isspace c then skip_spaces rest else s
  | EmptyString => s
  end.

Fixpoint digits_value (acc : Z) (s : string) : Z :=
  match s with
  | String c rest =>
      if isdigit c then digits_value (10 * acc + (ascii_Z c - 48)) rest else acc
  | EmptyString => acc
  end.

Definition starts_with_digit (s : string) : bool :=
  match s with
  | String c _ => isdigit c
  | EmptyString => false
  end.

Definition stoi (str : string) : outcome Z :=
  let s := skip_spaces str in
  let '(neg, body) :=
    match s with
    | String "-"%char rest => (true, rest)
    | String "+"%char rest => (false, rest)
    | _ => (false, s)
    end in
  if starts_with_digit body then
    let v := if neg : bool then - digits_value 0 body else digits_value 0 body in
    if in_int v then Normal v else Throw out_of_range
  else Throw invalid_argument.

(** Joining printed items with [", "]. *)
Fixpoint join (sep : string) (l : list string) : string :=
  match l with
  | [] => ""
  | [x] => x
  | x :: rest => x +:+ sep +:+ join sep rest
  end.

Definition endl : string := String "010"%char "".

(** [std::cout << n] for an [int]. *)
Definition show_int (n : Z) : string := pretty n.

(** ** Utils.cpp: tokenizer and grammar checks *)

Module Utils.

Definition word_count (words : list string) : Z := Z.of_nat (length words).

(** [words[i]]: reading a [std::vector] outside its bounds is undefined. *)
Definition words_at (words : list string) (i : Z) : outcome string :=
  if i <? 0 then Undefined
  else match words !! Z.to_nat i with
       | Some w => Normal w
       | None => Undefined
       end.

(** [split_line]: the successive matches of the regular expression
    [[^\s,?]+|[?,]].  [cur] is the run of ordinary characters read so far. *)
Definition flush (cur : string) : list string :=
  match cur with
  | EmptyString => []
  | _ => [cur]
  end.

Definition is_mark (c : ascii) : bool :=
  Ascii.eqb c ","%char || Ascii.eqb c "?"%char.

Fixpoint split_go (cur : string) (line : string) : list string :=
  match line with
  | EmptyString => flush cur
  | String c rest =>
      if isspace c then flush cur ++ split_go "" rest
      else if is_mark c then flush cur ++ String c "" :: split_go "" rest
      else split_go (cur +:+ String c "") rest
  end.

Definition split_line (line : string) : list string := split_go "" line.

Fixpoint is_alphabetical (str : string) : bool :=
  match str with
  | EmptyString => true
  | String c rest => if negb (isalpha c) then false else is_alphabetical rest
  end.

Fixpoint is_integer (str : string) : bool :=
  match str with
  | EmptyString => true
  | String c rest => if negb (isdigit c) then false else is_integer rest
  end.

(** The two [for] loops of [is_valid_potion_name]. *)
Fixpoint name_words_loop (fuel : nat) (words : list string) (i end_index : Z)
  : outcome bool :=
  match fuel with
  | O => OutOfFuel
  | S fuel =>
      if i <=? end_index then
        w ← words_at words i;
        if negb (is_alphabetical w) then Normal false
        else name_words_loop fuel words (i + 1) end_index
      else Normal true
  end.

Definition is_blank (c : ascii) : bool := Ascii.eqb c " "%char.

Fixpoint double_space_loop (fuel : nat) (line : string) (i end_index_in_line : Z)
  : outcome bool :=
  match fuel with
  | O => OutOfFuel
  | S fuel =>
      if i <? end_index_in_line then
        twice ← (c ← char_at line i; Normal (is_blank c))
                &&& (c ← char_at line (i + 1); Normal (is_blank c));
        if twice : bool then Normal false
        else double_space_loop fuel line (i + 1) end_index_in_line
      else Normal true
  end.

Definition is_valid_potion_name (words : list string) (line : string)
    (start_index end_index : Z) : outcome bool :=
  start_word ← words_at words start_index;
  end_word ← words_at words end_index;
  let start_index_in_line := to_int (str_find line start_word) in
  let end_index_in_line :=
    to_int (to_size_t (str_find line end_word + str_length end_word - 1)) in
  alphabetical ← name_words_loop (S (length words)) words start_index end_index;
  if negb alphabetical then Normal false
  else double_space_loop (S (S (String.length line))) line
         start_index_in_line end_index_in_line.

Definition detect_type (words : list string) : outcome Z :=
  if word_count words =? 0 then Normal (-1)
  else
    last ← words_at words (word_count words - 1);
    if String.eqb last "?" then Normal 1
    else
      exit ← (w ← words_at words 0; Normal (String.eqb w "Exit"))
             &&& Normal (word_count words =? 1);
      if exit : bool then Normal 2 else Normal 0.

(** The loop over the groups [count ingredient ,] that closes
    [is_valid_loot] and [is_valid_trade] ([bound] is [word_count - 1]) and
    makes up [is_valid_potion_recipe] (whose tests use [<=], so [bound] is
    [word_count]). *)
Fixpoint ingredient_list_loop (fuel : nat) (words : list string)
    (bound curr_index : Z) : outcome bool :=
  match fuel with
  | O => OutOfFuel
  | S fuel =>
      if curr_index <? bound then
        w ← words_at words curr_index;
        if negb (is_integer w) then Normal false
        else
          cnt ← stoi w;
          if cnt <=? 0 then Normal false
          else
            ing ← words_at words (curr_index + 1);
            if negb (is_alphabetical ing) then Normal false
            else
              no_comma ← Normal (curr_index + 2 <? bound)
                         &&& (w2 ← words_at words (curr_index + 2);
                              Normal (negb (String.eqb w2 ",")));
              if no_comma : bool then Normal false
              else ingredient_list_loop fuel words bound (curr_index + 3)
      else Normal true
  end.

Definition is_valid_loot (words : list string) : outcome bool :=
  let curr_index := 2 in
  if negb (Z.rem (word_count words) 3 =? 1) || (word_count words <? 4)
  then Normal false
  else ingredient_list_loop (S (length words)) words
         (word_count words - 1) curr_index.

(** The first loop of [is_valid_trade]: [None] stands for [return false],
    [Some i] for leaving the loop through [break] with [curr_index = i]. *)
Fixpoint trade_trophies_loop (fuel : nat) (words : list string) (curr_index : Z)
  : outcome (option Z) :=
  match fuel with
  | O => OutOfFuel
  | S fuel =>
      w ← words_at words curr_index;
      if negb (is_integer w) then Normal None
      else
        cnt ← stoi w;
        if cnt <=? 0 then Normal None
        else
          ing ← words_at words (curr_index + 1);
          if negb (is_alphabetical ing) then Normal None
          else
            w3 ← words_at words (curr_index + 3);
            if String.eqb w3 "for" then
              w2 ← words_at words (curr_index + 2);
              if negb (String.eqb w2 "trophy") then Normal None
              else Normal (Some (curr_index + 4))
            else
              w2 ← words_at words (curr_index + 2);
              if negb (String.eqb w2 ",") then Normal None
              else trade_trophies_loop fuel words (curr_index + 3)
  end.

Definition is_valid_trade (words : list string) : outcome bool :=
  after_for ← trade_trophies_loop (S (length words)) words 2;
  match after_for with
  | None => Normal false
  | Some curr_index =>
      let cnt := word_count words - curr_index in
      if negb (Z.rem cnt 3 =? 2) then Normal false
      else ingredient_list_loop (S (length words)) words
             (word_count words - 1) curr_index
  end.

Definition is_valid_sign_knowledge (words : list string) : outcome bool :=
  if negb (word_count words =? 8) then Normal false
  else
    fixed ← (w ← words_at words 4; Normal (String.eqb w "is"))
            &&& (w ← words_at words 5; Normal (String.eqb w "effective"))
            &&& (w ← words_at words 6; Normal (String.eqb w "against"));
    if fixed : bool then
      sign ← words_at words 2;
      if negb (is_alphabetical sign) then Normal false
      else
        monster ← words_at words 7;
        if negb (is_alphabetical monster) then Normal false
        else Normal true
    else Normal false.

Definition is_valid_potion_knowledge (words : list string) (curr_index : Z)
  : outcome bool :=
  fixed ← (w ← words_at words (curr_index + 2); Normal (String.eqb w "effective"))
          &&& (w ← words_at words (curr_index + 3); Normal (String.eqb w "against"));
  if fixed : bool then
    monster ← words_at words (curr_index + 4);
    last ← words_at words (word_count words - 1);
    if negb (String.eqb monster last) then Normal false
    else if negb (is_alphabetical monster) then Normal false
    else Normal true
  else Normal false.

Definition is_valid_potion_recipe (words : list string) (curr_index : Z)
  : outcome bool :=
  let cnt := word_count words - curr_index in
  if negb (Z.rem cnt 3 =? 2) then Normal false
  else ingredient_list_loop (S (length words)) words (word_count words) curr_index.

Definition is_valid_encounter (words : list string) : outcome bool :=
  if negb (word_count words =? 4) then Normal false
  else
    monster ← words_at words 3;
    if negb (is_alphabetical monster) then Normal false
    else Normal true.

(** The loop that collects a potion name up to the stop word [stop]
    (["potion"] in sentences, ["?"] in the formula question): it yields the
    name and the index of the stop word.  The test reads [words[curr_index]]
    before it compares [curr_index] with [word_count]. *)
Fixpoint name_until_loop (fuel : nat) (words : list string) (stop : string)
    (potion_name : string) (curr_index : Z) : outcome (string * Z) :=
  match fuel with
  | O => OutOfFuel
  | S fuel =>
      continue ← (w ← words_at words curr_index; Normal (negb (String.eqb w stop)))
                 &&& Normal (curr_index <? word_count words);
      if continue : bool then
        w ← words_at words curr_index;
        next ← words_at words (curr_index + 1);
        let potion_name :=
          if negb (String.eqb next stop) then potion_name +:+ w +:+ " "
          else potion_name +:+ w in
        name_until_loop fuel words stop potion_name (curr_index + 1)
      else Normal (potion_name, curr_index)
  end.

(** [for (int i = 2; i < word_count; ++i) if (words[i] == "potion") ...] *)
Definition potion_found (words : list string) : bool :=
  existsb (λ w, String.eqb w "potion") (drop 2 words).

Definition detect_sentence_type (words : list string) (line : string)
  : outcome Z :=
  w0 ← words_at words 0;
  if negb (String.eqb w0 "Geralt") then Normal (-1)
  else if word_count words <=? 2 then Normal (-1)
  else
    w2 ← words_at words 2;
    if String.eqb w2 "," then Normal (-1)
    else
      last ← words_at words (word_count words - 1);
      if String.eqb last "," then Normal (-1)
      else
        w1 ← words_at words 1;
        if String.eqb w1 "loots" then
          ok ← is_valid_loot words;
          if negb ok then Normal (-1) else Normal 0
        else if String.eqb w1 "trades" then
          ok ← is_valid_trade words;
          if negb ok then Normal (-1) else Normal 1
        else if String.eqb w1 "brews" then
          ok ← is_valid_potion_name words line 2 (word_count words - 1);
          if negb ok then Normal (-1) else Normal 2
        else if String.eqb w1 "learns" then
          if word_count words <? 8 then Normal (-1)
          else
            w3 ← words_at words 3;
            if String.eqb w3 "sign" then
              ok ← is_valid_sign_knowledge words;
              if negb ok then Normal (-1) else Normal 3
            else if negb (potion_found words) then Normal (-1)
            else
              '(potion_name, curr_index) ←
                name_until_loop (S (length words)) words "potion" "" 2;
              ok ← is_valid_potion_name words line 2 (curr_index - 1);
              if negb ok then Normal (-1)
              else
                w ← words_at words curr_index;
                if negb (String.eqb w "potion") then Normal (-1)
                else
                  next ← words_at words (curr_index + 1);
                  if String.eqb next "is" then
                    ok ← is_valid_potion_knowledge words curr_index;
                    if negb ok then Normal (-1) else Normal 4
                  else
                    recipe ← Normal (String.eqb next "consists")
                             &&& (w ← words_at words (curr_index + 2);
                                  Normal (String.eqb w "of"));
                    if recipe : bool then
                      ok ← is_valid_potion_recipe words (curr_index + 3);
                      if negb ok then Normal (-1) else Normal 5
                    else Normal (-1)
        else
          encounter ← Normal (String.eqb w1 "encounters")
                      &&& (w ← words_at words 2; Normal (String.eqb w "a"));
          if encounter : bool then
            ok ← is_valid_encounter words;
            if negb ok then Normal (-1) else Normal 6
          else Normal (-1).

(** [detect_question_type] is a chain of [if] blocks that fall through to
    the next one; each block is a function taking the rest of the chain. *)
Definition question_ingredient (words : list string) (rest : outcome Z)
  : outcome Z :=
  head ← (w ← words_at words 0; Normal (String.eqb w "Total"))
         &&& (w ← words_at words 1; Normal (String.eqb w "ingredient"));
  if head : bool then
    specific ← (w ← words_at words 2; Normal (negb (String.eqb w "?")))
               &&& Normal (word_count words =? 4);
    if specific : bool then
      w ← words_at words 2;
      if negb (is_alphabetical w) then Normal (-1) else Normal 0
    else
      total ← (w ← words_at words 2; Normal (String.eqb w "?"))
              &&& Normal (word_count words =? 3);
      if total : bool then Normal 1 else rest
  else rest.

Definition question_potion (words : list string) (line : string)
    (rest : outcome Z) : outcome Z :=
  head ← (w ← words_at words 0; Normal (String.eqb w "Total"))
         &&& (w ← words_at words 1; Normal (String.eqb w "potion"));
  if head : bool then
    total ← Normal (word_count words =? 3)
            &&& (w ← words_at words 2; Normal (String.eqb w "?"));
    if total : bool then Normal 3
    else
      ok ← is_valid_potion_name words line 2 (word_count words - 2);
      if negb ok then Normal (-1)
      else
        last ← words_at words (word_count words - 1);
        if negb (String.eqb last "?") then Normal (-1) else Normal 2
  else rest.

Definition question_trophy (words : list string) (rest : outcome Z)
  : outcome Z :=
  head ← (w ← words_at words 0; Normal (String.eqb w "Total"))
         &&& (w ← words_at words 1; Normal (String.eqb w "trophy"));
  if head : bool then
    total ← Normal (word_count words =? 3)
            &&& (w ← words_at words 2; Normal (String.eqb w "?"));
    if total : bool then Normal 5
    else
      specific ← Normal (word_count words =? 4)
                 &&& (w ← words_at words 2; Normal (is_alphabetical w));
      if specific : bool then
        last ← words_at words (word_count words - 1);
        if negb (String.eqb last "?") then Normal (-1) else Normal 4
      else rest
  else rest.

Definition question_monster (words : list string) (rest : outcome Z)
  : outcome Z :=
  head ← (w ← words_at words 0; Normal (String.eqb w "What"))
         &&& (w ← words_at words 1; Normal (String.eqb w "is"))
         &&& (w ← words_at words 2; Normal (String.eqb w "effective"))
         &&& (w ← words_at words 3; Normal (String.eqb w "against"));
  if head : bool then
    if negb (word_count words =? 6) then Normal (-1)
    else
      w ← words_at words 4;
      if negb (is_alphabetical w) then Normal (-1) else Normal 6
  else rest.

Definition question_formula (words : list string) (line : string)
    (rest : outcome Z) : outcome Z :=
  head ← (w ← words_at words 0; Normal (String.eqb w "What"))
         &&& (w ← words_at words 1; Normal (String.eqb w "is"))
         &&& (w ← words_at words 2; Normal (String.eqb w "in"));
  if head : bool then
    '(potion_name, curr_index) ←
      name_until_loop (S (length words)) words "?" "" 3;
    ok ← is_valid_potion_name words line 3 (curr_index - 1);
    if negb ok then Normal (-1)
    else
      w ← words_at words curr_index;
      if negb (String.eqb w "?") then Normal (-1)
      else if word_count words =? curr_index + 1 then Normal 7
      else rest
  else rest.

Definition detect_question_type (words : list string) (line : string)
  : outcome Z :=
  question_ingredient words
    (question_potion words line
       (question_trophy words
          (question_monster words
             (question_formula words line (Normal (-1)))))).

End Utils.

(** ** Potion.cpp and Monster.cpp *)

Record Potion : Type := { potion_ingredients : list (string * Z) }.

(** The comparison handed to [std::sort] in [Potion::get_ingredients]. *)
Definition ingredient_before (a b : string * Z) : bool :=
  if a.2 =? b.2 then String.ltb a.1 b.1 else a.2 >? b.2.

(** [std::sort] leaves a permutation of the range in which no element comes
    [ingredient_before] an earlier one; two pairs that are not ordered by it
    either way are equal, so that this list is unique ([sort_unique] below)
    and any sorting function computes it. *)
Definition ingredient_le (a b : string * Z) : Prop := ingredient_before b a = false.

Global Instance ingredient_le_dec : RelDecision ingredient_le.
Proof. intros a b. unfold ingredient_le. apply _. Defined.

Definition std_sort (l : list (string * Z)) : list (string * Z) :=
  merge_sort ingredient_le l.

(** [get_ingredients] sorts the member in place and returns a copy of it. *)
Definition get_ingredients (p : Potion) : Potion * list (string * Z) :=
  let sorted := std_sort (potion_ingredients p) in
  ({| potion_ingredients := sorted |}, sorted).

Definition set_ingredients (new_ingredients : list (string * Z)) (p : Potion)
  : Potion :=
  {| potion_ingredients := new_ingredients |}.

Record Monster : Type := {
  signs_against : gset string;
  potions_against : gset string
}.

Definition new_Monster : Monster :=
  {| signs_against := ∅; potions_against := ∅ |}.

Definition get_signs (m : Monster) : gset string := signs_against m.
Definition get_potions (m : Monster) : gset string := potions_against m.

Definition add_sign (sign : string) (m : Monster) : Monster :=
  {| signs_against := {[sign]} ∪ signs_against m;
     potions_against := potions_against m |}.

Definition add_potion (potion : string) (m : Monster) : Monster :=
  {| signs_against := signs_against m;
     potions_against := {[potion]} ∪ potions_against m |}.

(** ** Inventory.cpp *)

Record Inventory : Type := {
  ingredients : gmap string Z;
  trophies : gmap string Z;
  potion_counts : gmap string Z;
  potions : gmap string Potion;
  monsters : gmap string Monster
}.

Definition empty_Inventory : Inventory :=
  {| ingredients := ∅; trophies := ∅; potion_counts := ∅;
     potions := ∅; monsters := ∅ |}.

Definition with_ingredients (m : gmap string Z) (inv : Inventory) : Inventory :=
  {| ingredients := m; trophies := trophies inv;
     potion_counts := potion_counts inv; potions := potions inv;
     monsters := monsters inv |}.
Definition with_trophies (m : gmap string Z) (inv : Inventory) : Inventory :=
  {| ingredients := ingredients inv; trophies := m;
     potion_counts := potion_counts inv; potions := potions inv;
     monsters := monsters inv |}.
Definition with_potion_counts (m : gmap string Z) (inv : Inventory) : Inventory :=
  {| ingredients := ingredients inv; trophies := trophies inv;
     potion_counts := m; potions := potions inv;
     monsters := monsters inv |}.
Definition with_potions (m : gmap string Potion) (inv : Inventory) : Inventory :=
  {| ingredients := ingredients inv; trophies := trophies inv;
     potion_counts := potion_counts inv; potions := m;
     monsters := monsters inv |}.
Definition with_monsters (m : gmap string Monster) (inv : Inventory) : Inventory :=
  {| ingredients := ingredients inv; trophies := trophies inv;
     potion_counts := potion_counts inv; potions := potions inv;
     monsters := m |}.

(** Iteration over a [std::map] or a [std::set] goes by ascending key. *)
Definition key_le {A : Type} (a b : string * A) : Prop := String.le a.1 b.1.

Global Instance key_le_dec {A : Type} : RelDecision (@key_le A).
Proof. intros a b. unfold key_le. apply _. Defined.

Definition map_items {A : Type} (m : gmap string A) : list (string * A) :=
  merge_sort key_le (map_to_list m).

Definition set_items (s : gset string) : list string :=
  merge_sort String.le (elements s).

(** A range-[for] whose body updates the inventory. *)
Fixpoint for_each {A : Type} (body : A → Inventory → outcome Inventory)
    (l : list A) (inv : Inventory) : outcome Inventory :=
  match l with
  | [] => Normal inv
  | x :: rest => inv ← body x inv; for_each body rest inv
  end.

Import Utils.

Definition add_ingredient (name : string) (count : Z) (inv : Inventory)
  : outcome Inventory :=
  match ingredients inv !! name with
  | Some have =>
      total ← int_add have count;
      Normal (with_ingredients (<[name := total]> (ingredients inv)) inv)
  | None => Normal (with_ingredients (<[name := count]> (ingredients inv)) inv)
  end.

(** The loop [while (curr_index < word_count - 1)] of [handle_loot], which
    also ends [handle_trade]. *)
Fixpoint add_ingredients_loop (fuel : nat) (words : list string)
    (curr_index : Z) (inv : Inventory) : outcome Inventory :=
  match fuel with
  | O => OutOfFuel
  | S fuel =>
      if curr_index <? word_count words - 1 then
        w ← words_at words curr_index;
        cnt ← stoi w;
        ing ← words_at words (curr_index + 1);
        inv ← add_ingredient ing cnt inv;
        add_ingredients_loop fuel words (curr_index + 3) inv
      else Normal inv
  end.

Definition handle_loot (words : list string) (inv : Inventory)
  : outcome (Inventory * string) :=
  inv ← add_ingredients_loop (S (length words)) words 2 inv;
  Normal (inv, "Alchemy ingredients obtained" +:+ endl).

Definition decrease_trophy (name : string) (count : Z) (inv : Inventory)
  : outcome Inventory :=
  match trophies inv !! name with
  | Some have =>
      left ← int_sub have count;
      if left <=? 0
      then Normal (with_trophies (delete name (trophies inv)) inv)
      else Normal (with_trophies (<[name := left]> (trophies inv)) inv)
  | None => Normal inv
  end.

Definition use_ingredient (name : string) (count : Z) (inv : Inventory)
  : outcome Inventory :=
  match ingredients inv !! name with
  | Some have =>
      left ← int_sub have count;
      if left <=? 0
      then Normal (with_ingredients (delete name (ingredients inv)) inv)
      else Normal (with_ingredients (<[name := left]> (ingredients inv)) inv)
  | None => Normal inv
  end.

(** [m.find(name) == m.end() || m[name] < count] *)
Definition lacks (m : gmap string Z) (name : string) (count : Z) : bool :=
  match m !! name with
  | Some have => have <? count
  | None => true
  end.

(** The first loop of [handle_trade]: [None] when it printed
    ["Not enough trophies"] and returned, otherwise the collected
    [trophies_to_trade] and the index after ["for"]. *)
Fixpoint trophies_to_trade_loop (fuel : nat) (words : list string)
    (inv : Inventory) (curr_index : Z) (trophies_to_trade : gmap string Z)
  : outcome (option (gmap string Z * Z)) :=
  match fuel with
  | O => OutOfFuel
  | S fuel =>
      w ← words_at words curr_index;
      cnt ← stoi w;
      trophy ← words_at words (curr_index + 1);
      if lacks (trophies inv) trophy cnt then Normal None
      else
        let trophies_to_trade := <[trophy := cnt]> trophies_to_trade in
        w3 ← words_at words (curr_index + 3);
        if String.eqb w3 "for" then Normal (Some (trophies_to_trade, curr_index + 4))
        else trophies_to_trade_loop fuel words inv (curr_index + 3) trophies_to_trade
  end.

Definition handle_trade (words : list string) (inv : Inventory)
  : outcome (Inventory * string) :=
  checked ← trophies_to_trade_loop (S (length words)) words inv 2 ∅;
  match checked with
  | None => Normal (inv, "Not enough trophies" +:+ endl)
  | Some (trophies_to_trade, curr_index) =>
      inv ← for_each (λ pair, decrease_trophy pair.1 pair.2)
              (map_items trophies_to_trade) inv;
      inv ← add_ingredients_loop (S (length words)) words curr_index inv;
      Normal (inv, "Trade successful" +:+ endl)
  end.

(** [for (i = first; i <= last; ++i) { name += words[i]; if (i <= last - 1)
    name += " "; }], the way the handlers rebuild a potion name. *)
Fixpoint join_words_loop (fuel : nat) (words : list string) (i last : Z)
    (name : string) : outcome string :=
  match fuel with
  | O => OutOfFuel
  | S fuel =>
      if i <=? last then
        w ← words_at words i;
        let name := if i <=? last - 1 then name +:+ w +:+ " " else name +:+ w in
        join_words_loop fuel words (i + 1) last name
      else Normal name
  end.

Definition join_words (words : list string) (first last : Z) : outcome string :=
  join_words_loop (S (length words)) words first last "".

(** The check loop of [handle_brew]: is some needed ingredient missing? *)
Definition not_enough (have : gmap string Z) (needed : list (string * Z)) : bool :=
  existsb (λ pair, lacks have pair.1 pair.2) needed.

Definition handle_brew (words : list string) (inv : Inventory)
  : outcome (Inventory * string) :=
  potion_name ← join_words words 2 (word_count words - 1);
  match potions inv !! potion_name with
  | None => Normal (inv, "No formula for " +:+ potion_name +:+ endl)
  | Some potion =>
      let '(potion, ingredients_needed) := get_ingredients potion in
      let inv := with_potions (<[potion_name := potion]> (potions inv)) inv in
      if not_enough (ingredients inv) ingredients_needed
      then Normal (inv, "Not enough ingredients" +:+ endl)
      else
        inv ← for_each (λ pair, use_ingredient pair.1 pair.2)
                ingredients_needed inv;
        brewed ← int_add (default 0 (potion_counts inv !! potion_name)) 1;
        Normal (with_potion_counts (<[potion_name := brewed]> (potion_counts inv)) inv,
                "Alchemy item created: " +:+ potion_name +:+ endl)
  end.

Definition handle_sign_knowledge (words : list string) (inv : Inventory)
  : outcome (Inventory * string) :=
  sign_name ← words_at words 2;
  monster_name ← words_at words 7;
  match monsters inv !! monster_name with
  | None =>
      let monster := add_sign sign_name new_Monster in
      Normal (with_monsters (<[monster_name := monster]> (monsters inv)) inv,
              "New bestiary entry added: " +:+ monster_name +:+ endl)
  | Some monster =>
      let signs := get_signs monster in
      if bool_decide (sign_name ∉ signs) then
        Normal (with_monsters
                  (<[monster_name := add_sign sign_name monster]> (monsters inv)) inv,
                "Bestiary entry updated: " +:+ monster_name +:+ endl)
      else Normal (inv, "Already known effectiveness" +:+ endl)
  end.

(** [while (Utils::words[curr_index] != "potion")] of the two potion
    handlers: the loop of [Utils.name_until_loop] without the comparison of
    [curr_index] with [word_count]. *)
Fixpoint potion_name_loop (fuel : nat) (words : list string)
    (potion_name : string) (curr_index : Z) : outcome (string * Z) :=
  match fuel with
  | O => OutOfFuel
  | S fuel =>
      w ← words_at words curr_index;
      if negb (String.eqb w "potion") then
        next ← words_at words (curr_index + 1);
        let potion_name :=
          if negb (String.eqb next "potion") then potion_name +:+ w +:+ " "
          else potion_name +:+ w in
        potion_name_loop fuel words potion_name (curr_index + 1)
      else Normal (potion_name, curr_index)
  end.

Definition handle_potion_knowledge (words : list string) (inv : Inventory)
  : outcome (Inventory * string) :=
  '(potion_name, curr_index) ← potion_name_loop (S (length words)) words "" 2;
  monster_name ← words_at words (curr_index + 4);
  match monsters inv !! monster_name with
  | None =>
      let monster := add_potion potion_name new_Monster in
      Normal (with_monsters (<[monster_name := monster]> (monsters inv)) inv,
              "New bestiary entry added: " +:+ monster_name +:+ endl)
  | Some monster =>
      let m_potions := get_potions monster in
      if bool_decide (potion_name ∉ m_potions) then
        Normal (with_monsters
                  (<[monster_name := add_potion potion_name monster]> (monsters inv)) inv,
                "Bestiary entry updated: " +:+ monster_name +:+ endl)
      else Normal (inv, "Already known effectiveness" +:+ endl)
  end.

(** The parsing loop of [handle_potion_recipe]. *)
Fixpoint formula_loop (fuel : nat) (words : list string) (curr_index : Z)
    (formula_ingredients : list (string * Z)) : outcome (list (string * Z)) :=
  match fuel with
  | O => OutOfFuel
  | S fuel =>
      if curr_index <? word_count words - 1 then
        w ← words_at words curr_index;
        cnt ← stoi w;
        ing ← words_at words (curr_index + 1);
        formula_loop fuel words (curr_index + 3) (formula_ingredients ++ [(ing, cnt)])
      else Normal formula_ingredients
  end.

Definition handle_potion_recipe (words : list string) (inv : Inventory)
  : outcome (Inventory * string) :=
  '(potion_name, curr_index) ← potion_name_loop (S (length words)) words "" 2;
  (* [potions.find(name) != end && potions[name].get_ingredients().size() > 0];
     the call sorts the stored formula *)
  let '(inv, known) :=
    match potions inv !! potion_name with
    | Some potion =>
        let '(potion, l) := get_ingredients potion in
        (with_potions (<[potion_name := potion]> (potions inv)) inv,
         bool_decide (0 < length l)%nat)
    | None => (inv, false)
    end in
  if known then Normal (inv, "Already known formula" +:+ endl)
  else
    formula_ingredients ← formula_loop (S (length words)) words (curr_index + 3) [];
    let potion :=
      match potions inv !! potion_name with
      | None => set_ingredients formula_ingredients {| potion_ingredients := [] |}
      | Some potion => set_ingredients formula_ingredients potion
      end in
    Normal (with_potions (<[potion_name := potion]> (potions inv)) inv,
            "New alchemy formula obtained: " +:+ potion_name +:+ endl).

(** [potion_counts.find(potion) != end && potion_counts[potion] > 0] *)
Definition in_stock (counts : gmap string Z) (potion : string) : bool :=
  match counts !! potion with
  | Some have => 0 <? have
  | None => false
  end.

Definition use_one_potion (potion : string) (inv : Inventory) : outcome Inventory :=
  if in_stock (potion_counts inv) potion then
    left ← int_sub (default 0 (potion_counts inv !! potion)) 1;
    if left =? 0
    then Normal (with_potion_counts (delete potion (potion_counts inv)) inv)
    else Normal (with_potion_counts (<[potion := left]> (potion_counts inv)) inv)
  else Normal inv.

(** [monsters[monster_name]] creates an empty entry when there is none. *)
Definition monsters_at (monster_name : string) (inv : Inventory)
  : Inventory * Monster :=
  match monsters inv !! monster_name with
  | Some monster => (inv, monster)
  | None =>
      (with_monsters (<[monster_name := new_Monster]> (monsters inv)) inv,
       new_Monster)
  end.

Definition use_one_potion_each (monster_name : string) (inv : Inventory)
  : outcome Inventory :=
  let '(inv, monster) := monsters_at monster_name inv in
  for_each use_one_potion (set_items (get_potions monster)) inv.

Definition unprepared : string :=
  "Geralt is unprepared and barely escapes with his life" +:+ endl.

(** The end of [handle_encounter]: the message, then the trophy. *)
Definition defeat (monster_name : string) (inv : Inventory)
  : outcome (Inventory * string) :=
  match trophies inv !! monster_name with
  | None =>
      Normal (with_trophies (<[monster_name := 1]> (trophies inv)) inv,
              "Geralt defeats " +:+ monster_name +:+ endl)
  | Some have =>
      more ← int_add have 1;
      Normal (with_trophies (<[monster_name := more]> (trophies inv)) inv,
              "Geralt defeats " +:+ monster_name +:+ endl)
  end.

Definition handle_encounter (words : list string) (inv : Inventory)
  : outcome (Inventory * string) :=
  monster_name ← words_at words 3;
  match monsters inv !! monster_name with
  | None => Normal (inv, unprepared)
  | Some monster =>
      if bool_decide (size (get_signs monster) = 0%nat)
         && bool_decide (size (get_potions monster) = 0%nat)
      then Normal (inv, unprepared)
      else if bool_decide (size (get_signs monster) = 0%nat) then
        let found :=
          existsb (in_stock (potion_counts inv)) (set_items (get_potions monster)) in
        if found then
          inv ← use_one_potion_each monster_name inv;
          defeat monster_name inv
        else Normal (inv, unprepared)
      else
        inv ← use_one_potion_each monster_name inv;
        defeat monster_name inv
  end.

(** *** Queries *)

Definition get_ingredient_count (name : string) (inv : Inventory) : Z :=
  default 0 (ingredients inv !! name).

Definition show_entry (pair : string * Z) : string :=
  show_int pair.2 +:+ " " +:+ pair.1.

(** [print_ingredients], [print_potions] and [print_trophies] are the same
    function on three maps. *)
Definition print_counts (m : gmap string Z) : string :=
  if bool_decide (size m = 0%nat) then "None" +:+ endl
  else join ", " (show_entry <$> map_items m) +:+ endl.

Definition print_ingredients (inv : Inventory) : string :=
  print_counts (ingredients inv).
Definition print_potions (inv : Inventory) : string :=
  print_counts (potion_counts inv).
Definition print_trophies (inv : Inventory) : string :=
  print_counts (trophies inv).

Definition get_potion_count (words : list string) (inv : Inventory) : outcome Z :=
  name ← join_words words 2 (word_count words - 2);
  Normal (default 0 (potion_counts inv !! name)).

Definition get_trophy_count (name : string) (inv : Inventory) : Z :=
  default 0 (trophies inv !! name).

Definition print_monster_knowledge (monster_name : string) (inv : Inventory)
  : string :=
  match monsters inv !! monster_name with
  | None => "No knowledge of " +:+ monster_name +:+ endl
  | Some monster =>
      let signs := get_signs monster in
      let m_potions := get_potions monster in
      if bool_decide (signs = ∅) && bool_decide (m_potions = ∅)
      then "No knowledge of " +:+ monster_name +:+ endl
      else
        let merged := list_merge String.le (set_items signs) (set_items m_potions) in
        join ", " merged +:+ endl
  end.

Definition print_potion_formula (words : list string) (inv : Inventory)
  : outcome (Inventory * string) :=
  potion_name ← join_words words 3 (word_count words - 2);
  match potions inv !! potion_name with
  | None => Normal (inv, "No formula for " +:+ potion_name +:+ endl)
  | Some potion =>
      let '(potion, ingredients) := get_ingredients potion in
      let inv := with_potions (<[potion_name := potion]> (potions inv)) inv in
      match ingredients with
      | [] => Normal (inv, "No formula for " +:+ potion_name +:+ endl)
      | _ => Normal (inv, join ", " (show_entry <$> ingredients) +:+ endl)
      end
  end.

(** ** main.cpp *)

Definition INVALID : string := "INVALID" +:+ endl.

Definition execute_question (words : list string) (line : string)
    (inv : Inventory) : outcome (Inventory * string) :=
  question_type ← detect_question_type words line;
  if question_type =? -1 then Normal (inv, INVALID)
  else if question_type =? 0 then
    name ← words_at words 2;
    Normal (inv, show_int (get_ingredient_count name inv) +:+ endl)
  else if question_type =? 1 then Normal (inv, print_ingredients inv)
  else if question_type =? 2 then
    cnt ← get_potion_count words inv;
    Normal (inv, show_int cnt +:+ endl)
  else if question_type =? 3 then Normal (inv, print_potions inv)
  else if question_type =? 4 then
    name ← words_at words 2;
    Normal (inv, show_int (get_trophy_count name inv) +:+ endl)
  else if question_type =? 5 then Normal (inv, print_trophies inv)
  else if question_type =? 6 then
    name ← words_at words 4;
    Normal (inv, print_monster_knowledge name inv)
  else if question_type =? 7 then print_potion_formula words inv
  else Normal (inv, INVALID).

Definition execute_sentence (words : list string) (line : string)
    (inv : Inventory) : outcome (Inventory * string) :=
  sentence_type ← detect_sentence_type words line;
  if sentence_type =? -1 then Normal (inv, INVALID)
  else if sentence_type =? 0 then handle_loot words inv
  else if sentence_type =? 1 then handle_trade words inv
  else if sentence_type =? 2 then handle_brew words inv
  else if sentence_type =? 3 then handle_sign_knowledge words inv
  else if sentence_type =? 4 then handle_potion_knowledge words inv
  else if sentence_type =? 5 then handle_potion_recipe words inv
  else if sentence_type =? 6 then handle_encounter words inv
  else Normal (inv, INVALID).

(** [execute_line]: the new inventory and the text written to [std::cout]. *)
Definition execute_line (line : string) (inv : Inventory)
  : outcome (Inventory * string) :=
  let words := split_line line in
  type ← detect_type words;
  if type =? 2 then Exited
  else if type =? 1 then execute_question words line inv
  else if type =? 0 then execute_sentence words line inv
  else Normal (inv, INVALID).

(** The inventories the program can be in: the empty one it starts with and
    whatever a line that was executed to its end leaves behind. *)
Inductive reachable : Inventory → Prop :=
| reachable_start : reachable empty_Inventory
| reachable_step inv line inv' out :
    reachable inv →
    execute_line line inv = Normal (inv', out) →
    reachable inv'.

(** Running a session: the inventory and the lines printed so far. *)
Fixpoint run (lines : list string) (inv : Inventory)
  : outcome (Inventory * list string) :=
  match lines with
  | [] => Normal (inv, [])
  | line :: rest =>
      '(inv, out) ← execute_line line inv;
      '(inv, outs) ← run rest inv;
      Normal (inv, out :: outs)
  end.

(** How far an index is from the end of the words: the measure of the
    loops over [words], which the fuel handed to them exceeds. *)
Definition words_left (words : list string) (i : Z) : nat :=
  Z.to_nat (word_count words - Z.max i 0).

(** ** Vocabulary of the specification *)

(** The number an all-digit token denotes. *)
Definition count_of (token : string) : Z := digits_value 0 token.

(** A token that reads as a positive integer. *)
Definition positive_integer (token : string) : Prop :=
  token ≠ "" ∧ is_integer token = true ∧ 0 < count_of token.

(** A count token that [std::stoi] can convert. *)
Definition fits_int (token : string) : Prop :=
  is_integer token = true → count_of token ≤ INT_MAX.

(** The groups [count name ,] of a loot sentence, the comma left out after
    the last group. *)
Inductive loot_shape : list string → Prop :=
| loot_last count name :
    positive_integer count →
    is_alphabetical name = true →
    loot_shape [count; name]
| loot_more count name rest :
    positive_integer count →
    is_alphabetical name = true →
    loot_shape rest →
    loot_shape (count :: name :: "," :: rest).

(** The (name, count) pairs of a run of groups [count name sep]: what a
    list of ingredients asks for. *)
Fixpoint groups (tokens : list string) : list (string * Z) :=
  match tokens with
  | count :: name :: rest =>
      (name, count_of count) ::
      match rest with
      | _ :: rest => groups rest
      | [] => []
      end
  | _ => []
  end.

(** The trophies a trade sentence lists, read from the third token on: groups
    of three tokens up to the one that is followed by ["for"]. *)
Fixpoint trophy_requests (tokens : list string) : list (string * Z) :=
  match tokens with
  | count :: name :: _ :: rest =>
      (name, count_of count) ::
      match rest with
      | next :: _ => if String.eqb next "for" then [] else trophy_requests rest
      | [] => []
      end
  | _ => []
  end.

(** The tokens that follow ["for"] in a trade sentence. *)
Fixpoint after_for (tokens : list string) : list string :=
  match tokens with
  | _ :: _ :: _ :: rest =>
      match rest with
      | next :: rest' => if String.eqb next "for" then rest' else after_for rest
      | [] => []
      end
  | _ => []
  end.

Definition ingredient_requests (tokens : list string) : list (string * Z) :=
  groups (after_for tokens).

(** The count a trade takes from a trophy: the one of its last listing. *)
Definition last_request (requests : list (string * Z)) (name : string)
  : option Z :=
  list_to_map (M := gmap string Z) (reverse requests) !! name.

(** What is left of a ledger entry once [count] is taken from it. *)
Definition take_away (entry : option Z) (count : Z) : option Z :=
  match entry with
  | Some have => if have - count <=? 0 then None else Some (have - count)
  | None => None
  end.

(** One step of deduction on a ledger, and a whole list of them in turn. *)
Definition deduct (ledger : gmap string Z) (pair : string * Z) : gmap string Z :=
  match ledger !! pair.1 with
  | Some have =>
      if have - pair.2 <=? 0 then delete pair.1 ledger
      else <[pair.1 := have - pair.2]> ledger
  | None => ledger
  end.

Definition deduct_all (ledger : gmap string Z) (l : list (string * Z))
  : gmap string Z :=
  foldl deduct ledger l.

(** How much of [name] a formula needs in all. *)
Definition total_required (formula : list (string * Z)) (name : string) : Z :=
  foldr (λ pair acc, if String.eqb pair.1 name then pair.2 + acc else acc) 0 formula.

(** The tokens of a line with the position of their first character. *)
Definition flush_span (cur : string) (pos : Z) : list (Z * string) :=
  match cur with
  | EmptyString => []
  | _ => [(pos - str_length cur, cur)]
  end.

Fixpoint spans_go (cur : string) (pos : Z) (line : string) : list (Z * string) :=
  match line with
  | EmptyString => flush_span cur pos
  | String c rest =>
      if isspace c then flush_span cur pos ++ spans_go "" (pos + 1) rest
      else if is_mark c
           then flush_span cur pos ++ (pos, String c "") :: spans_go "" (pos + 1) rest
      else spans_go (cur +:+ String c "") (pos + 1) rest
  end.

Definition split_spans (line : string) : list (Z * string) := spans_go "" 0 line.

(** The character of [line] at position [i], if any. *)
Definition char_of (line : string) (i : Z) : option ascii :=
  if i <? 0 then None else String.get (Z.to_nat i) line.

(** Two neighbouring characters of [line], at [i] and [i + 1] with
    [first ≤ i < last], that both satisfy [P]. *)
Definition has_double (P : ascii → bool) (line : string) (first last : Z) : Prop :=
  ∃ i c1 c2, first ≤ i < last ∧ char_of line i = Some c1
             ∧ char_of line (i + 1) = Some c2 ∧ P c1 = true ∧ P c2 = true.

(** The order in which a formula is presented: larger quantities first,
    equal quantities by name. *)
Definition formula_order (a b : string * Z) : Prop :=
  b.2 < a.2 ∨ (a.2 = b.2 ∧ String.le a.1 b.1).

(** ** Invariants of the inventory *)

Definition count_ok (v : Z) : Prop := 0 < v ≤ INT_MAX.

Definition ledger_ok (m : gmap string Z) : Prop :=
  map_Forall (λ _ v, count_ok v) m.

Definition formula_ok (p : Potion) : Prop :=
  potion_ingredients p ≠ [] ∧ Forall (λ pair, count_ok pair.2) (potion_ingredients p).

Record Inventory_ok (inv : Inventory) : Prop := {
  ok_ingredients : ledger_ok (ingredients inv);
  ok_trophies : ledger_ok (trophies inv);
  ok_potion_counts : ledger_ok (potion_counts inv);
  ok_potions : map_Forall (λ _ p, formula_ok p) (potions inv)
}.

(** The state a session leaves behind (the empty inventory if it does not
    run to its end). *)
Definition state_after (lines : list string) : Inventory :=
  match run lines empty_Inventory with
  | Normal (inv, _) => inv
  | _ => empty_Inventory
  end.

(** ** Vocabulary of the proofs *)

(** The [k]-th token of a suffix of [words], read the way [words_at] reads. *)
Definition token_at (tokens : list string) (k : nat) : outcome string :=
  match tokens !! k with
  | Some w => Normal w
  | None => Undefined
  end.

(** The trophy part of a trade sentence as [is_valid_trade] accepts it:
    groups [count name ,] closed by a group [count name trophy for]. *)
Inductive trophies_shape : list string → Prop :=
| trophies_last count name rest :
    positive_integer count →
    count_of count ≤ INT_MAX →
    is_alphabetical name = true →
    trophies_shape (count :: name :: "trophy" :: "for" :: rest)
| trophies_more count name rest :
    positive_integer count →
    count_of count ≤ INT_MAX →
    is_alphabetical name = true →
    trophies_shape rest →
    trophies_shape (count :: name :: "," :: rest).

(** [trophies_to_trade] after the first loop of [handle_trade]. *)
Definition collect (requests : list (string * Z)) (start : gmap string Z)
  : gmap string Z :=
  foldl (λ m pair, <[pair.1 := pair.2]> m) start requests.

(** The tokens of [words] from index [first] to index [last]. *)
Definition between (words : list string) (first last : Z) : list string :=
  take (Z.to_nat (last - first + 1)) (drop (Z.to_nat first) words).

(** A name of several words, as the handlers rebuild it. *)
Definition name_of (tokens : list string) : string := String.concat " " tokens.

(** What the bestiary records. *)
Definition knows_sign (inv : Inventory) (monster sign : string) : Prop :=
  ∃ m, monsters inv !! monster = Some m ∧ sign ∈ signs_against m.

Definition knows_potion (inv : Inventory) (monster potion : string) : Prop :=
  ∃ m, monsters inv !! monster = Some m ∧ potion ∈ potions_against m.

(** Nothing the bestiary of [inv] records is missing from that of [inv']. *)
Definition bestiary_le (inv inv' : Inventory) : Prop :=
  ∀ monster m, monsters inv !! monster = Some m →
    ∃ m', monsters inv' !! monster = Some m'
      ∧ signs_against m ⊆ signs_against m'
      ∧ potions_against m ⊆ potions_against m'.

(** The rule for a name of several words, with [blank] for what counts as
    white space inside the name: the name that spans the tokens [first] to
    [last] passes exactly when all its tokens are alphabetical and no two
    neighbouring characters of the line, from the first character of the
    first token to the last character of the last one, are both [blank]. *)
Definition name_rule (blank : ascii → bool) (line : string) (first last : nat)
  : Prop :=
  ∀ s w_s e w_e,
    split_spans line !! first = Some (s, w_s) →
    split_spans line !! last = Some (e, w_e) →
    (is_valid_potion_name (split_line line) line (Z.of_nat first) (Z.of_nat last)
     = Normal true
     ↔ Forall (λ w, is_alphabetical w = true)
         (between (split_line line) (Z.of_nat first) (Z.of_nat last))
       ∧ ¬ has_double blank line s (e + str_length w_e - 1)).

(** ** Three statements of the specification, as it words them *)

(** Loot: the tokens after ["loots"] are groups [count name ,] and their
    number is 1 modulo 3. *)
Definition loot_rule_as_stated (line : string) (rest : list string) : Prop :=
  detect_sentence_type (split_line line) line = Normal 0
  ↔ loot_shape rest ∧ Z.of_nat (length rest) mod 3 = 1.



Definition tab : string := String "009"%char "".

(** A session used to try the theorems on. *)
Definition session : list string :=
  ["Geralt loots 5 Rebis, 3 Vitriol";
   "Geralt learns Swallow potion consists of 3 Vitriol, 2 Rebis";
   "Geralt brews Swallow";
   "Geralt learns Igni sign is effective against Harpy";
   "Geralt learns Swallow potion is effective against Harpy";
   "Geralt encounters a Harpy";
   "Geralt loots 4 Vitriol"].

Definition swallow : Potion :=
  {| potion_ingredients := [("Vitriol", 3); ("Rebis", 2)] |}.

(** ** main.cpp: the loop of [main] *)

(** [std::getline(std::cin, line)] on what is left of the standard input:
    the characters up to the next newline, which is taken from the stream
    and dropped, what is left after it, and whether the end of the stream
    was hit on the way ([std::cin.eof()]). *)
Fixpoint getline (input : string) : string * string * bool :=
  match input with
  | EmptyString => ("", "", true)
  | String c rest =>
      if Ascii.eqb c "010"%char then ("", rest, false)
      else let '(line, rest, eof) := getline rest in (String c line, rest, eof)
  end.

Definition prompt : string := ">> ".

(** The loop of [main]: what is written to [std::cout], and how the process
    ends: [Normal] with the last inventory when the loop is left through
    [break] and [main] returns, otherwise the way [execute_line] ended. *)
Fixpoint main_loop (fuel : nat) (input : string) (inv : Inventory)
  : string * outcome Inventory :=
  match fuel with
  | O => ("", OutOfFuel)
  | S fuel =>
      let '(line, rest, eof) := getline input in
      if eof || String.eqb line "Exit" then (prompt, Normal inv)
      else
        match execute_line line inv with
        | Normal (inv, text) =>
            let '(more, ending) := main_loop fuel rest inv in
            (prompt +:+ text +:+ more, ending)
        | Throw e => (prompt, Throw e)
        | Undefined => (prompt, Undefined)
        | Exited => (prompt, Exited)
        | OutOfFuel => (prompt, OutOfFuel)
        end
  end.

Definition main (input : string) : string * outcome Inventory :=
  main_loop (S (String.length input)) input empty_Inventory.

(** ** Vocabulary of the further properties *)

Fixpoint all_chars (P : ascii → bool) (s : string) : bool :=
  match s with
  | EmptyString => true
  | String c rest => P c && all_chars P rest
  end.

(** A character that is neither white space nor a token by itself. *)
Definition is_ordinary (c : ascii) : bool := negb (isspace c) && negb (is_mark c).

(** What the tokenizer's regular expression matches: a comma, a question
    mark, or a non-empty run of ordinary characters. *)
Definition is_token (t : string) : bool :=
  match t with
  | EmptyString => false
  | String c rest =>
      (is_mark c && String.eqb rest "") || all_chars is_ordinary t
  end.

(** The input made of the given lines, each closed by a newline. *)
Definition unlines (lines : list string) : string :=
  foldr (λ line rest, line +:+ endl +:+ rest) "" lines.

Definition no_newline (line : string) : bool :=
  all_chars (λ c, negb (Ascii.eqb c "010"%char)) line.

(** What [main] writes for the answers [outs] of a session. *)
Definition transcript (outs : list string) : string :=
  foldr (λ out rest, prompt +:+ out +:+ rest) prompt outs.

(** The formula book of [inv'] has every formula of [inv], up to the order
    of its ingredients. *)
Definition formulas_le (inv inv' : Inventory) : Prop :=
  ∀ name p, potions inv !! name = Some p →
    ∃ p', potions inv' !! name = Some p'
      ∧ potion_ingredients p' ≡ₚ potion_ingredients p.

(** The loop of [main] on input that is already cut into lines. *)
Fixpoint main_lines (lines : list string) (inv : Inventory)
  : string * outcome Inventory :=
  match lines with
  | [] => (prompt, Normal inv)
  | line :: rest =>
      if String.eqb line "Exit" then (prompt, Normal inv)
      else
        match execute_line line inv with
        | Normal (inv, text) =>
            let '(more, ending) := main_lines rest inv in
            (prompt +:+ text +:+ more, ending)
        | Throw e => (prompt, Throw e)
        | Undefined => (prompt, Undefined)
        | Exited => (prompt, Exited)
        | OutOfFuel => (prompt, OutOfFuel)
        end
  end.

(** The formula books of [inv] and [inv'] hold the same potions with the
    same formulas, up to the order of the ingredients. *)
Definition same_formulas (inv inv' : Inventory) : Prop :=
  ∀ name,
    option_Forall2 (λ p p', potion_ingredients p' ≡ₚ potion_ingredients p)
      (potions inv !! name) (potions inv' !! name).

(** The answer to what was learnt about [monster]: [known] tells whether the
    monster had an entry and, if so, whether the entry had what was learnt. *)
Definition learnt (known : option bool) (monster : string) : string :=
  match known with
  | None => "New bestiary entry added: " +:+ monster +:+ endl
  | Some false => "Bestiary entry updated: " +:+ monster +:+ endl
  | Some true => "Already known effectiveness" +:+ endl
  end.

(** * Proofs *)

(** ** Reasoning about outcomes *)

Lemma bind_Normal {A B : Type} (m : outcome A) (k : A → outcome B) (b : B) :
  m ≫= k = Normal b ↔ ∃ a, m = Normal a ∧ k a = Normal b.
Proof.
  destruct m; simpl; split; try (intros [? [? ?]]); try discriminate; eauto.
  congruence.
Qed.

Lemma and_then_Normal (a b : outcome bool) (r : bool) :
  a &&& b = Normal r ↔
  (a = Normal false ∧ r = false) ∨ (a = Normal true ∧ b = Normal r).
Proof.
  unfold and_then. rewrite bind_Normal. split.
  - intros [[] [-> H]]; [right | left]; split; congruence.
  - intros [[-> ->] | [-> H]]; eauto.
Qed.

Lemma and_then_pure (x : bool) (b : outcome bool) :
  Normal x &&& b = if x then b else Normal false.
Proof. reflexivity. Qed.

(** Splits a hypothesis [m ≫= k = Normal b] along the bind. *)
Ltac unbind H :=
  let a := fresh "v" in
  let Ha := fresh "E" in
  apply bind_Normal in H as (a & Ha & H).

Ltac outcome_cases :=
  repeat match goal with
    | H : Normal _ = Normal _ |- _ => injection H as H; subst
    | H : Throw _ = Normal _ |- _ => discriminate H
    | H : Undefined = Normal _ |- _ => discriminate H
    | H : Exited = Normal _ |- _ => discriminate H
    | H : OutOfFuel = Normal _ |- _ => discriminate H
    end.

(** ** [int] arithmetic *)

Lemma in_int_spec z : in_int z = true ↔ INT_MIN ≤ z ≤ INT_MAX.
Proof. unfold in_int. rewrite andb_true_iff, !Z.leb_le. tauto. Qed.

Lemma int_add_Normal a b r : int_add a b = Normal r → r = a + b ∧ INT_MIN ≤ r ≤ INT_MAX.
Proof.
  unfold int_add. destruct (in_int (a + b)) eqn:E; intros H; outcome_cases.
  apply in_int_spec in E. auto.
Qed.

Lemma int_sub_Normal a b r : int_sub a b = Normal r → r = a - b ∧ INT_MIN ≤ r ≤ INT_MAX.
Proof.
  unfold int_sub. destruct (in_int (a - b)) eqn:E; intros H; outcome_cases.
  apply in_int_spec in E. auto.
Qed.

Lemma int_add_in a b : INT_MIN ≤ a + b ≤ INT_MAX → int_add a b = Normal (a + b).
Proof. intros H. unfold int_add. apply in_int_spec in H. by rewrite H. Qed.

Lemma int_sub_in a b : INT_MIN ≤ a - b ≤ INT_MAX → int_sub a b = Normal (a - b).
Proof. intros H. unfold int_sub. apply in_int_spec in H. by rewrite H. Qed.

(** ** [std::stoi] on the tokens the grammar lets through *)

Lemma digit_not_special c :
  isdigit c = true →
  isspace c = false ∧ c ≠ "-"%char ∧ c ≠ "+"%char ∧ is_mark c = false
  ∧ isalpha c = false.
Proof.
  destruct c as [[] [] [] [] [] [] [] []]; vm_compute; intros H;
    try discriminate H; repeat split; congruence.
Qed.

Lemma digits_value_mono s : ∀ acc, 0 ≤ acc → acc ≤ digits_value acc s.
Proof.
  induction s as [|c s IH]; intros acc Hacc; simpl; [lia|].
  destruct (isdigit c) eqn:Hc; [|lia].
  unfold isdigit in Hc. apply andb_true_iff in Hc as [H1 H2].
  apply Z.leb_le in H1, H2.
  etrans; [|apply IH]; lia.
Qed.

Lemma count_of_nonneg token : 0 ≤ count_of token.
Proof. apply (digits_value_mono token 0). lia. Qed.

Lemma stoi_integer token :
  is_integer token = true → token ≠ "" →
  stoi token = if in_int (count_of token) then Normal (count_of token)
               else Throw out_of_range.
Proof.
  intros Hint Hne. destruct token as [|c rest]; [done|].
  simpl in Hint. destruct (isdigit c) eqn:Hc; [|done]. simpl in Hint.
  destruct (digit_not_special c Hc) as (Hsp & _).
  unfold stoi, count_of. simpl skip_spaces. rewrite Hsp.
  destruct c as [[] [] [] [] [] [] [] []]; try discriminate Hc; reflexivity.
Qed.

Lemma stoi_empty : stoi "" = Throw invalid_argument.
Proof. reflexivity. Qed.

(** What a successful conversion of an all-digit token tells. *)
Lemma stoi_integer_Normal token v :
  is_integer token = true → stoi token = Normal v →
  token ≠ "" ∧ v = count_of token ∧ 0 ≤ v ≤ INT_MAX.
Proof.
  intros Hint Hv. destruct (decide (token = "")) as [->|Hne]; [discriminate Hv|].
  rewrite (stoi_integer _ Hint Hne) in Hv.
  destruct (in_int (count_of token)) eqn:E; outcome_cases.
  apply in_int_spec in E. pose proof (count_of_nonneg token). repeat split; [done|lia..].
Qed.

Lemma stoi_fits token :
  is_integer token = true → token ≠ "" → count_of token ≤ INT_MAX →
  stoi token = Normal (count_of token).
Proof.
  intros Hint Hne Hle. rewrite (stoi_integer _ Hint Hne).
  pose proof (count_of_nonneg token).
  assert (in_int (count_of token) = true) as ->; [|done].
  apply in_int_spec. unfold INT_MIN. lia.
Qed.

(** ** Reading [words] *)

Lemma words_at_Normal words i w :
  words_at words i = Normal w ↔ 0 ≤ i ∧ words !! Z.to_nat i = Some w.
Proof.
  unfold words_at. destruct (Z.ltb_spec i 0).
  - split; [done | lia].
  - destruct (words !! Z.to_nat i); split.
    + intros H'. outcome_cases. done.
    + intros [_ H']. congruence.
    + done.
    + intros [_ H']. done.
Qed.

Lemma words_at_suffix words i (k : nat) :
  0 ≤ i →
  words_at words (i + Z.of_nat k) = token_at (drop (Z.to_nat i) words) k.
Proof.
  intros Hi. unfold words_at, token_at.
  destruct (Z.ltb_spec (i + Z.of_nat k) 0); [lia|].
  rewrite lookup_drop. replace (Z.to_nat (i + Z.of_nat k)) with (Z.to_nat i + k)%nat by lia.
  done.
Qed.

Lemma words_at_suffix0 words i :
  0 ≤ i → words_at words i = token_at (drop (Z.to_nat i) words) 0.
Proof. intros Hi. rewrite <- (words_at_suffix words i 0 Hi). f_equal. lia. Qed.

Lemma drop_suffix (words : list string) i (k : nat) :
  0 ≤ i → drop (Z.to_nat (i + Z.of_nat k)) words = drop k (drop (Z.to_nat i) words).
Proof.
  intros Hi. rewrite drop_drop. f_equal. lia.
Qed.

Lemma suffix_length (words : list string) i :
  0 ≤ i → Z.of_nat (length (drop (Z.to_nat i) words)) = Z.max 0 (word_count words - i).
Proof. intros Hi. rewrite length_drop. unfold word_count. lia. Qed.

(** The tests and reads of a loop at index [i], in terms of the tokens that
    are left from [i] on. *)
Lemma suffix_reads words i tokens :
  0 ≤ i → drop (Z.to_nat i) words = tokens →
  words_at words i = token_at tokens 0
  ∧ words_at words (i + 1) = token_at tokens 1
  ∧ words_at words (i + 2) = token_at tokens 2
  ∧ words_at words (i + 3) = token_at tokens 3
  ∧ drop (Z.to_nat (i + 1)) words = drop 1 tokens
  ∧ drop (Z.to_nat (i + 3)) words = drop 3 tokens
  ∧ drop (Z.to_nat (i + 4)) words = drop 4 tokens.
Proof.
  intros Hi <-.
  pose proof (words_at_suffix words i 0 Hi) as H0.
  pose proof (words_at_suffix words i 1 Hi) as H1.
  pose proof (words_at_suffix words i 2 Hi) as H2.
  pose proof (words_at_suffix words i 3 Hi) as H3.
  pose proof (drop_suffix words i 1 Hi) as D1.
  pose proof (drop_suffix words i 3 Hi) as D3.
  pose proof (drop_suffix words i 4 Hi) as D4.
  replace (i + Z.of_nat 0) with i in H0 by lia.
  repeat split; assumption.
Qed.

Lemma suffix_bound words i tokens (d k : Z) :
  0 ≤ i → 0 ≤ d → 0 ≤ k → drop (Z.to_nat i) words = tokens →
  (i + k <? word_count words - d) = (d + k + 1 <=? Z.of_nat (length tokens)).
Proof.
  intros Hi Hd Hk <-. pose proof (suffix_length words i Hi) as ->.
  destruct (Z.ltb_spec (i + k) (word_count words - d)),
    (Z.leb_spec (d + k + 1) (Z.max 0 (word_count words - i))); lia.
Qed.

(** Case analysis along a computation that is known to end normally: every
    test and every intermediate outcome of [H] is split, the branches that
    cannot produce the result are dropped. *)
Lemma Normal_inj {A : Type} (a b : A) : Normal a = Normal b → a = b.
Proof. congruence. Qed.

Ltac resolve_tests H :=
  repeat first
    [ match type of H with
      | context [?a <=? ?b] => rewrite (proj2 (Z.leb_le a b)) in H by lia
      end
    | match type of H with
      | context [?a <=? ?b] => rewrite (proj2 (Z.leb_gt a b)) in H by lia
      end
    | match type of H with
      | context [?a <? ?b] => rewrite (proj2 (Z.ltb_lt a b)) in H by lia
      end
    | match type of H with
      | context [?a <? ?b] => rewrite (proj2 (Z.ltb_ge a b)) in H by lia
      end ].

Ltac crunch H :=
  repeat (simpl in H; resolve_tests H;
          match type of H with
          | (if ?b then _ else _) = _ =>
              let E := fresh "E" in destruct b eqn:E; try discriminate H
          | (?m ≫= _) = _ =>
              let E := fresh "E" in
              destruct m eqn:E; try discriminate H; try crunch E
          | (?m &&& _) = _ =>
              let E := fresh "E" in
              destruct m eqn:E; try discriminate H; try crunch E
          | (match ?m with Normal _ => _ | _ => _ end) = _ =>
              let E := fresh "E" in
              destruct m eqn:E; try discriminate H; try crunch E
          | (match ?m with Some _ => _ | None => _ end) = _ =>
              let E := fresh "E" in destruct m eqn:E; try discriminate H
          | (let '(_, _) := ?p in _) = _ => destruct p
          | Normal _ = Normal _ => apply Normal_inj in H
          end);
  simpl in H;
  try discriminate H.

(** Turns the boolean facts left by [crunch] into propositions. *)
Ltac tidy :=
  repeat match goal with
    | H : negb _ = false |- _ => apply negb_false_iff in H
    | H : negb _ = true |- _ => apply negb_true_iff in H
    | H : (_ <=? _) = false |- _ => apply Z.leb_gt in H
    | H : (_ <=? _) = true |- _ => apply Z.leb_le in H
    | H : (_ <? _) = true |- _ => apply Z.ltb_lt in H
    | H : (_ <? _) = false |- _ => apply Z.ltb_ge in H
    | H : (_ =? _) = true |- _ => apply Z.eqb_eq in H
    | H : (_ =? _) = false |- _ => apply Z.eqb_neq in H
    | H : String.eqb _ _ = true |- _ => apply String.eqb_eq in H
    | H : String.eqb _ _ = false |- _ => apply String.eqb_neq in H
    end.

(** The facts a validated count token carries. *)
Ltac count_facts :=
  repeat match goal with
    | Hi : is_integer ?c = true, Hs : stoi ?c = Normal ?v |- _ =>
        let Hne := fresh "Hne" in
        let Hr := fresh "Hr" in
        destruct (stoi_integer_Normal c v Hi Hs) as (Hne & -> & Hr); clear Hs
    end.

Lemma suffix_test words i tokens (d : Z) :
  0 ≤ i → 0 ≤ d → drop (Z.to_nat i) words = tokens →
  (i <? word_count words - d) = (d + 1 <=? Z.of_nat (length tokens))
  ∧ (i + 2 <? word_count words - d) = (d + 3 <=? Z.of_nat (length tokens)).
Proof.
  intros Hi Hd <-. pose proof (suffix_length words i Hi) as ->.
  split.
  - destruct (Z.ltb_spec i (word_count words - d)),
      (Z.leb_spec (d + 1) (Z.max 0 (word_count words - i))); lia.
  - destruct (Z.ltb_spec (i + 2) (word_count words - d)),
      (Z.leb_spec (d + 3) (Z.max 0 (word_count words - i))); lia.
Qed.

Lemma eqb_true s t : String.eqb s t = true → s = t.
Proof. apply String.eqb_eq. Qed.

Lemma negb_eqb_false s t : negb (String.eqb s t) = false → s = t.
Proof. intros H. apply negb_false_iff in H. by apply String.eqb_eq. Qed.

(** *** The groups [count name ,] *)

Lemma mod3_step (n : nat) :
  Z.of_nat (S (S (S n))) mod 3 = 2 → Z.of_nat n mod 3 = 2 ∧ (2 ≤ n)%nat.
Proof.
  intros H.
  replace (Z.of_nat (S (S (S n)))) with (Z.of_nat n + 1 * 3) in H by lia.
  rewrite Z.mod_add in H by lia. split; [done|].
  destruct n as [|[|n]]; simpl in *; try done; lia.
Qed.

Lemma ingredient_list_loop_valid words d : ∀ fuel i tokens,
  0 ≤ i → d = 0 ∨ d = 1 → drop (Z.to_nat i) words = tokens →
  Z.of_nat (length tokens) mod 3 = 2 →
  ingredient_list_loop fuel words (word_count words - d) i = Normal true →
  loot_shape tokens ∧ Forall (λ p, p.2 ≤ INT_MAX) (groups tokens).
Proof.
  induction fuel as [|fuel IH]; intros i tokens Hi Hd Htok Hmod H; [done|].
  simpl in H.
  destruct (suffix_test words i tokens d) as [T0 T2]; [lia..|done|].
  destruct (suffix_reads words i tokens Hi Htok) as (R0 & R1 & R2 & _ & _ & D3 & _).
  rewrite T0, T2, R0, R1, R2 in H. clear T0 T2 R0 R1 R2.
  destruct tokens as [|c [|n [|s rest]]]; simpl length in *;
    [exfalso; by destruct Hd; subst..| |].
  - destruct Hd as [-> | ->]; crunch H; tidy; count_facts;
      (split; [by apply loot_last | repeat constructor; simpl; lia]).
  - apply mod3_step in Hmod as [Hmod Hlen].
    assert (loot_shape rest ∧ Forall (λ p, p.2 ≤ INT_MAX) (groups rest)
            ∧ positive_integer c ∧ count_of c ≤ INT_MAX
            ∧ is_alphabetical n = true ∧ s = ",") as (? & ? & ? & ? & ? & ->).
    { destruct Hd as [-> | ->]; crunch H; tidy; count_facts; try lia;
        (destruct (IH (i + 3) rest) as [? ?]; [lia|auto|done|done|done|]);
        repeat split; (done || lia). }
    split; [by apply loot_more | simpl; by constructor].
Qed.

(** The handlers' loops read the groups the validity loop has checked. *)
Lemma positive_integer_stoi c :
  positive_integer c → count_of c ≤ INT_MAX → stoi c = Normal (count_of c).
Proof. intros (Hne & Hint & _) Hle. by apply stoi_fits. Qed.

Lemma add_ingredients_loop_groups words : ∀ tokens,
  loot_shape tokens → Forall (λ p, p.2 ≤ INT_MAX) (groups tokens) →
  ∀ fuel i inv,
    0 ≤ i → drop (Z.to_nat i) words = tokens → (length tokens < fuel)%nat →
    add_ingredients_loop fuel words i inv
    = for_each (λ p, add_ingredient p.1 p.2) (groups tokens) inv.
Proof.
  induction 1 as [c n Hc Hn | c n rest Hc Hn Hrest IH];
    intros Hfits [|fuel] i inv Hi Htok Hfuel; simpl in Hfuel; try lia.
  - destruct (suffix_test words i [c; n] 1) as [T0 _]; [lia..|done|].
    destruct (suffix_reads words i _ Hi Htok) as (R0 & R1 & _ & _ & _ & D3 & _).
    simpl. rewrite T0, R0, R1. simpl.
    apply Forall_cons in Hfits as [Hfit _].
    rewrite (positive_integer_stoi c Hc Hfit). simpl.
    destruct (add_ingredient n (count_of c) inv) as [inv'| | | |]; simpl; try done.
    destruct fuel as [|fuel]; [lia|]. simpl.
    destruct (suffix_test words (i + 3) [] 1) as [T0' _]; [lia..|done|].
    by rewrite T0'.
  - destruct (suffix_test words i (c :: n :: "," :: rest) 1) as [T0 _]; [lia..|done|].
    destruct (suffix_reads words i _ Hi Htok) as (R0 & R1 & _ & _ & _ & D3 & _).
    simpl. rewrite T0, R0, R1. simpl.
    apply Forall_cons in Hfits as [Hfit Hfits].
    rewrite (positive_integer_stoi c Hc Hfit). simpl.
    assert (Z.of_nat (S (S (S (length rest)))) >= 2) by lia.
    assert ((1 + 1 <=? Z.of_nat (S (S (S (length rest))))) = true) as ->
      by (apply Z.leb_le; lia).
    simpl.
    destruct (add_ingredient n (count_of c) inv) as [inv'| | | |]; simpl; try done.
    apply IH; [done|lia|done|lia].
Qed.

Lemma formula_loop_groups words : ∀ tokens,
  loot_shape tokens → Forall (λ p, p.2 ≤ INT_MAX) (groups tokens) →
  ∀ fuel i acc,
    0 ≤ i → drop (Z.to_nat i) words = tokens → (length tokens < fuel)%nat →
    formula_loop fuel words i acc = Normal (acc ++ groups tokens).
Proof.
  induction 1 as [c n Hc Hn | c n rest Hc Hn Hrest IH];
    intros Hfits [|fuel] i acc Hi Htok Hfuel; simpl in Hfuel; try lia.
  - destruct (suffix_test words i [c; n] 1) as [T0 _]; [lia..|done|].
    destruct (suffix_reads words i _ Hi Htok) as (R0 & R1 & _ & _ & _ & D3 & _).
    simpl. rewrite T0, R0, R1. simpl.
    apply Forall_cons in Hfits as [Hfit _].
    rewrite (positive_integer_stoi c Hc Hfit). simpl.
    destruct fuel as [|fuel]; [lia|]. simpl.
    destruct (suffix_test words (i + 3) [] 1) as [T0' _]; [lia..|done|].
    by rewrite T0'.
  - destruct (suffix_test words i (c :: n :: "," :: rest) 1) as [T0 _]; [lia..|done|].
    destruct (suffix_reads words i _ Hi Htok) as (R0 & R1 & _ & _ & _ & D3 & _).
    simpl. rewrite T0, R0, R1. simpl.
    apply Forall_cons in Hfits as [Hfit Hfits].
    rewrite (positive_integer_stoi c Hc Hfit). simpl.
    assert ((1 + 1 <=? Z.of_nat (S (S (S (length rest))))) = true) as ->
      by (apply Z.leb_le; lia).
    simpl. rewrite (IH Hfits fuel (i + 3)); [|lia|done|lia].
    by rewrite <- app_assoc.
Qed.

Lemma loot_shape_groups tokens :
  loot_shape tokens → groups tokens ≠ [] ∧ Forall (λ p, 0 < p.2) (groups tokens).
Proof.
  induction 1 as [c n Hc Hn | c n rest Hc Hn Hrest [_ IH]]; simpl.
  - split; [done|]. repeat constructor. apply Hc.
  - split; [done|]. constructor; [apply Hc | done].
Qed.

Lemma loot_shape_length tokens :
  loot_shape tokens → Z.of_nat (length tokens) mod 3 = 2.
Proof.
  induction 1 as [c n Hc Hn | c n rest Hc Hn Hrest IH]; [done|].
  simpl length.
  replace (Z.of_nat (S (S (S (length rest))))) with (Z.of_nat (length rest) + 1 * 3) by lia.
  by rewrite Z.mod_add by lia.
Qed.

(** On tokens that [std::stoi] can convert the validity loop decides the
    shape. *)
Lemma ingredient_list_loop_decides words : ∀ fuel i tokens,
  0 ≤ i → drop (Z.to_nat i) words = tokens →
  Forall (λ w, w ≠ "") tokens → Forall fits_int tokens →
  Z.of_nat (length tokens) mod 3 = 2 → (length tokens < fuel)%nat →
  (ingredient_list_loop fuel words (word_count words - 1) i = Normal true
   ∧ loot_shape tokens)
  ∨ (ingredient_list_loop fuel words (word_count words - 1) i = Normal false
     ∧ ¬ loot_shape tokens).
Proof.
  induction fuel as [|fuel IH]; intros i tokens Hi Htok Hne Hfit Hmod Hfuel; [lia|].
  simpl.
  destruct (suffix_test words i tokens 1) as [T0 T2]; [lia..|done|].
  destruct (suffix_reads words i tokens Hi Htok) as (R0 & R1 & R2 & _ & _ & D3 & _).
  rewrite T0, T2, R0, R1, R2. clear T0 T2 R0 R1 R2.
  destruct tokens as [|c [|n [|s rest]]]; simpl length in *; [done..| |].
  - simpl.
    apply Forall_cons in Hne as [Hc _]. apply Forall_cons in Hfit as [Hfc _].
    destruct (is_integer c) eqn:Hint; simpl;
      [|right; split; [done|]; inversion 1 as [? ? (_ & ? & _)|]; congruence].
    rewrite (stoi_fits c Hint Hc (Hfc Hint)). simpl.
    destruct (Z.leb_spec (count_of c) 0); simpl;
      [right; split; [done|]; inversion 1 as [? ? (_ & _ & ?)|]; lia|].
    destruct (is_alphabetical n) eqn:Hn; simpl;
      [|right; split; [done|]; inversion 1; congruence].
    left. split; [|by apply loot_last].
    destruct fuel as [|fuel]; [lia|]. simpl.
    destruct (suffix_test words (i + 3) [] 1) as [T0' _]; [lia..|done|].
    by rewrite T0'.
  - apply mod3_step in Hmod as [Hmod Hlen].
    assert ((1 + 3 <=? Z.of_nat (S (S (S (length rest))))) = true) as ->
      by (apply Z.leb_le; lia).
    assert ((1 + 1 <=? Z.of_nat (S (S (S (length rest))))) = true) as ->
      by (apply Z.leb_le; lia).
    simpl.
    apply Forall_cons in Hne as [Hc Hne]. apply Forall_cons in Hfit as [Hfc Hfit].
    apply Forall_cons in Hne as [_ Hne]. apply Forall_cons in Hfit as [_ Hfit].
    apply Forall_cons in Hne as [_ Hne]. apply Forall_cons in Hfit as [_ Hfit].
    destruct (is_integer c) eqn:Hint; simpl;
      [|right; split; [done|]; inversion 1 as [|? ? ? (_ & ? & _)]; congruence].
    rewrite (stoi_fits c Hint Hc (Hfc Hint)). simpl.
    destruct (Z.leb_spec (count_of c) 0); simpl;
      [right; split; [done|]; inversion 1 as [|? ? ? (_ & _ & ?)]; lia|].
    destruct (is_alphabetical n) eqn:Hn; simpl;
      [|right; split; [done|]; inversion 1; congruence].
    destruct (String.eqb_spec s ","); simpl;
      [|right; split; [done|]; inversion 1; congruence].
    subst s.
    destruct (IH (i + 3) rest) as [[-> Hshape] | [-> Hshape]];
      [lia|done|done|done|done|lia| |].
    + left. split; [done|]. by apply loot_more.
    + right. split; [done|]. inversion 1; subst; done.
Qed.

(** ** The tokenizer *)

Lemma flush_nonempty cur : Forall (λ w, w ≠ "") (flush cur).
Proof. destruct cur; simpl; repeat constructor. done. Qed.

Lemma split_go_nonempty line : ∀ cur, Forall (λ w, w ≠ "") (split_go cur line).
Proof.
  induction line as [|c line IH]; intros cur; simpl.
  - apply flush_nonempty.
  - destruct (isspace c); [|destruct (is_mark c)].
    + apply Forall_app. split; [apply flush_nonempty | apply IH].
    + apply Forall_app. split; [apply flush_nonempty|].
      constructor; [done | apply IH].
    + apply IH.
Qed.

Lemma split_line_nonempty line : Forall (λ w, w ≠ "") (split_line line).
Proof. apply split_go_nonempty. Qed.

(** ** The last token *)

Lemma words_at_last words :
  words ≠ [] →
  words_at words (word_count words - 1) = from_option Normal Undefined (last words).
Proof.
  intros Hne. unfold words_at, word_count.
  destruct (Z.ltb_spec (Z.of_nat (length words) - 1) 0) as [Hlt|_].
  { destruct words; simpl in *; [done|lia]. }
  rewrite last_lookup.
  replace (Z.to_nat (Z.of_nat (length words) - 1)) with (Nat.pred (length words)) by lia.
  by destruct (words !! Nat.pred (length words)).
Qed.

Lemma loot_shape_last tokens :
  loot_shape tokens → ∃ name, last tokens = Some name ∧ is_alphabetical name = true.
Proof.
  induction 1 as [c n Hc Hn | c n rest Hc Hn Hrest (name & Hlast & Hname)].
  - by exists n.
  - exists name. split; [|done].
    destruct rest as [|r rest]; [done|]. done.
Qed.

Lemma loot_shape_head tokens :
  loot_shape tokens → ∃ count rest, tokens = count :: rest ∧ positive_integer count.
Proof. destruct 1; eauto. Qed.

Lemma rem3 n : Z.rem (Z.of_nat n) 3 = Z.of_nat n mod 3.
Proof. apply Z.rem_mod_nonneg; lia. Qed.

Lemma is_valid_loot_decides rest :
  let words := "Geralt" :: "loots" :: rest in
  Forall (λ w, w ≠ "") rest → Forall fits_int rest →
  (is_valid_loot words = Normal true ∧ loot_shape rest)
  ∨ (is_valid_loot words = Normal false ∧ ¬ loot_shape rest).
Proof.
  intros words Hne Hfit. unfold is_valid_loot.
  assert (word_count words = Z.of_nat (length rest) + 2) as Hwc
    by (unfold word_count, words; simpl length; lia).
  assert (Z.rem (word_count words) 3 = word_count words mod 3) as ->
    by (apply Z.rem_mod_nonneg; lia).
  destruct (Z.eqb_spec (word_count words mod 3) 1) as [Hmod|Hmod]; simpl.
  - destruct (Z.ltb_spec (word_count words) 4) as [Hlt|Hge].
    + right. split; [done|]. intros Hshape.
      destruct Hshape; simpl in Hwc; lia.
    + assert (Z.of_nat (length rest) mod 3 = 2) as Hmod'.
      { replace (Z.of_nat (length rest)) with (word_count words + (-1) * 3 + 1) by lia.
        rewrite <- Z.add_mod_idemp_l by lia. rewrite Z.mod_add by lia.
        rewrite Hmod. done. }
      apply (ingredient_list_loop_decides words (S (length words)) 2 rest);
        try done; simpl; lia.
  - right. split; [done|]. intros Hshape. apply loot_shape_length in Hshape.
    apply Hmod. rewrite Hwc.
    replace (Z.of_nat (length rest) + 2) with (2 + Z.of_nat (length rest)) by lia.
    rewrite <- Z.add_mod_idemp_r by lia. by rewrite Hshape.
Qed.

Lemma not_positive_comma : ¬ positive_integer ",".
Proof. intros (_ & H & _). discriminate H. Qed.

(** C5 (amended): a line whose tokens start with "Geralt loots", and whose
    count tokens fit an [int], is a valid loot sentence exactly when the
    tokens from index 2 on are groups of a positive integer count, an
    alphabetical ingredient name and a comma, the comma left out after the
    last group only, with at least one group; every other shape is invalid.
    For such a sentence the number of tokens of the whole line is 1 modulo 3,
    and the number of tokens after "loots" is 2 modulo 3. *)
Theorem loot_sentence_classified (line : string) (rest : list string) :
  split_line line = "Geralt" :: "loots" :: rest →
  Forall fits_int rest →
  (detect_sentence_type (split_line line) line = Normal 0 ↔ loot_shape rest)
  ∧ (¬ loot_shape rest → detect_sentence_type (split_line line) line = Normal (-1))
  ∧ (loot_shape rest →
     word_count (split_line line) mod 3 = 1 ∧ Z.of_nat (length rest) mod 3 = 2).
Proof.
  intros Hsplit Hfit.
  pose proof (split_line_nonempty line) as Hne. rewrite Hsplit in *.
  apply Forall_cons in Hne as [_ Hne]. apply Forall_cons in Hne as [_ Hne].
  set (words := "Geralt" :: "loots" :: rest).
  assert (detect_sentence_type words line = Normal 0 ∧ loot_shape rest
          ∨ detect_sentence_type words line = Normal (-1) ∧ ¬ loot_shape rest) as Hdec.
  { subst words. destruct rest as [|r0 rest'].
    { right. split; [done|]. inversion 1. }
    assert (words_at ("Geralt" :: "loots" :: r0 :: rest') 2 = Normal r0) as H2
      by reflexivity.
    assert ((word_count ("Geralt" :: "loots" :: r0 :: rest') <=? 2) = false) as Hwc.
    { apply Z.leb_gt. unfold word_count. simpl length. lia. }
    assert (last ("Geralt" :: "loots" :: r0 :: rest') = last (r0 :: rest')) as Hl
      by reflexivity.
    assert (r0 :: rest' ≠ []) as Hnil by done.
    assert (hd_error (r0 :: rest') = Some r0) as Hhd by done.
    remember (r0 :: rest') as rest eqn:Hrest. clear Hrest rest'.
    unfold detect_sentence_type.
    change (words_at ("Geralt" :: "loots" :: rest) 0) with (Normal (A := string) "Geralt").
    change (words_at ("Geralt" :: "loots" :: rest) 1) with (Normal (A := string) "loots").
    rewrite H2, Hwc. simpl.
    destruct (String.eqb_spec r0 ",") as [->|Hr0].
    { right. split; [done|]. intros Hs.
      apply loot_shape_head in Hs as (c & ? & -> & Hc).
      injection Hhd as ->. by apply not_positive_comma. }
    rewrite words_at_last by done. rewrite Hl.
    destruct (last rest) as [lastw|] eqn:Hlast;
      [|by apply last_None in Hlast].
    simpl.
    destruct (String.eqb_spec lastw ",") as [->|Hlastw].
    { right. split; [done|]. intros Hs.
      apply loot_shape_last in Hs as (name & Hl' & Hname).
      rewrite Hlast in Hl'. injection Hl' as <-. discriminate Hname. }
    destruct (is_valid_loot_decides rest Hne Hfit) as [[-> Hs] | [-> Hs]]; simpl; auto. }
  split; [|split].
  - destruct Hdec as [[-> ?] | [-> ?]]; split; intros; (done || tauto).
  - destruct Hdec as [[-> ?] | [-> ?]]; intros; (done || tauto).
  - intros Hs. apply loot_shape_length in Hs as Hmod. split; [|done].
    unfold word_count, words. simpl length.
    replace (Z.of_nat (S (S (length rest)))) with (2 + Z.of_nat (length rest)) by lia.
    rewrite <- Z.add_mod_idemp_r by lia. by rewrite Hmod.
Qed.

(** ** The trophy part of a trade sentence *)

Lemma positive_integer_not_for c : positive_integer c → String.eqb c "for" = false.
Proof.
  intros (_ & Hint & _). apply String.eqb_neq. intros ->. discriminate Hint.
Qed.

Lemma trophies_shape_head tokens :
  trophies_shape tokens →
  ∃ c n s t rest, tokens = c :: n :: s :: t :: rest ∧ positive_integer c.
Proof.
  destruct 1 as [c n rest Hc | c n rest Hc ? ? Hrest].
  - by exists c, n, "trophy", "for", rest.
  - destruct Hrest; eauto 10.
Qed.

Lemma trade_trophies_loop_valid words : ∀ fuel i tokens j,
  0 ≤ i → drop (Z.to_nat i) words = tokens →
  trade_trophies_loop fuel words i = Normal (Some j) →
  trophies_shape tokens ∧ 0 ≤ j ∧ drop (Z.to_nat j) words = after_for tokens.
Proof.
  induction fuel as [|fuel IH]; intros i tokens j Hi Htok H; [done|].
  simpl in H.
  destruct (suffix_reads words i tokens Hi Htok) as (R0 & R1 & R2 & R3 & _ & D3 & D4).
  rewrite R0, R1, R2, R3 in H. clear R0 R1 R2 R3.
  destruct tokens as [|c [|n [|s [|t rest]]]]; try (crunch H; fail).
  crunch H; tidy; count_facts; simplify_eq.
  - split; [|split; [lia | done]].
    apply trophies_last; repeat split; (done || lia).
  - destruct (IH (i + 3) (t :: rest) j) as (Hshape & Hj & Hdrop); [lia|done|done|].
    split; [|split; [done|]].
    + apply trophies_more; repeat split; (done || lia).
    + simpl. by rewrite (proj2 (String.eqb_neq t "for")).
Qed.

Lemma trophies_shape_requests tokens :
  trophies_shape tokens →
  trophy_requests tokens ≠ [] ∧ Forall (λ p, count_ok p.2) (trophy_requests tokens).
Proof.
  induction 1 as [c n rest Hc Hle Hn | c n rest Hc Hle Hn Hrest [_ IH]].
  - split; [done|]. simpl. repeat constructor; simpl; (apply Hc || lia).
  - split; [done|].
    destruct (trophies_shape_head _ Hrest) as (c' & n' & s' & t' & rest' & -> & Hc').
    cbn [trophy_requests]. rewrite (positive_integer_not_for c' Hc').
    constructor; [split; simpl; (apply Hc || lia) | done].
Qed.

Lemma trophies_to_trade_loop_requests words inv : ∀ tokens,
  trophies_shape tokens →
  ∀ fuel i start,
    0 ≤ i → drop (Z.to_nat i) words = tokens → (length tokens < fuel)%nat →
    ∃ j, 0 ≤ j ∧ drop (Z.to_nat j) words = after_for tokens ∧
      trophies_to_trade_loop fuel words inv i start
      = if existsb (λ p, lacks (trophies inv) p.1 p.2) (trophy_requests tokens)
        then Normal None
        else Normal (Some (collect (trophy_requests tokens) start, j)).
Proof.
  induction 1 as [c n rest Hc Hle Hn | c n rest Hc Hle Hn Hrest IH];
    intros [|fuel] i start Hi Htok Hfuel; simpl in Hfuel; try lia.
  - destruct (suffix_reads words i _ Hi Htok) as (R0 & R1 & R2 & R3 & _ & D3 & D4).
    exists (i + 4). split; [lia|]. split; [done|].
    simpl. rewrite R0, R1, R3. simpl.
    rewrite (positive_integer_stoi c Hc Hle). simpl.
    by destruct (lacks (trophies inv) n (count_of c)).
  - destruct (suffix_reads words i _ Hi Htok) as (R0 & R1 & R2 & R3 & _ & D3 & D4).
    destruct (trophies_shape_head _ Hrest) as (c' & n' & s' & t' & rest' & -> & Hc').
    destruct (IH fuel (i + 3) (<[n := count_of c]> start)) as (j & Hj & Hdrop & Hloop);
      [lia|done|simpl in *; lia|].
    exists j. split; [done|]. split.
    { rewrite Hdrop. cbn [after_for]. by rewrite (positive_integer_not_for c' Hc'). }
    cbn [trophies_to_trade_loop]. rewrite R0, R1, R3.
    cbn [mbind outcome_bind token_at lookup list_lookup].
    rewrite (positive_integer_stoi c Hc Hle).
    cbn [mbind outcome_bind trophy_requests existsb fst snd].
    rewrite (positive_integer_not_for c' Hc').
    destruct (lacks (trophies inv) n (count_of c)); [done|].
    rewrite Hloop. done.
Qed.

(** [cnt % 3 == 2] in C++: the remainder has the sign of [cnt]. *)
Lemma rem3_is_2 x : Z.rem x 3 = 2 → 2 ≤ x ∧ x mod 3 = 2.
Proof.
  intros H. destruct (Z.le_gt_cases x 0) as [Hneg|Hpos].
  - pose proof (Z.rem_nonpos x 3 ltac:(lia) Hneg). lia.
  - rewrite Z.rem_mod_nonneg in H by lia. split; [|done].
    destruct (Z.le_gt_cases 2 x); [done|].
    assert (x = 1) as -> by lia. done.
Qed.

Lemma suffix_mod3 (words : list string) j :
  0 ≤ j → Z.rem (word_count words - j) 3 = 2 →
  Z.of_nat (length (drop (Z.to_nat j) words)) mod 3 = 2.
Proof.
  intros Hj H. apply rem3_is_2 in H as [Hle Hmod].
  rewrite suffix_length by done. by rewrite Z.max_r by lia.
Qed.

Lemma is_valid_trade_shape words :
  is_valid_trade words = Normal true →
  trophies_shape (drop 2 words)
  ∧ loot_shape (after_for (drop 2 words))
  ∧ Forall (λ p, p.2 ≤ INT_MAX) (ingredient_requests (drop 2 words)).
Proof.
  unfold is_valid_trade. generalize (S (length words)). intros fuel H.
  crunch H; tidy.
  match goal with H : trade_trophies_loop _ _ _ = _ |- _ =>
    apply (trade_trophies_loop_valid words _ 2 (drop 2 words)) in H
      as (Hshape & Hj & Hdrop); [|lia|done] end.
  split; [done|]. unfold ingredient_requests. rewrite <- Hdrop.
  match goal with H : ingredient_list_loop ?f _ _ ?z = _ |- _ =>
    apply (ingredient_list_loop_valid words 1 f z); auto using suffix_mod3 end.
Qed.

(** [handle_trade] on a sentence that [is_valid_trade] accepts. *)
Lemma handle_trade_valid words inv :
  is_valid_trade words = Normal true →
  handle_trade words inv =
    if existsb (λ p, lacks (trophies inv) p.1 p.2) (trophy_requests (drop 2 words))
    then Normal (inv, "Not enough trophies" +:+ endl)
    else
      inv ← for_each (λ p, decrease_trophy p.1 p.2)
              (map_items (collect (trophy_requests (drop 2 words)) ∅)) inv;
      inv ← for_each (λ p, add_ingredient p.1 p.2)
              (ingredient_requests (drop 2 words)) inv;
      Normal (inv, "Trade successful" +:+ endl).
Proof.
  intros Hvalid. apply is_valid_trade_shape in Hvalid as (Hshape & Hloot & Hfits).
  unfold handle_trade. remember (S (length words)) as fuel eqn:Hfuel.
  destruct (trophies_to_trade_loop_requests words inv _ Hshape fuel 2 ∅)
    as (j & Hj & Hdrop & ->); [lia|done|rewrite length_drop; lia|].
  destruct (existsb _ _); [done|]. simpl.
  destruct (for_each _ _ inv) as [inv1| | | |]; simpl; try done.
  rewrite (add_ingredients_loop_groups words _ Hloot Hfits fuel j);
    [done|done|done|].
  rewrite <- Hdrop, length_drop. lia.
Qed.

(** ** Iterating over maps and sets *)

Lemma map_items_perm {A : Type} (m : gmap string A) : map_items m ≡ₚ map_to_list m.
Proof. apply merge_sort_Permutation. Qed.

Lemma elem_of_map_items {A : Type} (m : gmap string A) k v :
  (k, v) ∈ map_items m ↔ m !! k = Some v.
Proof. rewrite map_items_perm. apply elem_of_map_to_list. Qed.






(** ** Ledgers *)

Lemma with_same inv :
  with_ingredients (ingredients inv) inv = inv
  ∧ with_trophies (trophies inv) inv = inv
  ∧ with_potion_counts (potion_counts inv) inv = inv
  ∧ with_potions (potions inv) inv = inv
  ∧ with_monsters (monsters inv) inv = inv.
Proof. by destruct inv. Qed.

Lemma deduct_lookup m n c k :
  deduct m (n, c) !! k = if decide (k = n) then take_away (m !! n) c else m !! k.
Proof.
  unfold deduct, take_away. simpl.
  destruct (m !! n) as [have|] eqn:Hn.
  - destruct (have - c <=? 0); case_decide; subst;
      by rewrite ?lookup_delete_eq, ?lookup_delete_ne, ?lookup_insert_eq,
                 ?lookup_insert_ne by done.
  - case_decide; by subst.
Qed.

Lemma deduct_ok m p : ledger_ok m → 0 ≤ p.2 → ledger_ok (deduct m p).
Proof.
  intros Hm Hp k v Hk. destruct p as [n c]. rewrite deduct_lookup in Hk.
  case_decide; [|by apply (Hm k)]. subst k.
  unfold take_away in Hk. destruct (m !! n) as [have|] eqn:Hn; [|done].
  apply Hm in Hn. unfold count_ok in *. simpl in Hp.
  destruct (Z.leb_spec (have - c) 0); simplify_eq. lia.
Qed.

Lemma deduct_all_ok l : ∀ m,
  ledger_ok m → Forall (λ p, count_ok p.2) l → ledger_ok (deduct_all m l).
Proof.
  induction l as [|p l IH]; intros m Hm Hl; [done|].
  apply Forall_cons in Hl as [Hp Hl]. simpl. apply IH; [|done].
  apply deduct_ok; [done|]. unfold count_ok in Hp. lia.
Qed.


(** The subtraction of a handler that takes [c] from a ledger in range. *)
Lemma ledger_sub m n have c :
  ledger_ok m → m !! n = Some have → count_ok c →
  int_sub have c = Normal (have - c).
Proof.
  intros Hm Hn Hc. apply Hm in Hn. apply int_sub_in.
  unfold count_ok, INT_MIN, INT_MAX in *. lia.
Qed.

Lemma decrease_trophy_deduct n c inv :
  ledger_ok (trophies inv) → count_ok c →
  decrease_trophy n c inv = Normal (with_trophies (deduct (trophies inv) (n, c)) inv).
Proof.
  intros Hm Hc. unfold decrease_trophy, deduct. simpl.
  destruct (trophies inv !! n) as [have|] eqn:Hn.
  - rewrite (ledger_sub _ n have c Hm Hn Hc). simpl.
    by destruct (have - c <=? 0).
  - by rewrite (proj1 (proj2 (with_same inv))).
Qed.

Lemma use_ingredient_deduct n c inv :
  ledger_ok (ingredients inv) → count_ok c →
  use_ingredient n c inv
  = Normal (with_ingredients (deduct (ingredients inv) (n, c)) inv).
Proof.
  intros Hm Hc. unfold use_ingredient, deduct. simpl.
  destruct (ingredients inv !! n) as [have|] eqn:Hn.
  - rewrite (ledger_sub _ n have c Hm Hn Hc). simpl.
    by destruct (have - c <=? 0).
  - by rewrite (proj1 (with_same inv)).
Qed.

Lemma use_one_potion_deduct p inv :
  ledger_ok (potion_counts inv) →
  use_one_potion p inv
  = Normal (with_potion_counts (deduct (potion_counts inv) (p, 1)) inv).
Proof.
  intros Hm. unfold use_one_potion, in_stock, deduct. simpl.
  destruct (potion_counts inv !! p) as [have|] eqn:Hn.
  - pose proof (Hm _ _ Hn) as Hhave. unfold count_ok in Hhave.
    rewrite (proj2 (Z.ltb_lt 0 have)) by lia. simpl.
    rewrite (ledger_sub _ p have 1 Hm Hn) by (unfold count_ok, INT_MAX; lia).
    simpl. destruct (Z.eqb_spec (have - 1) 0), (Z.leb_spec (have - 1) 0);
      (done || lia).
  - by rewrite (proj1 (proj2 (proj2 (with_same inv)))).
Qed.

Lemma for_each_decrease_trophy l : ∀ inv,
  ledger_ok (trophies inv) → Forall (λ p, count_ok p.2) l →
  for_each (λ p, decrease_trophy p.1 p.2) l inv
  = Normal (with_trophies (deduct_all (trophies inv) l) inv).
Proof.
  induction l as [|[n c] l IH]; intros inv Hm Hl; simpl.
  - by rewrite (proj1 (proj2 (with_same inv))).
  - apply Forall_cons in Hl as [Hc Hl].
    rewrite decrease_trophy_deduct by done. simpl.
    rewrite IH; [done| |done].
    apply deduct_ok; [done|]. unfold count_ok in Hc. simpl in *. lia.
Qed.

Lemma for_each_use_ingredient l : ∀ inv,
  ledger_ok (ingredients inv) → Forall (λ p, count_ok p.2) l →
  for_each (λ p, use_ingredient p.1 p.2) l inv
  = Normal (with_ingredients (deduct_all (ingredients inv) l) inv).
Proof.
  induction l as [|[n c] l IH]; intros inv Hm Hl; simpl.
  - by rewrite (proj1 (with_same inv)).
  - apply Forall_cons in Hl as [Hc Hl].
    rewrite use_ingredient_deduct by done. simpl.
    rewrite IH; [done| |done].
    apply deduct_ok; [done|]. unfold count_ok in Hc. simpl in *. lia.
Qed.

Lemma for_each_use_one_potion l : ∀ inv,
  ledger_ok (potion_counts inv) →
  for_each use_one_potion l inv
  = Normal (with_potion_counts
              (deduct_all (potion_counts inv) ((λ p, (p, 1)) <$> l)) inv).
Proof.
  induction l as [|p l IH]; intros inv Hm; simpl.
  - by rewrite (proj1 (proj2 (proj2 (with_same inv)))).
  - rewrite use_one_potion_deduct by done. simpl.
    rewrite IH; [done|]. by apply deduct_ok.
Qed.

(** ** Adding ingredients *)

Lemma total_required_absent l k : k ∉ l.*1 → total_required l k = 0.
Proof.
  induction l as [|[n c] l IH]; intros Hk; [done|].
  simpl in *. apply not_elem_of_cons in Hk as [Hne Hk].
  rewrite (proj2 (String.eqb_neq n k)) by done. by apply IH.
Qed.

Lemma add_ingredient_Normal n c inv inv' :
  add_ingredient n c inv = Normal inv' →
  inv' = with_ingredients
           (<[n := default 0 (ingredients inv !! n) + c]> (ingredients inv)) inv
  ∧ (is_Some (ingredients inv !! n) →
     default 0 (ingredients inv !! n) + c ≤ INT_MAX).
Proof.
  unfold add_ingredient. intros H.
  destruct (ingredients inv !! n) as [have|]; simpl.
  - crunch H. match goal with E : int_add _ _ = _ |- _ =>
      apply int_add_Normal in E as [-> ?] end.
    split; [done | intros _; lia].
  - crunch H. split; [done | by intros [? ?]].
Qed.

Lemma for_each_add_ingredient l : ∀ inv inv',
  for_each (λ p, add_ingredient p.1 p.2) l inv = Normal inv' →
  ∃ m, inv' = with_ingredients m inv
    ∧ (∀ k, m !! k = if decide (k ∈ l.*1)
                     then Some (default 0 (ingredients inv !! k) + total_required l k)
                     else ingredients inv !! k)
    ∧ (ledger_ok (ingredients inv) → Forall (λ p, count_ok p.2) l → ledger_ok m).
Proof.
  induction l as [|[n c] l IH]; intros inv inv' H; simpl in H.
  - crunch H. subst inv'. exists (ingredients inv).
    split; [by rewrite (proj1 (with_same inv))|]. split; [|done].
    intros k. case_decide as Hk; [|done]. by apply elem_of_nil in Hk.
  - unbind H. apply add_ingredient_Normal in E as [-> Hle].
    apply IH in H as (m & -> & Hm & Hok). exists m.
    split; [done|]. split.
    + intros k. rewrite Hm. simpl.
      destruct (decide (k = n)) as [->|Hne].
      * rewrite lookup_insert_eq, String.eqb_refl. simpl.
        repeat case_decide;
          try (exfalso; rewrite ?elem_of_cons in *; tauto).
        -- f_equal. lia.
        -- rewrite total_required_absent by done. f_equal. lia.
      * rewrite lookup_insert_ne by done.
        rewrite (proj2 (String.eqb_neq n k)) by done.
        repeat case_decide; try done;
          exfalso; rewrite ?elem_of_cons in *; tauto.
    + intros Hinv Hl. apply Forall_cons in Hl as [Hc Hl]. apply Hok; [|done].
      simpl. intros k v Hk. simpl in Hc.
      destruct (decide (k = n)) as [->|Hne].
      * rewrite lookup_insert_eq in Hk. injection Hk as <-.
        destruct (ingredients inv !! n) as [have|] eqn:Hn; simpl in *.
        -- apply Hinv in Hn. unfold count_ok in *. split; [lia|]. apply Hle. eauto.
        -- unfold count_ok in *. lia.
      * rewrite lookup_insert_ne in Hk by done. by apply (Hinv k).
Qed.

(** ** Collecting the trophies of a trade *)

Lemma collect_snoc requests p start :
  collect (requests ++ [p]) start = <[p.1 := p.2]> (collect requests start).
Proof. unfold collect. by rewrite foldl_app. Qed.

Lemma collect_last_request requests name :
  collect requests ∅ !! name = last_request requests name.
Proof.
  unfold last_request.
  induction requests as [|p requests IH] using rev_ind; [done|].
  rewrite collect_snoc, reverse_snoc. simpl.
  destruct (decide (name = p.1)) as [->|Hne].
  - by rewrite !lookup_insert_eq.
  - by rewrite !lookup_insert_ne by done.
Qed.

Lemma last_request_elem requests name c :
  last_request requests name = Some c → (name, c) ∈ requests.
Proof.
  unfold last_request. intros H.
  apply elem_of_list_to_map_2 in H. by apply elem_of_reverse.
Qed.

(** ** Names of several words *)

Lemma append_cons x (a b : string) : String x a +:+ b = String x (a +:+ b).
Proof. reflexivity. Qed.

Lemma append_nil_l (a : string) : "" +:+ a = a.
Proof. reflexivity. Qed.

Lemma append_assoc (a b c : string) : (a +:+ b) +:+ c = a +:+ b +:+ c.
Proof.
  induction a as [|x a IH]; [done|]. by rewrite !append_cons, IH.
Qed.

Lemma append_nil_r (a : string) : a +:+ "" = a.
Proof. induction a as [|x a IH]; [done|]. by rewrite append_cons, IH. Qed.

Lemma name_of_cons w tokens :
  name_of (w :: tokens)
  = match tokens with [] => w | _ => w +:+ " " +:+ name_of tokens end.
Proof. by destruct tokens. Qed.

Lemma between_empty words first last : last < first → between words first last = [].
Proof. intros H. unfold between. by replace (Z.to_nat (last - first + 1)) with 0%nat by lia. Qed.

Lemma between_cons words first last w :
  0 ≤ first ≤ last → words_at words first = Normal w →
  between words first last = w :: between words (first + 1) last.
Proof.
  intros Hle Hw. apply words_at_Normal in Hw as [_ Hw]. unfold between.
  replace (Z.to_nat (last - first + 1)) with (S (Z.to_nat (last - (first + 1) + 1))) by lia.
  replace (Z.to_nat (first + 1)) with (S (Z.to_nat first)) by lia.
  by rewrite (drop_S _ _ _ Hw).
Qed.

Lemma words_at_in_range words i :
  0 ≤ i < word_count words → ∃ w, words_at words i = Normal w.
Proof.
  intros Hi. unfold words_at, word_count in *.
  destruct (Z.ltb_spec i 0); [lia|].
  destruct (words !! Z.to_nat i) as [w|] eqn:Hw; [eauto|].
  apply lookup_ge_None in Hw. lia.
Qed.

Lemma join_words_loop_spec words last : ∀ fuel i acc,
  0 ≤ i → last < word_count words → (Z.to_nat (last - i + 1) < fuel)%nat →
  join_words_loop fuel words i last acc
  = Normal (acc +:+ name_of (between words i last)).
Proof.
  induction fuel as [|fuel IH]; intros i acc Hi Hlast Hfuel; [lia|].
  simpl. destruct (Z.leb_spec i last) as [Hle|Hgt].
  - destruct (words_at_in_range words i) as [w Hw]; [lia|].
    rewrite Hw. simpl. rewrite IH by lia.
    rewrite (between_cons words i last w) by (done || lia).
    rewrite name_of_cons.
    destruct (Z.leb_spec i (last - 1)) as [Hmore|Hend].
    + destruct (words_at_in_range words (i + 1)) as [w' Hw']; [lia|].
      rewrite (between_cons words (i + 1) last w') by (done || lia).
      by rewrite !append_assoc.
    + rewrite between_empty by lia. simpl. by rewrite append_nil_r.
  - rewrite between_empty by lia. simpl. by rewrite append_nil_r.
Qed.

Lemma join_words_spec words first last :
  0 ≤ first → last < word_count words →
  join_words words first last = Normal (name_of (between words first last)).
Proof.
  intros Hf Hl. unfold join_words. rewrite join_words_loop_spec; [done..|].
  unfold word_count in Hl. lia.
Qed.

(** The loop that stops at ["potion"]: the classifier and the handlers
    agree on the name and on the index. *)
Lemma name_until_loop_potion words : ∀ fuel acc i r,
  name_until_loop fuel words "potion" acc i = Normal r →
  potion_name_loop fuel words acc i = Normal r
  ∧ i ≤ r.2 ∧ words_at words r.2 = Normal "potion".
Proof.
  induction fuel as [|fuel IH]; intros acc i r H; [done|].
  simpl in H. simpl.
  destruct (words_at words i) as [w| | | |] eqn:Hw; try done. simpl in *.
  destruct (String.eqb_spec w "potion") as [->|Hne]; simpl in *.
  - injection H as <-. simpl. split; [done|]. split; [lia|done].
  - destruct (Z.ltb_spec i (word_count words)) as [Hlt|Hge]; simpl in H.
    + destruct (words_at words (i + 1)) as [w'| | | |]; try done. simpl in *.
      apply IH in H as (-> & Hle & Hr). split; [done|]. split; [lia|done].
    + apply words_at_Normal in Hw as [Hi Hw]. apply lookup_lt_Some in Hw.
      unfold word_count in Hge. lia.
Qed.

(** The name the potion handlers read in front of the first ["potion"]. *)
Lemma potion_name_loop_spec words : ∀ before rest fuel acc i,
  "potion" ∉ before →
  0 ≤ i → drop (Z.to_nat i) words = before ++ "potion" :: rest →
  (length before < fuel)%nat →
  potion_name_loop fuel words acc i
  = Normal (acc +:+ name_of before, i + Z.of_nat (length before)).
Proof.
  induction before as [|w before IH]; intros rest [|fuel] acc i Hnot Hi Hdrop Hfuel;
    simpl in Hfuel; try lia.
  - destruct (suffix_reads words i _ Hi Hdrop) as (R0 & _).
    simpl. rewrite R0. simpl. rewrite append_nil_r. do 2 f_equal. lia.
  - destruct (suffix_reads words i _ Hi Hdrop) as (R0 & R1 & _ & _ & D1 & _).
    apply not_elem_of_cons in Hnot as [Hw Hnot].
    assert (potion_name_loop (S fuel) words acc i
            = potion_name_loop fuel words
                (match before with
                 | [] => acc +:+ w
                 | _ => acc +:+ w +:+ " "
                 end) (i + 1)) as ->.
    { simpl. rewrite R0, R1. simpl.
      rewrite (proj2 (String.eqb_neq w "potion")) by done. simpl.
      destruct before as [|w' before]; simpl; [done|].
      apply not_elem_of_cons in Hnot as [Hw' _].
      by rewrite (proj2 (String.eqb_neq w' "potion")) by done. }
    rewrite (IH rest fuel _ (i + 1)); [|done|lia|done|lia].
    rewrite name_of_cons. destruct before as [|w' before]; simpl.
    + rewrite append_nil_r. do 2 f_equal. lia.
    + rewrite !append_assoc. do 2 f_equal. lia.
Qed.

(** ** Names of several words in the raw line *)

Lemma str_length_app a b : str_length (a +:+ b) = str_length a + str_length b.
Proof.
  unfold str_length. induction a as [|x a IH].
  - rewrite append_nil_l. simpl. lia.
  - rewrite append_cons. simpl String.length. lia.
Qed.

Lemma spans_go_tokens line : ∀ cur pos, (spans_go cur pos line).*2 = split_go cur line.
Proof.
  induction line as [|c line IH]; intros cur pos; simpl.
  - by destruct cur.
  - destruct (isspace c); [|destruct (is_mark c)]; rewrite ?fmap_app, ?fmap_cons, ?IH;
      try done; by destruct cur.
Qed.

Lemma split_spans_tokens line : (split_spans line).*2 = split_line line.
Proof. apply spans_go_tokens. Qed.

Lemma spans_go_bounds line : ∀ cur pos,
  0 ≤ pos - str_length cur →
  Forall (λ span, 0 ≤ span.1 ∧ span.2 ≠ ""
                  ∧ span.1 + str_length span.2 ≤ pos + str_length line)
    (spans_go cur pos line).
Proof.
  assert (∀ cur pos k, 0 ≤ pos - str_length cur → 0 ≤ k →
            Forall (λ span, 0 ≤ span.1 ∧ span.2 ≠ ""
                            ∧ span.1 + str_length span.2 ≤ pos + k)
              (flush_span cur pos)) as Hflush.
  { intros cur pos k Hpos Hk. destruct cur as [|x cur]; simpl; [constructor|].
    repeat constructor; simpl; (done || lia). }
  induction line as [|c line IH]; intros cur pos Hpos.
  - simpl. apply Hflush; [done | unfold str_length; simpl; lia].
  - assert (str_length (String c line) = 1 + str_length line) as Hlen
      by (unfold str_length; simpl String.length; lia).
    assert (0 ≤ str_length line) as Hnn by (unfold str_length; lia).
    assert (0 ≤ str_length cur) as Hcur by (unfold str_length; lia).
    assert (str_length "" = 0) as Hnil by done.
    simpl. destruct (isspace c); [|destruct (is_mark c)].
    + apply Forall_app. split; [apply Hflush; lia|].
      eapply Forall_impl; [apply (IH "" (pos + 1)); lia|].
      intros span (? & ? & ?). rewrite Hlen. repeat split; (done || lia).
    + apply Forall_app. split; [apply Hflush; lia|]. constructor.
      * simpl. rewrite Hlen.
        assert (str_length (String c "") = 1) as -> by done.
        repeat split; (done || lia).
      * eapply Forall_impl; [apply (IH "" (pos + 1)); lia|].
        intros span (? & ? & ?). rewrite Hlen. repeat split; (done || lia).
    + eapply Forall_impl; [apply (IH _ (pos + 1))|].
      * rewrite str_length_app.
        assert (str_length (String c "") = 1) as -> by done. lia.
      * intros span (? & ? & ?). rewrite Hlen. repeat split; (done || lia).
Qed.

Lemma split_spans_bounds line i s w :
  split_spans line !! i = Some (s, w) →
  0 ≤ s ∧ 1 ≤ str_length w ∧ s + str_length w ≤ str_length line.
Proof.
  intros H. pose proof (spans_go_bounds line "" 0) as Hall.
  rewrite Forall_lookup in Hall.
  destruct (Hall ltac:(unfold str_length; simpl; lia) i (s, w) H) as (H1 & H2 & H3).
  simpl in *. split; [done|]. split; [|lia].
  destruct w; [done|]. unfold str_length. simpl. lia.
Qed.

Lemma split_spans_word line i s w :
  split_spans line !! i = Some (s, w) →
  words_at (split_line line) (Z.of_nat i) = Normal w.
Proof.
  intros H. apply words_at_Normal. split; [lia|].
  rewrite Nat2Z.id, <- split_spans_tokens, list_lookup_fmap, H. done.
Qed.

(** The loop over the tokens of the name. *)
Lemma name_words_loop_spec words last : ∀ fuel i,
  0 ≤ i → last < word_count words → (Z.to_nat (last - i + 1) < fuel)%nat →
  name_words_loop fuel words i last
  = Normal (forallb is_alphabetical (between words i last)).
Proof.
  induction fuel as [|fuel IH]; intros i Hi Hlast Hfuel; [lia|].
  simpl. destruct (Z.leb_spec i last) as [Hle|Hgt].
  - destruct (words_at_in_range words i) as [w Hw]; [lia|].
    rewrite Hw. simpl. rewrite (between_cons words i last w) by (done || lia).
    simpl. destruct (is_alphabetical w); simpl; [|done]. apply IH; lia.
  - by rewrite between_empty by lia.
Qed.

(** The loop over the characters of the name. *)
Lemma char_at_in_range line i :
  0 ≤ i < str_length line →
  ∃ c, char_at line i = Normal c ∧ char_of line i = Some c.
Proof.
  intros Hi. unfold char_at, char_of.
  destruct (Z.ltb_spec i 0); [lia|].
  destruct (String.get (Z.to_nat i) line) as [c|] eqn:Hc; [eauto|].
  exfalso. revert Hc. unfold str_length in Hi.
  assert (Z.to_nat i < String.length line)%nat as Hlt by lia.
  generalize (Z.to_nat i) Hlt. clear. induction line as [|x line IH]; intros n Hn Hc;
    simpl in *; [lia|].
  destruct n; [done|]. apply (IH n); [lia|done].
Qed.

Lemma double_space_loop_spec line last : ∀ fuel i,
  0 ≤ i → last < str_length line → (Z.to_nat (last - i) < fuel)%nat →
  (double_space_loop fuel line i last = Normal false
   ∧ has_double is_blank line i last)
  ∨ (double_space_loop fuel line i last = Normal true
     ∧ ¬ has_double is_blank line i last).
Proof.
  induction fuel as [|fuel IH]; intros i Hi Hlast Hfuel; [lia|].
  simpl. destruct (Z.ltb_spec i last) as [Hlt|Hge].
  - destruct (char_at_in_range line i) as (c1 & -> & Hc1); [lia|].
    destruct (char_at_in_range line (i + 1)) as (c2 & -> & Hc2); [lia|].
    simpl. destruct (is_blank c1) eqn:Hb1; simpl.
    + destruct (is_blank c2) eqn:Hb2; simpl.
      * left. split; [done|]. exists i, c1, c2. repeat split; (done || lia).
      * destruct (IH (i + 1)) as [[-> Hd] | [-> Hd]]; [lia..| |].
        -- left. split; [done|]. destruct Hd as (j & d1 & d2 & Hj & ?).
           exists j, d1, d2. split; [lia | done].
        -- right. split; [done|]. intros (j & d1 & d2 & Hj & Hd1 & Hd2 & Hp1 & Hp2).
           destruct (decide (j = i)) as [->|Hne]; [congruence|].
           apply Hd. exists j, d1, d2. repeat split; (done || lia).
    + destruct (IH (i + 1)) as [[-> Hd] | [-> Hd]]; [lia..| |].
      * left. split; [done|]. destruct Hd as (j & d1 & d2 & Hj & ?).
        exists j, d1, d2. split; [lia | done].
      * right. split; [done|]. intros (j & d1 & d2 & Hj & Hd1 & Hd2 & Hp1 & Hp2).
        destruct (decide (j = i)) as [->|Hne]; [congruence|].
        apply Hd. exists j, d1, d2. repeat split; (done || lia).
  - right. split; [done|]. intros (j & _ & _ & Hj & _). lia.
Qed.

Lemma to_int_small z : 0 ≤ z < 2 ^ 31 → to_int (to_size_t z) = z ∧ to_int z = z.
Proof.
  intros Hz. unfold to_int, to_size_t.
  rewrite (Z.mod_small z (2 ^ 64)) by lia.
  rewrite (Z.mod_small z (2 ^ 32)) by lia.
  by rewrite (proj2 (Z.ltb_lt z (2 ^ 31))) by lia.
Qed.

Lemma forallb_Forall {A : Type} (f : A → bool) (l : list A) :
  forallb f l = true ↔ Forall (λ x, f x = true) l.
Proof.
  induction l as [|x l IH]; simpl; [split; [constructor | done]|].
  rewrite andb_true_iff, Forall_cons. by rewrite IH.
Qed.

(** C6 (amended): on a line shorter than [2^31] characters, and for a name
    whose first and last token do not occur earlier in the line than where
    the name has them, the name passes exactly when all its tokens are
    alphabetical and the line has no two neighbouring space characters from
    the first character of the first token to the last character of the
    last one. *)
Theorem potion_name_rule (line : string) (first last : nat) :
  str_length line < 2 ^ 31 →
  (first ≤ last)%nat →
  (∀ s w, split_spans line !! first = Some (s, w) → str_find line w = s) →
  (∀ e w, split_spans line !! last = Some (e, w) → str_find line w = e) →
  name_rule is_blank line first last.
Proof.
  intros Hshort Hle Hfirst Hlast s w_s e w_e Hs He.
  pose proof (split_spans_bounds line _ _ _ Hs) as (Hs0 & Hs1 & Hs2).
  pose proof (split_spans_bounds line _ _ _ He) as (He0 & He1 & He2).
  assert (Z.of_nat last < word_count (split_line line)) as Hwc.
  { apply lookup_lt_Some in He. rewrite <- split_spans_tokens.
    unfold word_count. rewrite length_fmap. lia. }
  unfold is_valid_potion_name.
  rewrite name_words_loop_spec by (unfold word_count in *; lia).
  rewrite (split_spans_word line _ _ _ Hs), (split_spans_word line _ _ _ He).
  cbn [mbind outcome_bind].
  rewrite (Hfirst s w_s Hs), (Hlast e w_e He).
  rewrite (proj2 (to_int_small s ltac:(lia))).
  rewrite (proj1 (to_int_small (e + str_length w_e - 1) ltac:(lia))).
  cbn [mbind outcome_bind].
  rewrite <- forallb_Forall.
  destruct (forallb is_alphabetical _); cbn [negb].
  - destruct (double_space_loop_spec line (e + str_length w_e - 1)
                (S (S (String.length line))) s) as [[-> Hd] | [-> Hd]];
      [lia|lia|unfold str_length in *; lia| |].
    + split; [done | intros [_ Hn]; done].
    + split; [intros _; by split | done].
  - split; [done | by intros [? _]].
Qed.

(** ** The loops have all the fuel they need *)

Lemma fueled_bind {A B : Type} (m : outcome A) (k : A → outcome B) :
  m ≠ OutOfFuel → (∀ a, m = Normal a → k a ≠ OutOfFuel) → m ≫= k ≠ OutOfFuel.
Proof. destruct m; simpl; intros Hm Hk; try done. by apply Hk. Qed.

Lemma fueled_and_then (a b : outcome bool) :
  a ≠ OutOfFuel → (a = Normal true → b ≠ OutOfFuel) → a &&& b ≠ OutOfFuel.
Proof.
  intros Ha Hb. unfold and_then. apply fueled_bind; [done|].
  intros [] ->; [by apply Hb | done].
Qed.

Lemma fueled_words_at words i : words_at words i ≠ OutOfFuel.
Proof. unfold words_at. by repeat case_match. Qed.

Lemma fueled_char_at line i : char_at line i ≠ OutOfFuel.
Proof. unfold char_at. by repeat case_match. Qed.

Lemma fueled_stoi token : stoi token ≠ OutOfFuel.
Proof. unfold stoi. by repeat case_match. Qed.

Lemma fueled_int_add a b : int_add a b ≠ OutOfFuel.
Proof. unfold int_add. by case_match. Qed.

Lemma fueled_int_sub a b : int_sub a b ≠ OutOfFuel.
Proof. unfold int_sub. by case_match. Qed.

Lemma words_at_lt words i w : words_at words i = Normal w → 0 ≤ i < word_count words.
Proof.
  intros H. apply words_at_Normal in H as [Hi H]. apply lookup_lt_Some in H.
  unfold word_count. lia.
Qed.

(** One step through a computation; the calls of the loops are left. *)
Ltac fueled_step :=
  first
    [ done
    | apply fueled_words_at | apply fueled_char_at | apply fueled_stoi
    | apply fueled_int_add | apply fueled_int_sub
    | match goal with
      | |- (_ ≫= _) ≠ OutOfFuel => apply fueled_bind; [|intros ? ?]
      | |- (_ &&& _) ≠ OutOfFuel => apply fueled_and_then; [|intros ?]
      | |- (if ?b then _ else _) ≠ OutOfFuel => destruct b eqn:?
      | |- (match ?x with Some _ => _ | None => _ end) ≠ OutOfFuel => destruct x eqn:?
      | |- (let '(_, _) := ?x in _) ≠ OutOfFuel => destruct x eqn:?
      end
    | progress simpl ].

Ltac fueled := repeat fueled_step.

Ltac in_bounds :=
  repeat match goal with
         | H : words_at _ _ = Normal _ |- _ => apply words_at_lt in H
         end.

Lemma words_left_start words i : (words_left words i < S (length words))%nat.
Proof. unfold words_left, word_count. lia. Qed.

Lemma fueled_name_words_loop_from words last : ∀ fuel i,
  (words_left words i < fuel)%nat →
  name_words_loop fuel words i last ≠ OutOfFuel.
Proof.
  unfold words_left.
  induction fuel as [|fuel IH]; intros i Hfuel; [lia|].
  simpl. fueled. in_bounds. apply IH; lia.
Qed.

Lemma get_beyond line : ∀ n, (String.length line ≤ n)%nat → String.get n line = None.
Proof.
  induction line as [|x line IH]; intros n Hn; simpl in *; [by destruct n|].
  destruct n; [lia|]. apply IH. lia.
Qed.

Lemma char_at_le line i c : char_at line i = Normal c → 0 ≤ i ≤ str_length line.
Proof.
  unfold char_at, str_length. destruct (Z.ltb_spec i 0); [done|].
  destruct (Z.le_gt_cases i (Z.of_nat (String.length line))); [lia|].
  rewrite get_beyond by lia.
  destruct (Z.eqb_spec i (Z.of_nat (String.length line))); [lia|done].
Qed.

Lemma fueled_double_space_loop_from line last : ∀ fuel i,
  (Z.to_nat (str_length line + 1 - Z.max i 0) < fuel)%nat →
  double_space_loop fuel line i last ≠ OutOfFuel.
Proof.
  induction fuel as [|fuel IH]; intros i Hfuel; [lia|].
  simpl. destruct (i <? last); [|done].
  apply fueled_bind; [fueled|].
  intros twice Htwice.
  assert (0 ≤ i ≤ str_length line) as Hle.
  { crunch Htwice;
      match goal with H : char_at line i = Normal _ |- _ =>
        apply char_at_le in H; lia end. }
  destruct twice; [done|]. apply IH; lia.
Qed.

Lemma fueled_ingredient_list_loop_from words bound : ∀ fuel i,
  (words_left words i < fuel)%nat →
  ingredient_list_loop fuel words bound i ≠ OutOfFuel.
Proof.
  unfold words_left.
  induction fuel as [|fuel IH]; intros i Hfuel; [lia|].
  simpl. fueled. in_bounds. apply IH; lia.
Qed.

Lemma fueled_trade_trophies_loop_from words : ∀ fuel i,
  (words_left words i < fuel)%nat →
  trade_trophies_loop fuel words i ≠ OutOfFuel.
Proof.
  unfold words_left.
  induction fuel as [|fuel IH]; intros i Hfuel; [lia|].
  simpl. fueled. in_bounds. apply IH; lia.
Qed.

Lemma fueled_name_until_loop_from words stop : ∀ fuel acc i,
  (words_left words i < fuel)%nat →
  name_until_loop fuel words stop acc i ≠ OutOfFuel.
Proof.
  unfold words_left.
  induction fuel as [|fuel IH]; intros acc i Hfuel; [lia|].
  simpl. apply fueled_bind; [fueled|]. intros continue Hc.
  destruct continue; [|done].
  fueled. in_bounds. apply IH; lia.
Qed.

Lemma fueled_add_ingredient name count inv : add_ingredient name count inv ≠ OutOfFuel.
Proof. unfold add_ingredient. fueled. Qed.

Lemma fueled_add_ingredients_loop_from words : ∀ fuel i inv,
  (words_left words i < fuel)%nat →
  add_ingredients_loop fuel words i inv ≠ OutOfFuel.
Proof.
  unfold words_left.
  induction fuel as [|fuel IH]; intros i inv Hfuel; [lia|].
  simpl. fueled; [apply fueled_add_ingredient|]. in_bounds. apply IH; lia.
Qed.

Lemma fueled_formula_loop_from words : ∀ fuel i acc,
  (words_left words i < fuel)%nat →
  formula_loop fuel words i acc ≠ OutOfFuel.
Proof.
  unfold words_left.
  induction fuel as [|fuel IH]; intros i acc Hfuel; [lia|].
  simpl. fueled. in_bounds. apply IH; lia.
Qed.

Lemma fueled_trophies_to_trade_loop_from words inv : ∀ fuel i start,
  (words_left words i < fuel)%nat →
  trophies_to_trade_loop fuel words inv i start ≠ OutOfFuel.
Proof.
  unfold words_left.
  induction fuel as [|fuel IH]; intros i start Hfuel; [lia|].
  simpl. fueled. in_bounds. apply IH; lia.
Qed.

Lemma fueled_join_words_loop_from words last : ∀ fuel i acc,
  (words_left words i < fuel)%nat →
  join_words_loop fuel words i last acc ≠ OutOfFuel.
Proof.
  unfold words_left.
  induction fuel as [|fuel IH]; intros i acc Hfuel; [lia|].
  simpl. fueled. in_bounds. apply IH; lia.
Qed.

Lemma fueled_potion_name_loop_from words : ∀ fuel acc i,
  (words_left words i < fuel)%nat →
  potion_name_loop fuel words acc i ≠ OutOfFuel.
Proof.
  unfold words_left.
  induction fuel as [|fuel IH]; intros acc i Hfuel; [lia|].
  simpl. fueled. in_bounds. apply IH; lia.
Qed.

Lemma fueled_for_each {A : Type} (body : A → Inventory → outcome Inventory) l :
  (∀ x inv, body x inv ≠ OutOfFuel) → ∀ inv, for_each body l inv ≠ OutOfFuel.
Proof.
  intros Hbody. induction l as [|x l IH]; intros inv; simpl; [done|].
  apply fueled_bind; [apply Hbody | intros ? _; apply IH].
Qed.

(** ** No loop leaves the process *)

Lemma stays_bind {A B : Type} (m : outcome A) (k : A → outcome B) :
  m ≠ Exited → (∀ a, k a ≠ Exited) → m ≫= k ≠ Exited.
Proof. destruct m; simpl; intros Hm Hk; try done. Qed.

Lemma stays_and_then (a b : outcome bool) :
  a ≠ Exited → b ≠ Exited → a &&& b ≠ Exited.
Proof.
  intros Ha Hb. unfold and_then. apply stays_bind; [done|]. by intros [].
Qed.

Lemma stays_words_at words i : words_at words i ≠ Exited.
Proof. unfold words_at. by repeat case_match. Qed.

Lemma stays_char_at line i : char_at line i ≠ Exited.
Proof. unfold char_at. by repeat case_match. Qed.

Lemma stays_stoi token : stoi token ≠ Exited.
Proof. unfold stoi. by repeat case_match. Qed.

Lemma stays_int_add a b : int_add a b ≠ Exited.
Proof. unfold int_add. by case_match. Qed.

Lemma stays_int_sub a b : int_sub a b ≠ Exited.
Proof. unfold int_sub. by case_match. Qed.

Ltac stays_step :=
  first
    [ done
    | apply stays_words_at | apply stays_char_at | apply stays_stoi
    | apply stays_int_add | apply stays_int_sub
    | match goal with
      | |- (_ ≫= _) ≠ Exited => apply stays_bind; [|intros ?]
      | |- (_ &&& _) ≠ Exited => apply stays_and_then
      | |- (if ?b then _ else _) ≠ Exited => destruct b
      | |- (match ?x with Some _ => _ | None => _ end) ≠ Exited => destruct x
      | |- (let '(_, _) := ?x in _) ≠ Exited => destruct x
      end
    | progress simpl ].

Ltac stays := repeat stays_step.

Lemma stays_name_words_loop words last : ∀ fuel i,
  name_words_loop fuel words i last ≠ Exited.
Proof. induction fuel as [|fuel IH]; intros i; [done|]. simpl. stays. Qed.

Lemma stays_double_space_loop line last : ∀ fuel i,
  double_space_loop fuel line i last ≠ Exited.
Proof. induction fuel as [|fuel IH]; intros i; [done|]. simpl. stays. Qed.

Lemma stays_ingredient_list_loop words bound : ∀ fuel i,
  ingredient_list_loop fuel words bound i ≠ Exited.
Proof. induction fuel as [|fuel IH]; intros i; [done|]. simpl. stays. Qed.

Lemma stays_trade_trophies_loop words : ∀ fuel i,
  trade_trophies_loop fuel words i ≠ Exited.
Proof. induction fuel as [|fuel IH]; intros i; [done|]. simpl. stays. Qed.

Lemma stays_name_until_loop words stop : ∀ fuel acc i,
  name_until_loop fuel words stop acc i ≠ Exited.
Proof. induction fuel as [|fuel IH]; intros acc i; [done|]. simpl. stays. Qed.

Lemma stays_add_ingredient name count inv : add_ingredient name count inv ≠ Exited.
Proof. unfold add_ingredient. stays. Qed.

Lemma stays_add_ingredients_loop words : ∀ fuel i inv,
  add_ingredients_loop fuel words i inv ≠ Exited.
Proof.
  induction fuel as [|fuel IH]; intros i inv; [done|]. simpl.
  stays. apply stays_add_ingredient.
Qed.

Lemma stays_formula_loop words : ∀ fuel i acc,
  formula_loop fuel words i acc ≠ Exited.
Proof. induction fuel as [|fuel IH]; intros i acc; [done|]. simpl. stays. Qed.

Lemma stays_trophies_to_trade_loop words inv : ∀ fuel i start,
  trophies_to_trade_loop fuel words inv i start ≠ Exited.
Proof. induction fuel as [|fuel IH]; intros i start; [done|]. simpl. stays. Qed.

Lemma stays_join_words_loop words last : ∀ fuel i acc,
  join_words_loop fuel words i last acc ≠ Exited.
Proof. induction fuel as [|fuel IH]; intros i acc; [done|]. simpl. stays. Qed.

Lemma stays_potion_name_loop words : ∀ fuel acc i,
  potion_name_loop fuel words acc i ≠ Exited.
Proof. induction fuel as [|fuel IH]; intros acc i; [done|]. simpl. stays. Qed.

Lemma stays_for_each {A : Type} (body : A → Inventory → outcome Inventory) l :
  (∀ x inv, body x inv ≠ Exited) → ∀ inv, for_each body l inv ≠ Exited.
Proof.
  intros Hbody. induction l as [|x l IH]; intros inv; simpl; [done|].
  apply stays_bind; [apply Hbody | intros ?; apply IH].
Qed.

(** ** The validity loops accept what has the shape *)

Lemma ingredient_list_loop_accepts words d : ∀ tokens,
  loot_shape tokens → Forall (λ p, p.2 ≤ INT_MAX) (groups tokens) →
  d = 0 ∨ d = 1 →
  ∀ fuel i,
    0 ≤ i → drop (Z.to_nat i) words = tokens → (length tokens < fuel)%nat →
    ingredient_list_loop fuel words (word_count words - d) i = Normal true.
Proof.
  induction 1 as [c n Hc Hn | c n rest Hc Hn Hrest IH];
    intros Hfits Hd [|fuel] i Hi Htok Hfuel; simpl in Hfuel; try lia.
  - destruct (suffix_test words i [c; n] d) as [T0 T2]; [lia..|done|].
    destruct (suffix_reads words i _ Hi Htok) as (R0 & R1 & _ & _ & _ & D3 & _).
    simpl. rewrite T0, T2, R0, R1. simpl length.
    apply Forall_cons in Hfits as [Hfit _].
    assert ((d + 1 <=? Z.of_nat 2) = true) as -> by (apply Z.leb_le; lia).
    assert ((d + 3 <=? Z.of_nat 2) = false) as -> by (apply Z.leb_gt; lia).
    destruct Hc as (Hne & Hint & Hpos). simpl. rewrite Hint. simpl.
    rewrite (stoi_fits c) by done. simpl.
    assert ((count_of c <=? 0) = false) as -> by (apply Z.leb_gt; lia).
    rewrite Hn. simpl.
    destruct fuel as [|fuel]; [lia|]. simpl.
    destruct (suffix_test words (i + 3) [] d) as [T0' _]; [lia..|done|].
    rewrite T0'. simpl length.
    by assert ((d + 1 <=? Z.of_nat 0) = false) as -> by (apply Z.leb_gt; lia).
  - destruct (suffix_test words i (c :: n :: "," :: rest) d) as [T0 T2]; [lia..|done|].
    destruct (suffix_reads words i _ Hi Htok) as (R0 & R1 & R2 & _ & _ & D3 & _).
    simpl. rewrite T0, T2, R0, R1, R2. simpl length.
    apply Forall_cons in Hfits as [Hfit Hfits].
    assert ((d + 1 <=? Z.of_nat (S (S (S (length rest))))) = true) as ->
      by (apply Z.leb_le; lia).
    destruct Hc as (Hne & Hint & Hpos). simpl. rewrite Hint. simpl.
    rewrite (stoi_fits c) by done. simpl.
    assert ((count_of c <=? 0) = false) as -> by (apply Z.leb_gt; lia).
    rewrite Hn. simpl.
    destruct (d + 3 <=? _); simpl; apply IH; (done || lia).
Qed.

Lemma trade_trophies_loop_accepts words : ∀ tokens,
  trophies_shape tokens →
  ∀ fuel i,
    0 ≤ i → drop (Z.to_nat i) words = tokens → (length tokens < fuel)%nat →
    ∃ j, 0 ≤ j ∧ drop (Z.to_nat j) words = after_for tokens
         ∧ trade_trophies_loop fuel words i = Normal (Some j).
Proof.
  induction 1 as [c n rest Hc Hle Hn | c n rest Hc Hle Hn Hrest IH];
    intros [|fuel] i Hi Htok Hfuel; simpl in Hfuel; try lia.
  - destruct (suffix_reads words i _ Hi Htok) as (R0 & R1 & R2 & R3 & _ & D3 & D4).
    exists (i + 4). split; [lia|]. split; [done|].
    simpl. rewrite R0, R1, R2, R3. simpl.
    destruct Hc as (Hne & Hint & Hpos). rewrite Hint. simpl.
    rewrite (stoi_fits c) by done. simpl.
    assert ((count_of c <=? 0) = false) as -> by (apply Z.leb_gt; lia).
    by rewrite Hn.
  - destruct (suffix_reads words i _ Hi Htok) as (R0 & R1 & R2 & R3 & _ & D3 & D4).
    destruct (trophies_shape_head _ Hrest) as (c' & n' & s' & t' & rest' & -> & Hc').
    destruct (IH fuel (i + 3)) as (j & Hj & Hdrop & Hloop);
      [lia|done|simpl in *; lia|].
    exists j. split; [done|]. split.
    { rewrite Hdrop. cbn [after_for]. by rewrite (positive_integer_not_for c' Hc'). }
    cbn [trade_trophies_loop]. rewrite R0, R1, R2, R3.
    cbn [mbind outcome_bind token_at lookup list_lookup].
    destruct Hc as (Hne & Hint & Hpos). rewrite Hint.
    cbn [negb mbind outcome_bind]. rewrite (stoi_fits c) by done.
    cbn [mbind outcome_bind].
    assert ((count_of c <=? 0) = false) as -> by (apply Z.leb_gt; lia).
    rewrite Hn. cbn [negb mbind outcome_bind].
    rewrite (positive_integer_not_for c' Hc'). simpl. done.
Qed.

(** ** What the loops of the handlers leave alone

    [f] is a part of the inventory; that a handler does not write to it is
    seen from the setters it is insensitive to. *)

Lemma for_each_keeps {A X : Type} (f : Inventory → X)
    (body : A → Inventory → outcome Inventory) :
  (∀ x inv inv', body x inv = Normal inv' → f inv' = f inv) →
  ∀ l inv inv', for_each body l inv = Normal inv' → f inv' = f inv.
Proof.
  intros Hbody. induction l as [|x l IH]; intros inv inv' H; simpl in H.
  - by simplify_eq.
  - destruct (body x inv) as [inv1| | | |] eqn:Hx; simpl in H; try done.
    rewrite (IH _ _ H). by eapply Hbody.
Qed.

Lemma add_ingredient_keeps {X : Type} (f : Inventory → X) :
  (∀ m inv, f (with_ingredients m inv) = f inv) →
  ∀ name count inv inv',
    add_ingredient name count inv = Normal inv' → f inv' = f inv.
Proof.
  intros Hf name count inv inv' H. unfold add_ingredient in H.
  crunch H; by subst.
Qed.

Lemma add_ingredients_loop_keeps {X : Type} (f : Inventory → X) words :
  (∀ m inv, f (with_ingredients m inv) = f inv) →
  ∀ fuel i inv inv',
    add_ingredients_loop fuel words i inv = Normal inv' → f inv' = f inv.
Proof.
  intros Hf. induction fuel as [|fuel IH]; intros i inv inv' H; [done|].
  simpl in H. destruct (i <? word_count words - 1); [|by simplify_eq].
  destruct (words_at words i) as [w| | | |]; simpl in H; try done.
  destruct (stoi w) as [cnt| | | |]; simpl in H; try done.
  destruct (words_at words (i + 1)) as [ing| | | |]; simpl in H; try done.
  destruct (add_ingredient ing cnt inv) as [inv1| | | |] eqn:Hadd; simpl in H; try done.
  rewrite (IH _ _ _ H). by eapply add_ingredient_keeps.
Qed.

Lemma decrease_trophy_keeps {X : Type} (f : Inventory → X) :
  (∀ m inv, f (with_trophies m inv) = f inv) →
  ∀ name count inv inv',
    decrease_trophy name count inv = Normal inv' → f inv' = f inv.
Proof.
  intros Hf name count inv inv' H. unfold decrease_trophy in H.
  crunch H; by subst.
Qed.

Lemma use_ingredient_keeps {X : Type} (f : Inventory → X) :
  (∀ m inv, f (with_ingredients m inv) = f inv) →
  ∀ name count inv inv',
    use_ingredient name count inv = Normal inv' → f inv' = f inv.
Proof.
  intros Hf name count inv inv' H. unfold use_ingredient in H.
  crunch H; by subst.
Qed.

Lemma use_one_potion_keeps {X : Type} (f : Inventory → X) :
  (∀ m inv, f (with_potion_counts m inv) = f inv) →
  ∀ potion inv inv',
    use_one_potion potion inv = Normal inv' → f inv' = f inv.
Proof.
  intros Hf potion inv inv' H. unfold use_one_potion in H.
  crunch H; by subst.
Qed.

(** ** The loop that collects a name up to a stop word *)

Lemma name_until_loop_spec words stop : ∀ before rest fuel acc i,
  stop ∉ before →
  0 ≤ i → drop (Z.to_nat i) words = before ++ stop :: rest →
  (length before < fuel)%nat →
  name_until_loop fuel words stop acc i
  = Normal (acc +:+ name_of before, i + Z.of_nat (length before)).
Proof.
  induction before as [|w before IH]; intros rest [|fuel] acc i Hnot Hi Hdrop Hfuel;
    simpl in Hfuel; try lia.
  - destruct (suffix_reads words i _ Hi Hdrop) as (R0 & _).
    simpl. rewrite R0. simpl. rewrite String.eqb_refl. simpl.
    rewrite append_nil_r. do 2 f_equal. lia.
  - destruct (suffix_reads words i _ Hi Hdrop) as (R0 & R1 & _ & _ & D1 & _).
    apply not_elem_of_cons in Hnot as [Hw Hnot].
    assert (i < word_count words) as Hlt.
    { pose proof (suffix_length words i Hi) as Hlen. rewrite Hdrop in Hlen.
      simpl length in Hlen. lia. }
    assert (name_until_loop (S fuel) words stop acc i
            = name_until_loop fuel words stop
                (match before with
                 | [] => acc +:+ w
                 | _ => acc +:+ w +:+ " "
                 end) (i + 1)) as ->.
    { simpl. rewrite R0, R1. simpl.
      rewrite (proj2 (String.eqb_neq w stop)) by done. simpl.
      rewrite (proj2 (Z.ltb_lt _ _) Hlt). simpl.
      destruct before as [|w' before]; simpl.
      - by rewrite String.eqb_refl.
      - apply not_elem_of_cons in Hnot as [Hw' _].
        by rewrite (proj2 (String.eqb_neq w' stop)) by done. }
    rewrite (IH rest fuel _ (i + 1)); [|done|lia|done|lia].
    rewrite name_of_cons. destruct before as [|w' before]; simpl.
    + rewrite append_nil_r. do 2 f_equal. lia.
    + rewrite !append_assoc. do 2 f_equal. lia.
Qed.

Lemma name_until_loop_inv words stop : ∀ fuel acc i r,
  0 ≤ i → name_until_loop fuel words stop acc i = Normal r →
  ∃ before rest,
    drop (Z.to_nat i) words = before ++ stop :: rest
    ∧ (stop ∉ before) ∧ r.2 = i + Z.of_nat (length before).
Proof.
  induction fuel as [|fuel IH]; intros acc i r Hi H; [done|].
  simpl in H.
  destruct (words_at words i) as [w| | | |] eqn:Hw; try done. simpl in H.
  apply words_at_lt in Hw as Hlt.
  apply words_at_Normal in Hw as [_ Hw]. apply drop_S in Hw.
  destruct (String.eqb_spec w stop) as [->|Hne]; simpl in H.
  - simplify_eq. exists [], (drop (S (Z.to_nat i)) words).
    split; [done|]. split; [apply not_elem_of_nil | simpl; lia].
  - rewrite (proj2 (Z.ltb_lt _ _)) in H by lia. simpl in H.
    destruct (words_at words (i + 1)) as [w'| | | |]; try done. simpl in H.
    apply IH in H as (before & rest & Hdrop & Hnot & Hr); [|lia].
    exists (w :: before), rest. split.
    + rewrite Hw. simpl. f_equal. rewrite <- Hdrop. f_equal. lia.
    + split; [|simpl length; lia].
      apply not_elem_of_cons. split; [congruence | done].
Qed.

(** From here on the loops are only used through the lemmas above. *)
Arguments name_words_loop : simpl never.
Arguments double_space_loop : simpl never.
Arguments ingredient_list_loop : simpl never.
Arguments trade_trophies_loop : simpl never.
Arguments name_until_loop : simpl never.
Arguments add_ingredients_loop : simpl never.
Arguments trophies_to_trade_loop : simpl never.
Arguments join_words_loop : simpl never.
Arguments potion_name_loop : simpl never.
Arguments formula_loop : simpl never.
Arguments words_at : simpl never.
Arguments word_count : simpl never.
Arguments stoi : simpl never.

(** ** What a classification tells about the sentence *)

Lemma detect_sentence_type_loot words line :
  detect_sentence_type words line = Normal 0 → is_valid_loot words = Normal true.
Proof.
  unfold detect_sentence_type. intros H. crunch H; tidy; try done.
  all: congruence.
Qed.

Lemma detect_sentence_type_trade words line :
  detect_sentence_type words line = Normal 1 → is_valid_trade words = Normal true.
Proof.
  unfold detect_sentence_type. intros H. crunch H; tidy; try done.
  all: congruence.
Qed.

Lemma detect_sentence_type_recipe words line :
  detect_sentence_type words line = Normal 5 →
  ∃ name j, 0 ≤ j
    ∧ potion_name_loop (S (length words)) words "" 2 = Normal (name, j)
    ∧ is_valid_potion_recipe words (j + 3) = Normal true.
Proof.
  unfold detect_sentence_type. intros H. crunch H; tidy; try done.
  match goal with E : name_until_loop _ _ _ _ _ = Normal (?n, ?j) |- _ =>
    apply name_until_loop_potion in E as (E & Hj & _); exists n, j end.
  simpl in *. split; [lia|]. split; [done|]. congruence.
Qed.

Lemma is_valid_potion_recipe_shape words j :
  0 ≤ j → is_valid_potion_recipe words j = Normal true →
  loot_shape (drop (Z.to_nat j) words)
  ∧ Forall (λ p, p.2 ≤ INT_MAX) (groups (drop (Z.to_nat j) words)).
Proof.
  unfold is_valid_potion_recipe. intros Hj H. crunch H; tidy.
  replace (word_count words) with (word_count words - 0) in H by lia.
  apply (ingredient_list_loop_valid words 0 (S (length words)) j);
    auto using suffix_mod3.
Qed.

Lemma is_valid_loot_shape words :
  is_valid_loot words = Normal true →
  loot_shape (drop 2 words) ∧ Forall (λ p, p.2 ≤ INT_MAX) (groups (drop 2 words)).
Proof.
  unfold is_valid_loot. intros H. crunch H.
  apply orb_false_iff in E as [E1 E2]. tidy.
  apply (ingredient_list_loop_valid words 1 (S (length words)) 2); auto; [lia|].
  change (drop (Z.to_nat 2) words) with (drop 2 words).
  rewrite length_drop. unfold word_count in *.
  rewrite Z.rem_mod_nonneg in E1 by lia.
  replace (Z.of_nat (length words - 2)) with (Z.of_nat (length words) + (-1) * 3 + 1) by lia.
  rewrite <- Z.add_mod_idemp_l by lia. rewrite Z.mod_add by lia. by rewrite E1.
Qed.

Lemma shape_counts_ok tokens :
  loot_shape tokens → Forall (λ p, p.2 ≤ INT_MAX) (groups tokens) →
  Forall (λ p, count_ok p.2) (groups tokens).
Proof.
  intros Hs Hf. apply loot_shape_groups in Hs as [_ Hs].
  rewrite Forall_forall in *. intros p Hp. split; auto.
Qed.

Lemma handle_loot_valid words inv :
  is_valid_loot words = Normal true →
  handle_loot words inv =
    inv ← for_each (λ p, add_ingredient p.1 p.2) (groups (drop 2 words)) inv;
    Normal (inv, "Alchemy ingredients obtained" +:+ endl).
Proof.
  intros H. apply is_valid_loot_shape in H as [Hs Hf]. unfold handle_loot.
  rewrite (add_ingredients_loop_groups words _ Hs Hf _ 2); [done|lia|done|].
  rewrite length_drop. lia.
Qed.

Lemma handle_potion_recipe_valid words inv name j :
  0 ≤ j →
  potion_name_loop (S (length words)) words "" 2 = Normal (name, j) →
  is_valid_potion_recipe words (j + 3) = Normal true →
  handle_potion_recipe words inv =
    match potions inv !! name with
    | Some potion =>
        let inv1 := with_potions (<[name := (get_ingredients potion).1]> (potions inv)) inv in
        if bool_decide (0 < length (std_sort (potion_ingredients potion)))%nat
        then Normal (inv1, "Already known formula" +:+ endl)
        else Normal (with_potions
                       (<[name := {| potion_ingredients :=
                                       groups (drop (Z.to_nat (j + 3)) words) |}]>
                          (potions inv1)) inv1,
                     "New alchemy formula obtained: " +:+ name +:+ endl)
    | None =>
        Normal (with_potions
                  (<[name := {| potion_ingredients :=
                                  groups (drop (Z.to_nat (j + 3)) words) |}]>
                     (potions inv)) inv,
                "New alchemy formula obtained: " +:+ name +:+ endl)
    end.
Proof.
  intros Hj Hname Hvalid.
  apply is_valid_potion_recipe_shape in Hvalid as [Hs Hf]; [|lia].
  unfold handle_potion_recipe. rewrite Hname. simpl.
  pose proof (formula_loop_groups words _ Hs Hf (S (length words)) (j + 3) []) as Hloop.
  rewrite Hloop; [|lia|done|rewrite length_drop; lia]. simpl.
  destruct (potions inv !! name) as [potion|] eqn:Hp; simpl.
  - destruct (bool_decide _); [done|]. simpl.
    by rewrite lookup_insert_eq.
  - by rewrite Hp.
Qed.

(** ** Formulas *)

Lemma std_sort_perm l : std_sort l ≡ₚ l.
Proof. apply merge_sort_Permutation. Qed.

Lemma std_sort_nil l : std_sort l = [] ↔ l = [].
Proof.
  split; intros H.
  - apply Permutation_nil_r. rewrite <- H. symmetry. apply std_sort_perm.
  - by subst.
Qed.

Lemma formula_ok_sorted p : formula_ok p → formula_ok (get_ingredients p).1.
Proof.
  intros [Hne Hall]. split; simpl.
  - by rewrite std_sort_nil.
  - by rewrite std_sort_perm.
Qed.

(** ** The invariant is kept by every update *)

Lemma ledger_insert_ok m k v : ledger_ok m → count_ok v → ledger_ok (<[k := v]> m).
Proof. intros Hm Hv. by apply map_Forall_insert_2. Qed.

Lemma ok_with_ingredients inv m :
  Inventory_ok inv → ledger_ok m → Inventory_ok (with_ingredients m inv).
Proof. intros [] ?. by split. Qed.

Lemma ok_with_trophies inv m :
  Inventory_ok inv → ledger_ok m → Inventory_ok (with_trophies m inv).
Proof. intros [] ?. by split. Qed.

Lemma ok_with_potion_counts inv m :
  Inventory_ok inv → ledger_ok m → Inventory_ok (with_potion_counts m inv).
Proof. intros [] ?. by split. Qed.

Lemma ok_with_potions inv m :
  Inventory_ok inv → map_Forall (λ _ p, formula_ok p) m →
  Inventory_ok (with_potions m inv).
Proof. intros [] ?. by split. Qed.

Lemma ok_with_monsters inv m : Inventory_ok inv → Inventory_ok (with_monsters m inv).
Proof. intros []. by split. Qed.

Lemma ok_sorted_formula inv name potion :
  Inventory_ok inv → potions inv !! name = Some potion →
  Inventory_ok (with_potions (<[name := (get_ingredients potion).1]> (potions inv)) inv).
Proof.
  intros Hok Hp. apply ok_with_potions; [done|].
  apply map_Forall_insert_2; [|apply Hok].
  apply formula_ok_sorted. by apply (ok_potions inv Hok name).
Qed.

Lemma empty_Inventory_ok : Inventory_ok empty_Inventory.
Proof. split; apply map_Forall_empty. Qed.

(** ** Loot *)

Lemma handle_loot_ok words inv inv' out :
  is_valid_loot words = Normal true → Inventory_ok inv →
  handle_loot words inv = Normal (inv', out) → Inventory_ok inv'.
Proof.
  intros Hvalid Hok H. rewrite (handle_loot_valid _ _ Hvalid) in H.
  apply is_valid_loot_shape in Hvalid as [Hs Hf].
  unbind H. crunch H. simplify_eq.
  apply for_each_add_ingredient in E as (m & -> & _ & Hm).
  apply ok_with_ingredients; [done|].
  apply Hm; [apply Hok | by apply shape_counts_ok].
Qed.

(** ** Trade *)

Lemma collect_counts_ok requests :
  Forall (λ p, count_ok p.2) requests →
  Forall (λ p, count_ok p.2) (map_items (collect requests ∅)).
Proof.
  intros Hall. apply Forall_forall. intros [n c] Hin.
  apply elem_of_map_items in Hin. rewrite collect_last_request in Hin.
  apply last_request_elem in Hin.
  by apply (proj1 (Forall_forall _ _) Hall (n, c)).
Qed.

Lemma handle_trade_ok words inv inv' out :
  is_valid_trade words = Normal true → Inventory_ok inv →
  handle_trade words inv = Normal (inv', out) → Inventory_ok inv'.
Proof.
  intros Hvalid Hok H. rewrite (handle_trade_valid _ _ Hvalid) in H.
  apply is_valid_trade_shape in Hvalid as (Hshape & Hloot & Hfits).
  apply trophies_shape_requests in Hshape as [_ Hreq].
  destruct (existsb _ _); [by simplify_eq|].
  rewrite for_each_decrease_trophy in H;
    [|apply Hok | by apply collect_counts_ok].
  simpl in H. unbind H. crunch H. simplify_eq.
  apply for_each_add_ingredient in E as (m & -> & _ & Hm).
  apply ok_with_ingredients.
  - apply ok_with_trophies; [done|].
    apply deduct_all_ok; [apply Hok | by apply collect_counts_ok].
  - apply Hm; [apply Hok | by apply shape_counts_ok].
Qed.

(** ** Brew *)

Lemma between_to_end words first :
  0 ≤ first → between words first (word_count words - 1) = drop (Z.to_nat first) words.
Proof.
  intros Hf. unfold between. apply take_ge. rewrite length_drop.
  unfold word_count. lia.
Qed.

Lemma handle_brew_spec words inv :
  let name := name_of (drop 2 words) in
  handle_brew words inv =
    match potions inv !! name with
    | None => Normal (inv, "No formula for " +:+ name +:+ endl)
    | Some potion =>
        let needed := std_sort (potion_ingredients potion) in
        let inv1 :=
          with_potions (<[name := {| potion_ingredients := needed |}]> (potions inv)) inv in
        if not_enough (ingredients inv) needed
        then Normal (inv1, "Not enough ingredients" +:+ endl)
        else
          inv2 ← for_each (λ pair, use_ingredient pair.1 pair.2) needed inv1;
          brewed ← int_add (default 0 (potion_counts inv2 !! name)) 1;
          Normal (with_potion_counts (<[name := brewed]> (potion_counts inv2)) inv2,
                  "Alchemy item created: " +:+ name +:+ endl)
    end.
Proof.
  intros name. unfold handle_brew.
  rewrite join_words_spec by (unfold word_count; lia).
  rewrite between_to_end by lia. change (drop (Z.to_nat 2) words) with (drop 2 words).
  fold name. simpl. by destruct (potions inv !! name).
Qed.

Lemma handle_brew_ok words inv inv' out :
  Inventory_ok inv → handle_brew words inv = Normal (inv', out) → Inventory_ok inv'.
Proof.
  intros Hok H. rewrite handle_brew_spec in H.
  destruct (potions inv !! _) as [potion|] eqn:Hp; [|by simplify_eq].
  pose proof (ok_sorted_formula inv _ potion Hok Hp) as Hok1.
  pose proof (formula_ok_sorted potion (ok_potions inv Hok _ _ Hp)) as [_ Hneeded].
  simpl in *. destruct (not_enough _ _); [by simplify_eq|].
  rewrite for_each_use_ingredient in H; [|apply Hok|done].
  simpl in H. unbind H. apply int_add_Normal in E as [-> Hr]. simplify_eq.
  apply ok_with_potion_counts.
  - apply ok_with_ingredients; [done|]. apply deduct_all_ok; [apply Hok|done].
  - simpl. apply ledger_insert_ok; [apply Hok|].
    destruct (potion_counts inv !! _) as [have|] eqn:Hhave; simpl in *.
    + apply (ok_potion_counts inv Hok) in Hhave. unfold count_ok in *. lia.
    + unfold count_ok, INT_MAX. lia.
Qed.

(** ** Knowledge *)

Lemma handle_sign_knowledge_ok words inv inv' out :
  Inventory_ok inv → handle_sign_knowledge words inv = Normal (inv', out) →
  Inventory_ok inv'.
Proof.
  unfold handle_sign_knowledge. intros Hok H. crunch H; simplify_eq;
    (done || by apply ok_with_monsters).
Qed.

Lemma handle_potion_knowledge_ok words inv inv' out :
  Inventory_ok inv → handle_potion_knowledge words inv = Normal (inv', out) →
  Inventory_ok inv'.
Proof.
  unfold handle_potion_knowledge. intros Hok H. crunch H; simplify_eq;
    (done || by apply ok_with_monsters).
Qed.

(** ** Recipes *)

Lemma handle_potion_recipe_ok words line inv inv' out :
  detect_sentence_type words line = Normal 5 → Inventory_ok inv →
  handle_potion_recipe words inv = Normal (inv', out) → Inventory_ok inv'.
Proof.
  intros Hvalid Hok H.
  apply detect_sentence_type_recipe in Hvalid as (name & j & Hj & Hname & Hvalid).
  rewrite (handle_potion_recipe_valid _ _ name j Hj Hname Hvalid) in H.
  apply is_valid_potion_recipe_shape in Hvalid as [Hs Hf]; [|lia].
  assert (formula_ok {| potion_ingredients := groups (drop (Z.to_nat (j + 3)) words) |})
    as Hnew.
  { split; simpl; [by apply loot_shape_groups | by apply shape_counts_ok]. }
  destruct (potions inv !! name) as [potion|] eqn:Hp.
  - pose proof (ok_sorted_formula inv _ potion Hok Hp) as Hok1. simpl in H.
    destruct (bool_decide _); simplify_eq; [done|].
    apply ok_with_potions; [done|]. apply map_Forall_insert_2; [done|apply Hok1].
  - simplify_eq. apply ok_with_potions; [done|].
    apply map_Forall_insert_2; [done|apply Hok].
Qed.

(** ** Encounters *)

Lemma use_one_potion_each_spec name inv :
  ledger_ok (potion_counts inv) →
  use_one_potion_each name inv =
    let '(inv1, monster) := monsters_at name inv in
    Normal (with_potion_counts
              (deduct_all (potion_counts inv)
                 ((λ p, (p, 1)) <$> set_items (get_potions monster))) inv1).
Proof.
  intros Hm. unfold use_one_potion_each, monsters_at.
  destruct (monsters inv !! name); by rewrite for_each_use_one_potion.
Qed.

Lemma ones_ok (l : list string) : Forall (λ p : string * Z, count_ok p.2) ((λ p, (p, 1)) <$> l).
Proof.
  apply Forall_fmap, Forall_forall. intros p _. unfold count_ok, INT_MAX. simpl. lia.
Qed.

Lemma defeat_ok name inv inv' out :
  Inventory_ok inv → defeat name inv = Normal (inv', out) → Inventory_ok inv'.
Proof.
  unfold defeat. intros Hok H.
  destruct (trophies inv !! name) as [have|] eqn:Hhave.
  - unbind H. apply int_add_Normal in E as [-> Hr]. simplify_eq.
    apply ok_with_trophies; [done|]. apply ledger_insert_ok; [apply Hok|].
    apply (ok_trophies inv Hok) in Hhave. unfold count_ok in *. lia.
  - simplify_eq. apply ok_with_trophies; [done|].
    apply ledger_insert_ok; [apply Hok|]. unfold count_ok, INT_MAX. lia.
Qed.

Lemma use_one_potion_each_ok name inv inv' :
  Inventory_ok inv → use_one_potion_each name inv = Normal inv' → Inventory_ok inv'.
Proof.
  intros Hok H. rewrite use_one_potion_each_spec in H by apply Hok.
  unfold monsters_at in H.
  destruct (monsters inv !! name); simplify_eq;
    (apply ok_with_potion_counts;
     [try apply ok_with_monsters; done
     | apply deduct_all_ok; [apply Hok | apply ones_ok]]).
Qed.

Lemma handle_encounter_ok words inv inv' out :
  Inventory_ok inv → handle_encounter words inv = Normal (inv', out) →
  Inventory_ok inv'.
Proof.
  unfold handle_encounter. intros Hok H. crunch H; simplify_eq; try done.
  all: match goal with
       | E : use_one_potion_each _ _ = Normal _ |- _ =>
           apply use_one_potion_each_ok in E; [|done]
       end.
  all: by eapply defeat_ok.
Qed.

(** ** Questions *)

Lemma print_potion_formula_ok words inv inv' out :
  Inventory_ok inv → print_potion_formula words inv = Normal (inv', out) →
  Inventory_ok inv'.
Proof.
  unfold print_potion_formula. intros Hok H. unbind H.
  destruct (potions inv !! v) as [potion|] eqn:Hp; [|by simplify_eq].
  pose proof (ok_sorted_formula inv _ potion Hok Hp) as Hok1.
  simpl in *. destruct (std_sort _); by simplify_eq.
Qed.

Lemma execute_question_ok words line inv inv' out :
  Inventory_ok inv → execute_question words line inv = Normal (inv', out) →
  Inventory_ok inv'.
Proof.
  unfold execute_question. intros Hok H. crunch H; simplify_eq; try done.
  by eapply print_potion_formula_ok.
Qed.

Lemma execute_sentence_ok words line inv inv' out :
  Inventory_ok inv → execute_sentence words line inv = Normal (inv', out) →
  Inventory_ok inv'.
Proof.
  unfold execute_sentence. intros Hok H. unbind H.
  crunch H; tidy; subst; simplify_eq; try done.
  - eapply handle_loot_ok; eauto using detect_sentence_type_loot.
  - eapply handle_trade_ok; eauto using detect_sentence_type_trade.
  - by eapply handle_brew_ok.
  - by eapply handle_sign_knowledge_ok.
  - by eapply handle_potion_knowledge_ok.
  - by eapply handle_potion_recipe_ok.
  - by eapply handle_encounter_ok.
Qed.

Lemma execute_line_ok line inv inv' out :
  Inventory_ok inv → execute_line line inv = Normal (inv', out) →
  Inventory_ok inv'.
Proof.
  unfold execute_line. intros Hok H. unbind H.
  crunch H; simplify_eq; try done.
  - by eapply execute_question_ok.
  - by eapply execute_sentence_ok.
Qed.

Lemma reachable_ok inv : reachable inv → Inventory_ok inv.
Proof.
  induction 1 as [|inv line inv' out _ IH Hstep];
    [apply empty_Inventory_ok | by eapply execute_line_ok].
Qed.

(** ** Dispatch in [execute_line] *)

Lemma execute_line_sentence line inv :
  detect_type (split_line line) = Normal 0 →
  execute_line line inv = execute_sentence (split_line line) line inv.
Proof. intros H. unfold execute_line. by rewrite H. Qed.

Lemma execute_line_question line inv :
  detect_type (split_line line) = Normal 1 →
  execute_line line inv = execute_question (split_line line) line inv.
Proof. intros H. unfold execute_line. by rewrite H. Qed.

Lemma run_reachable lines : ∀ inv inv' outs,
  reachable inv → run lines inv = Normal (inv', outs) → reachable inv'.
Proof.
  induction lines as [|line lines IH]; intros inv inv' outs Hr H; simpl in H.
  - by simplify_eq.
  - unbind H. destruct v as [inv1 out]. unbind H. destruct v as [inv2 outs'].
    simplify_eq. eapply IH; [|done]. by eapply reachable_step.
Qed.

Lemma state_after_reachable lines : reachable (state_after lines).
Proof.
  unfold state_after.
  destruct (run lines empty_Inventory) as [[inv outs]| | | |] eqn:H;
    try apply reachable_start.
  eapply run_reachable; [apply reachable_start | done].
Qed.


(** C10: in every state the program can reach, every potion of the formula
    book has a non-empty ingredient list, so that the list which the recipe
    handler and the formula question inspect after sorting is never empty. *)
Theorem formulas_never_empty (inv : Inventory) :
  reachable inv →
  ∀ name potion, potions inv !! name = Some potion →
    potion_ingredients potion ≠ []
    ∧ (get_ingredients potion).2 ≠ []
    ∧ bool_decide (0 < length (get_ingredients potion).2)%nat = true.
Proof.
  intros Hr name potion Hp. apply reachable_ok in Hr.
  destruct (ok_potions inv Hr name potion Hp) as [Hne _].
  assert (std_sort (potion_ingredients potion) ≠ []) as Hs by by rewrite std_sort_nil.
  split; [done|]. split; [done|]. simpl. apply bool_decide_eq_true.
  destruct (std_sort _); simpl; [done | lia].
Qed.

(** ** Every line is executed with fuel to spare *)

Lemma fueled_double_space_loop line i last :
  double_space_loop (S (S (String.length line))) line i last ≠ OutOfFuel.
Proof. apply fueled_double_space_loop_from. unfold str_length. lia. Qed.

Ltac fueled_loop :=
  first [ apply fueled_double_space_loop
        | first [ apply fueled_name_words_loop_from
                | apply fueled_ingredient_list_loop_from
                | apply fueled_trade_trophies_loop_from
                | apply fueled_name_until_loop_from
                | apply fueled_add_ingredients_loop_from
                | apply fueled_formula_loop_from
                | apply fueled_trophies_to_trade_loop_from
                | apply fueled_join_words_loop_from
                | apply fueled_potion_name_loop_from ]; apply words_left_start ].

Ltac fueled_loops := repeat first [fueled_loop | fueled_step].

Lemma fueled_is_valid_potion_name words line first last :
  is_valid_potion_name words line first last ≠ OutOfFuel.
Proof. unfold is_valid_potion_name. fueled_loops. Qed.

Lemma fueled_detect_type words : detect_type words ≠ OutOfFuel.
Proof. unfold detect_type. fueled_loops. Qed.

Lemma fueled_is_valid_loot words : is_valid_loot words ≠ OutOfFuel.
Proof. unfold is_valid_loot. fueled_loops. Qed.

Lemma fueled_is_valid_trade words : is_valid_trade words ≠ OutOfFuel.
Proof. unfold is_valid_trade. fueled_loops. Qed.

Lemma fueled_is_valid_sign_knowledge words : is_valid_sign_knowledge words ≠ OutOfFuel.
Proof. unfold is_valid_sign_knowledge. fueled_loops. Qed.

Lemma fueled_is_valid_potion_knowledge words i :
  is_valid_potion_knowledge words i ≠ OutOfFuel.
Proof. unfold is_valid_potion_knowledge. fueled_loops. Qed.

Lemma fueled_is_valid_potion_recipe words i :
  is_valid_potion_recipe words i ≠ OutOfFuel.
Proof. unfold is_valid_potion_recipe. fueled_loops. Qed.

Lemma fueled_is_valid_encounter words : is_valid_encounter words ≠ OutOfFuel.
Proof. unfold is_valid_encounter. fueled_loops. Qed.

Ltac fueled_calls :=
  repeat first
    [ apply fueled_is_valid_potion_name | apply fueled_is_valid_loot
    | apply fueled_is_valid_trade | apply fueled_is_valid_sign_knowledge
    | apply fueled_is_valid_potion_knowledge | apply fueled_is_valid_potion_recipe
    | apply fueled_is_valid_encounter | apply fueled_detect_type
    | fueled_loop | fueled_step ].

Lemma fueled_detect_sentence_type words line :
  detect_sentence_type words line ≠ OutOfFuel.
Proof. unfold detect_sentence_type. fueled_calls. Qed.

Lemma fueled_question_ingredient words rest :
  rest ≠ OutOfFuel → question_ingredient words rest ≠ OutOfFuel.
Proof. intros Hrest. unfold question_ingredient. fueled_calls. Qed.

Lemma fueled_question_potion words line rest :
  rest ≠ OutOfFuel → question_potion words line rest ≠ OutOfFuel.
Proof. intros Hrest. unfold question_potion. fueled_calls. Qed.

Lemma fueled_question_trophy words rest :
  rest ≠ OutOfFuel → question_trophy words rest ≠ OutOfFuel.
Proof. intros Hrest. unfold question_trophy. fueled_calls. Qed.

Lemma fueled_question_monster words rest :
  rest ≠ OutOfFuel → question_monster words rest ≠ OutOfFuel.
Proof. intros Hrest. unfold question_monster. fueled_calls. Qed.

Lemma fueled_question_formula words line rest :
  rest ≠ OutOfFuel → question_formula words line rest ≠ OutOfFuel.
Proof. intros Hrest. unfold question_formula. fueled_calls. Qed.

Lemma fueled_detect_question_type words line :
  detect_question_type words line ≠ OutOfFuel.
Proof.
  unfold detect_question_type.
  apply fueled_question_ingredient, fueled_question_potion, fueled_question_trophy,
    fueled_question_monster, fueled_question_formula. done.
Qed.

Lemma fueled_handle_loot words inv : handle_loot words inv ≠ OutOfFuel.
Proof. unfold handle_loot. fueled_calls. Qed.

Lemma fueled_decrease_trophy name count inv : decrease_trophy name count inv ≠ OutOfFuel.
Proof. unfold decrease_trophy. fueled. Qed.

Lemma fueled_use_ingredient name count inv : use_ingredient name count inv ≠ OutOfFuel.
Proof. unfold use_ingredient. fueled. Qed.

Lemma fueled_use_one_potion potion inv : use_one_potion potion inv ≠ OutOfFuel.
Proof. unfold use_one_potion. fueled. Qed.

Lemma fueled_handle_trade words inv : handle_trade words inv ≠ OutOfFuel.
Proof.
  unfold handle_trade. fueled_calls.
  apply fueled_for_each. intros. apply fueled_decrease_trophy.
Qed.

Lemma fueled_join_words words first last : join_words words first last ≠ OutOfFuel.
Proof. unfold join_words. fueled_calls. Qed.

Lemma fueled_handle_brew words inv : handle_brew words inv ≠ OutOfFuel.
Proof.
  unfold handle_brew. apply fueled_bind; [apply fueled_join_words|].
  intros name _. fueled.
  apply fueled_for_each. intros. apply fueled_use_ingredient.
Qed.

Lemma fueled_handle_sign_knowledge words inv :
  handle_sign_knowledge words inv ≠ OutOfFuel.
Proof. unfold handle_sign_knowledge. fueled. Qed.

Lemma fueled_handle_potion_knowledge words inv :
  handle_potion_knowledge words inv ≠ OutOfFuel.
Proof. unfold handle_potion_knowledge. fueled_calls. Qed.

Lemma fueled_handle_potion_recipe words inv :
  handle_potion_recipe words inv ≠ OutOfFuel.
Proof. unfold handle_potion_recipe. fueled_calls. Qed.

Lemma fueled_use_one_potion_each monster inv :
  use_one_potion_each monster inv ≠ OutOfFuel.
Proof.
  unfold use_one_potion_each. destruct (monsters_at monster inv).
  apply fueled_for_each. intros. apply fueled_use_one_potion.
Qed.

Lemma fueled_defeat monster inv : defeat monster inv ≠ OutOfFuel.
Proof. unfold defeat. fueled. Qed.

Lemma fueled_handle_encounter words inv : handle_encounter words inv ≠ OutOfFuel.
Proof.
  unfold handle_encounter.
  fueled; first [apply fueled_use_one_potion_each | apply fueled_defeat].
Qed.

Lemma fueled_print_potion_formula words inv :
  print_potion_formula words inv ≠ OutOfFuel.
Proof.
  unfold print_potion_formula. apply fueled_bind; [apply fueled_join_words|].
  intros name _. repeat case_match; done.
Qed.

Lemma fueled_execute_sentence words line inv :
  execute_sentence words line inv ≠ OutOfFuel.
Proof.
  unfold execute_sentence.
  apply fueled_bind; [apply fueled_detect_sentence_type|]. intros type _.
  repeat case_match; try done;
    first [ apply fueled_handle_loot | apply fueled_handle_trade
          | apply fueled_handle_brew | apply fueled_handle_sign_knowledge
          | apply fueled_handle_potion_knowledge | apply fueled_handle_potion_recipe
          | apply fueled_handle_encounter ].
Qed.

Lemma fueled_execute_question words line inv :
  execute_question words line inv ≠ OutOfFuel.
Proof.
  unfold execute_question, get_potion_count.
  apply fueled_bind; [apply fueled_detect_question_type|]. intros type _.
  repeat case_match; try done;
    first [ apply fueled_print_potion_formula
          | apply fueled_bind; [first [apply fueled_words_at
                                      | apply fueled_bind; [apply fueled_join_words|done]]
                               |done] ].
Qed.

(** The fuel of the loops is a device of the model, not a limit of the
    program: no line runs out of it. *)
Lemma execute_line_fueled line inv : execute_line line inv ≠ OutOfFuel.
Proof.
  unfold execute_line.
  apply fueled_bind; [apply fueled_detect_type|]. intros type _.
  repeat case_match; try done;
    [apply fueled_execute_question | apply fueled_execute_sentence].
Qed.

Lemma run_fueled lines : ∀ inv, run lines inv ≠ OutOfFuel.
Proof.
  induction lines as [|line lines IH]; intros inv; simpl; [done|].
  apply fueled_bind; [apply execute_line_fueled|]. intros [inv' out] _.
  apply fueled_bind; [apply IH|]. by intros [].
Qed.

(** ** The bestiary only grows *)

Lemma bestiary_le_refl inv : bestiary_le inv inv.
Proof. intros monster m Hm. by exists m. Qed.

Lemma bestiary_le_same inv inv' : monsters inv' = monsters inv → bestiary_le inv inv'.
Proof. intros H monster m Hm. exists m. by rewrite H. Qed.

Lemma bestiary_le_trans inv1 inv2 inv3 :
  bestiary_le inv1 inv2 → bestiary_le inv2 inv3 → bestiary_le inv1 inv3.
Proof.
  intros H12 H23 monster m Hm.
  destruct (H12 monster m Hm) as (m2 & Hm2 & Hs2 & Hp2).
  destruct (H23 monster m2 Hm2) as (m3 & Hm3 & Hs3 & Hp3).
  exists m3. split; [done|]. split; set_solver.
Qed.

Lemma bestiary_le_insert inv monster m m' :
  monsters inv !! monster = Some m →
  signs_against m ⊆ signs_against m' → potions_against m ⊆ potions_against m' →
  bestiary_le inv (with_monsters (<[monster := m']> (monsters inv)) inv).
Proof.
  intros Hm Hs Hp monster0 m0 Hm0. simpl.
  destruct (decide (monster0 = monster)) as [->|Hne].
  - rewrite lookup_insert_eq. exists m'. by simplify_eq.
  - rewrite lookup_insert_ne by done. by exists m0.
Qed.

Lemma bestiary_le_new inv monster m' :
  monsters inv !! monster = None →
  bestiary_le inv (with_monsters (<[monster := m']> (monsters inv)) inv).
Proof.
  intros Hm monster0 m0 Hm0. simpl.
  destruct (decide (monster0 = monster)) as [->|Hne]; [congruence|].
  rewrite lookup_insert_ne by done. by exists m0.
Qed.

Lemma handle_sign_knowledge_le words inv inv' out :
  handle_sign_knowledge words inv = Normal (inv', out) → bestiary_le inv inv'.
Proof.
  unfold handle_sign_knowledge. intros H. crunch H; simplify_eq.
  - eapply bestiary_le_insert; [done| |done]. simpl. set_solver.
  - apply bestiary_le_refl.
  - by apply bestiary_le_new.
Qed.

Lemma handle_potion_knowledge_le words inv inv' out :
  handle_potion_knowledge words inv = Normal (inv', out) → bestiary_le inv inv'.
Proof.
  unfold handle_potion_knowledge. intros H. crunch H; simplify_eq.
  - eapply bestiary_le_insert; [done|done|]. simpl. set_solver.
  - apply bestiary_le_refl.
  - by apply bestiary_le_new.
Qed.

Lemma handle_encounter_le words inv inv' out :
  Inventory_ok inv →
  handle_encounter words inv = Normal (inv', out) → bestiary_le inv inv'.
Proof.
  unfold handle_encounter, defeat. intros Hok H.
  crunch H; simplify_eq; try apply bestiary_le_refl.
  all: match goal with
       | E : use_one_potion_each _ _ = Normal _ |- _ =>
           rewrite use_one_potion_each_spec in E by apply Hok;
           unfold monsters_at in E
       end.
  all: match goal with
       | E : monsters _ !! _ = Some _, E' : context [monsters _ !! _] |- _ =>
           rewrite E in E'
       end.
  all: simplify_eq; by apply bestiary_le_same.
Qed.

(** The classification found by [execute_sentence], under a fixed name. *)
Ltac name_classification Hc :=
  match goal with
  | E : detect_sentence_type _ _ = Normal _ |- _ => rename E into Hc
  end.

Ltac frame_add :=
  match goal with
  | E : for_each (λ p, add_ingredient p.1 p.2) _ _ = Normal _ |- _ =>
      apply for_each_add_ingredient in E as (? & -> & _)
  end.

Lemma execute_sentence_le words line inv inv' out :
  Inventory_ok inv →
  execute_sentence words line inv = Normal (inv', out) → bestiary_le inv inv'.
Proof.
  unfold execute_sentence. intros Hok H. unbind H.
  crunch H; tidy; subst; simplify_eq; try apply bestiary_le_refl;
    name_classification Hc.
  - apply detect_sentence_type_loot in Hc.
    rewrite (handle_loot_valid _ _ Hc) in H. unbind H. simplify_eq.
    frame_add. by apply bestiary_le_same.
  - apply detect_sentence_type_trade in Hc.
    rewrite (handle_trade_valid _ _ Hc) in H.
    apply is_valid_trade_shape in Hc as (Hshape & _).
    apply trophies_shape_requests in Hshape as [_ Hreq].
    destruct (existsb _ _); simplify_eq; [apply bestiary_le_refl|].
    rewrite for_each_decrease_trophy in H;
      [|apply Hok | by apply collect_counts_ok].
    simpl in H. unbind H. simplify_eq.
    frame_add. by apply bestiary_le_same.
  - rewrite handle_brew_spec in H.
    destruct (potions inv !! _) as [potion|] eqn:Hp;
      simplify_eq; [|apply bestiary_le_refl].
    pose proof (formula_ok_sorted potion (ok_potions inv Hok _ _ Hp)) as [_ Hneeded].
    simpl in *. destruct (not_enough _ _); simplify_eq; [by apply bestiary_le_same|].
    rewrite for_each_use_ingredient in H; [|apply Hok|done].
    simpl in H. unbind H. simplify_eq. by apply bestiary_le_same.
  - by eapply handle_sign_knowledge_le.
  - by eapply handle_potion_knowledge_le.
  - apply detect_sentence_type_recipe in Hc as (name & j & Hj & Hname & Hvalid).
    rewrite (handle_potion_recipe_valid _ _ name j Hj Hname Hvalid) in H.
    destruct (potions inv !! name); simpl in H;
      repeat case_match; simplify_eq; by apply bestiary_le_same.
  - by eapply handle_encounter_le.
Qed.

Lemma execute_question_le words line inv inv' out :
  execute_question words line inv = Normal (inv', out) → bestiary_le inv inv'.
Proof.
  unfold execute_question, print_potion_formula. intros H.
  crunch H; simplify_eq; try apply bestiary_le_refl.
  all: repeat case_match; simplify_eq; by apply bestiary_le_same.
Qed.

Lemma execute_line_le line inv inv' out :
  Inventory_ok inv →
  execute_line line inv = Normal (inv', out) → bestiary_le inv inv'.
Proof.
  unfold execute_line. intros Hok H. unbind H.
  crunch H; simplify_eq; try apply bestiary_le_refl.
  - by eapply execute_question_le.
  - by eapply execute_sentence_le.
Qed.

Lemma run_le lines : ∀ inv inv' outs,
  Inventory_ok inv → run lines inv = Normal (inv', outs) → bestiary_le inv inv'.
Proof.
  induction lines as [|line lines IH]; intros inv inv' outs Hok H; simpl in H.
  - simplify_eq. apply bestiary_le_refl.
  - unbind H. destruct v as [inv1 out]. unbind H. destruct v as [inv2 outs'].
    simplify_eq. eapply bestiary_le_trans.
    + by eapply execute_line_le.
    + eapply IH; [|done]. by eapply execute_line_ok.
Qed.

(** C9: from a reachable state on, whatever lines are executed, a sign or a
    potion recorded as effective against a monster stays recorded; learning
    again a sign or a potion that is already recorded against the monster
    leaves the state as it is and answers "Already known effectiveness". *)
Theorem bestiary_monotone :
  (∀ lines inv inv' outs monster,
     reachable inv → run lines inv = Normal (inv', outs) →
     (∀ sign, knows_sign inv monster sign → knows_sign inv' monster sign)
     ∧ (∀ potion, knows_potion inv monster potion → knows_potion inv' monster potion))
  ∧ (∀ line inv sign monster,
       detect_type (split_line line) = Normal 0 →
       detect_sentence_type (split_line line) line = Normal 3 →
       words_at (split_line line) 2 = Normal sign →
       words_at (split_line line) 7 = Normal monster →
       knows_sign inv monster sign →
       execute_line line inv = Normal (inv, "Already known effectiveness" +:+ endl))
  ∧ (∀ line inv before rest monster,
       detect_type (split_line line) = Normal 0 →
       detect_sentence_type (split_line line) line = Normal 4 →
       split_line line = "Geralt" :: "learns" :: before ++ "potion" :: rest →
       "potion" ∉ before →
       words_at (split_line line) (2 + Z.of_nat (length before) + 4) = Normal monster →
       knows_potion inv monster (name_of before) →
       execute_line line inv = Normal (inv, "Already known effectiveness" +:+ endl)).
Proof.
  split; [|split].
  - intros lines inv inv' outs monster Hr Hrun.
    pose proof (run_le lines inv inv' outs (reachable_ok inv Hr) Hrun) as Hle.
    split; intros x (m & Hm & Hx); destruct (Hle monster m Hm) as (m' & Hm' & Hs & Hp);
      exists m'; (split; [done | set_solver]).
  - intros line inv sign monster Ht Hc H2 H7 (m & Hm & Hsign).
    rewrite execute_line_sentence by done.
    unfold execute_sentence. rewrite Hc. simpl.
    unfold handle_sign_knowledge. rewrite H2, H7. simpl. rewrite Hm.
    unfold get_signs. by rewrite bool_decide_eq_false_2 by (intros Hn; by apply Hn).
  - intros line inv before rest monster Ht Hc Hsplit Hnot Hmon (m & Hm & Hpotion).
    rewrite execute_line_sentence by done.
    unfold execute_sentence. rewrite Hc. simpl.
    unfold handle_potion_knowledge.
    rewrite (potion_name_loop_spec (split_line line) before rest _ "" 2 Hnot);
      [|lia|by rewrite Hsplit|rewrite Hsplit; simpl; rewrite length_app; lia].
    simpl. rewrite append_nil_l, Hmon. simpl. rewrite Hm.
    unfold get_potions. by rewrite bool_decide_eq_false_2 by (intros Hn; by apply Hn).
Qed.

(** ** The order of a formula *)

Lemma ltb_false_le a b : String.ltb b a = false ↔ String.le a b.
Proof.
  unfold String.ltb, String.le, String.leb. rewrite (String.compare_antisym a b).
  destruct (String.compare b a); simpl; split; (done || intros []).
Qed.

Lemma ingredient_le_order a b : ingredient_le a b ↔ formula_order a b.
Proof.
  unfold ingredient_le, ingredient_before, formula_order.
  destruct (Z.eqb_spec b.2 a.2) as [Heq|Hne].
  - rewrite ltb_false_le. split; [intros H; right; by split | intros [?|[_ ?]]; [lia|done]].
  - destruct (Z.gtb_spec b.2 a.2); split; try done.
    + intros [?|[? _]]; lia.
    + intros _. left. lia.
Qed.

Global Instance formula_order_total : Total formula_order.
Proof.
  intros a b. unfold formula_order.
  destruct (Z.lt_trichotomy a.2 b.2) as [?|[Heq|?]]; [by right; left| |by left; left].
  destruct (total String.le a.1 b.1); [left | right]; right; split; (done || lia).
Qed.

Global Instance formula_order_trans : Transitive formula_order.
Proof.
  intros a b c [?|[? ?]] [?|[? ?]]; unfold formula_order; try (left; lia).
  right. split; [lia | by etrans].
Qed.

Global Instance formula_order_antisym : AntiSymm (=) formula_order.
Proof.
  intros [n1 c1] [n2 c2] [?|[? H1]] [?|[? H2]]; simpl in *; try lia.
  f_equal; [|done]. by apply (anti_symm String.le).
Qed.

Global Instance ingredient_le_total : Total ingredient_le.
Proof. intros a b. rewrite !ingredient_le_order. apply total, _. Qed.

Global Instance ingredient_le_trans : Transitive ingredient_le.
Proof. intros a b c. rewrite !ingredient_le_order. apply transitivity. Qed.

Lemma StronglySorted_le_order l :
  StronglySorted ingredient_le l ↔ StronglySorted formula_order l.
Proof.
  induction l as [|a l IH]; [split; constructor|].
  split; inversion 1 as [|? ? Hs Hall]; subst; constructor;
    try (by apply IH); eapply Forall_impl; try done;
    intros b; by rewrite ingredient_le_order.
Qed.

Lemma std_sort_sorted l : StronglySorted formula_order (std_sort l).
Proof.
  apply StronglySorted_le_order. apply StronglySorted_merge_sort; apply _.
Qed.

(** [std::sort] may use any algorithm: the sorted permutation is unique. *)
Lemma sort_unique l l' :
  l' ≡ₚ l → StronglySorted formula_order l' → l' = std_sort l.
Proof.
  intros Hp Hs. apply (StronglySorted_unique formula_order); [done| |].
  - apply std_sort_sorted.
  - by rewrite std_sort_perm.
Qed.


(** ** Encounters *)







(** ** Adding without overflow *)

Lemma total_required_nonneg l k :
  Forall (λ p : string * Z, count_ok p.2) l → 0 ≤ total_required l k.
Proof.
  induction 1 as [|[n c] l Hc _ IH]; simpl; [done|].
  unfold count_ok in Hc. simpl in Hc. destruct (String.eqb n k); lia.
Qed.

Lemma for_each_add_ingredient_total l : ∀ inv,
  ledger_ok (ingredients inv) → Forall (λ p, count_ok p.2) l →
  (∀ k, default 0 (ingredients inv !! k) + total_required l k ≤ INT_MAX) →
  ∃ inv', for_each (λ p, add_ingredient p.1 p.2) l inv = Normal inv'.
Proof.
  induction l as [|[n c] l IH]; intros inv Hok Hl Hmax; simpl; [eauto|].
  apply Forall_cons in Hl as [Hc Hl]. simpl in Hc.
  pose proof (total_required_nonneg l n Hl) as Hnn.
  pose proof (Hmax n) as Hn. simpl in Hn. rewrite String.eqb_refl in Hn.
  assert (add_ingredient n c inv
          = Normal (with_ingredients
                      (<[n := default 0 (ingredients inv !! n) + c]> (ingredients inv)) inv))
    as Hadd.
  { unfold add_ingredient.
    destruct (ingredients inv !! n) as [have|] eqn:Hhave; simpl in *; [|done].
    apply Hok in Hhave. unfold count_ok in *.
    rewrite int_add_in by (unfold INT_MIN; lia). done. }
  rewrite Hadd. simpl. apply IH; [|done|].
  - simpl. apply ledger_insert_ok; [done|].
    destruct (ingredients inv !! n) as [have|] eqn:Hhave; simpl in *.
    + apply Hok in Hhave. unfold count_ok in *. lia.
    + unfold count_ok in *. lia.
  - intros k. simpl. specialize (Hmax k). simpl in Hmax.
    destruct (decide (k = n)) as [->|Hne].
    + rewrite lookup_insert_eq. simpl. rewrite String.eqb_refl in Hmax. lia.
    + rewrite lookup_insert_ne by done.
      by rewrite (proj2 (String.eqb_neq n k)) in Hmax by done.
Qed.





(** ** Where the program leaves the specification *)

(** C3: a line that breaks the grammar (its second count is zero) but whose
    first count does not fit an [int] is not answered with "INVALID": the
    conversion in [is_valid_loot] throws [std::out_of_range], which nothing
    catches. *)
Theorem loot_count_out_of_range (inv : Inventory) :
  let line := "Geralt loots 99999999999 Rebis, 0 Vitriol" in
  ¬ loot_shape (drop 2 (split_line line))
  ∧ is_integer "99999999999" = true
  ∧ execute_line line inv = Throw out_of_range.
Proof.
  intros line. split; [|split; reflexivity].
  intros H. vm_compute in H.
  inversion H as [|? ? ? _ _ Hrest]; subst.
  inversion Hrest as [? ? (_ & _ & Hpos)|]; subst.
  vm_compute in Hpos. discriminate Hpos.
Qed.

(** C5, as worded, fails: "Geralt loots 5 Rebis" is a loot sentence, and the
    two tokens after "loots" are 2 modulo 3. *)
Lemma loot_rule_counterexample :
  split_line "Geralt loots 5 Rebis" = ["Geralt"; "loots"; "5"; "Rebis"]
  ∧ ¬ loot_rule_as_stated "Geralt loots 5 Rebis" ["5"; "Rebis"].
Proof.
  split; [reflexivity|]. intros [H _].
  destruct (H eq_refl) as [_ Hmod]. vm_compute in Hmod. discriminate Hmod.
Qed.



(** C6, as worded, fails for white space other than the space character:
    a name typed with two tabs between its words passes. *)
Lemma name_rule_counterexample :
  let line := "Geralt brews Black" +:+ tab +:+ tab +:+ "Blood" in
  split_line line = ["Geralt"; "brews"; "Black"; "Blood"]
  ∧ ¬ name_rule isspace line 2 3.
Proof.
  intros line. split; [reflexivity|]. intros H.
  destruct (H 13 "Black" 20 "Blood" eq_refl eq_refl) as [Hvalid _].
  destruct (Hvalid eq_refl) as [_ Hno]. apply Hno.
  exists 18, "009"%char, "009"%char. repeat split; (reflexivity || lia).
Qed.

(** ** The program on concrete lines *)

(** The session of the README.  After the brew, three Rebis are left and
    the Vitriol entry, down to zero, is gone from the ledger. *)
Example usage_session :
  ∃ inv,
    run ["Geralt loots 5 Rebis, 3 Vitriol";
         "Geralt learns Swallow potion consists of 3 Vitriol, 2 Rebis";
         "Geralt brews Swallow";
         "Total ingredient ?";
         "Geralt learns Igni sign is effective against Harpy";
         "Geralt encounters a Harpy";
         "Total trophy Harpy ?"] empty_Inventory
    = Normal (inv, ["Alchemy ingredients obtained" +:+ endl;
                    "New alchemy formula obtained: Swallow" +:+ endl;
                    "Alchemy item created: Swallow" +:+ endl;
                    "3 Rebis" +:+ endl;
                    "New bestiary entry added: Harpy" +:+ endl;
                    "Geralt defeats Harpy" +:+ endl;
                    "1" +:+ endl]).
Proof. eexists. vm_compute. reflexivity. Qed.

Example exit_line inv : execute_line "Exit" inv = Exited.
Proof. reflexivity. Qed.

(** [line.find] returns the first occurrence of a word.  When the text of
    the last word of a name occurs before the name, the scanned range ends
    early: this name with a double space passes. *)
Example last_word_found_early :
  let line := "Geralt brews Black  Geralt" in
  split_line line = ["Geralt"; "brews"; "Black"; "Geralt"]
  ∧ is_valid_potion_name (split_line line) line 2 3 = Normal true.
Proof. split; reflexivity. Qed.

(** When the text of the first word occurs before the name, the scanned
    range starts early: the single-spaced name [a b s] is rejected because
    of the double space after "Geralt", whose [a] is the one found. *)
Example first_word_found_early :
  let line := "Geralt  brews a b s" in
  split_line line = ["Geralt"; "brews"; "a"; "b"; "s"]
  ∧ is_valid_potion_name (split_line line) line 2 4 = Normal false
  ∧ is_valid_potion_name (split_line "Geralt brews a b s") "Geralt brews a b s" 2 4
    = Normal true.
Proof. repeat split; reflexivity. Qed.

(** A trade sentence that stops after its first trophy: [is_valid_trade]
    reads [words[curr_index + 3]] behind the last word. *)
Example trade_reads_past_the_words inv :
  split_line "Geralt trades 5 x" = ["Geralt"; "trades"; "5"; "x"]
  ∧ execute_line "Geralt trades 5 x" inv = Undefined.
Proof. split; reflexivity. Qed.

(** So does the classification of a "learns" sentence that ends with the
    word "potion". *)
Example learns_reads_past_the_words inv :
  execute_line "Geralt learns a b c d e potion" inv = Undefined.
Proof. reflexivity. Qed.

(** ** The theorems at work on concrete sessions *)


Lemma formulas_never_empty_witness :
  reachable (state_after session)
  ∧ potions (state_after session) !! "Swallow" = Some swallow
  ∧ potion_ingredients swallow ≠ []
  ∧ (get_ingredients swallow).2 ≠ []
  ∧ bool_decide (0 < length (get_ingredients swallow).2)%nat = true.
Proof.
  split; [apply state_after_reachable|]. split; [vm_compute; reflexivity|].
  apply (formulas_never_empty (state_after session) (state_after_reachable session)
           "Swallow").
  vm_compute. reflexivity.
Defined.

Lemma bestiary_monotone_witness :
  let inv := state_after session in
  (knows_sign inv "Harpy" "Igni" →
   knows_sign (state_after (session ++ ["Geralt encounters a Harpy"])) "Harpy" "Igni")
  ∧ execute_line "Geralt learns Igni sign is effective against Harpy" inv
    = Normal (inv, "Already known effectiveness" +:+ endl)
  ∧ execute_line "Geralt learns Swallow potion is effective against Harpy" inv
    = Normal (inv, "Already known effectiveness" +:+ endl).
Proof.
  intros inv. destruct bestiary_monotone as (Hmono & Hsign & Hpotion).
  split; [|split].
  - apply (Hmono ["Geralt encounters a Harpy"] inv
             (state_after (session ++ ["Geralt encounters a Harpy"]))
             ["Geralt defeats Harpy" +:+ endl] "Harpy").
    + apply state_after_reachable.
    + vm_compute. reflexivity.
  - apply (Hsign _ inv "Igni" "Harpy"); try (vm_compute; reflexivity).
    eexists. split; [vm_compute; reflexivity|]. vm_compute. reflexivity.
  - apply (Hpotion _ inv ["Swallow"] ["is"; "effective"; "against"; "Harpy"] "Harpy");
      try (vm_compute; reflexivity).
    + intros Hin. apply elem_of_cons in Hin as [Hin|Hin];
        [discriminate Hin | by apply elem_of_nil in Hin].
    + eexists. split; [vm_compute; reflexivity|]. vm_compute. reflexivity.
Defined.





Lemma loot_sentence_classified_witness :
  let line := "Geralt loots 5 Rebis, 3 Vitriol" in
  let rest := ["5"; "Rebis"; ","; "3"; "Vitriol"] in
  split_line line = "Geralt" :: "loots" :: rest
  ∧ Forall fits_int rest
  ∧ (detect_sentence_type (split_line line) line = Normal 0 ↔ loot_shape rest)
  ∧ (loot_shape rest →
     word_count (split_line line) mod 3 = 1 ∧ Z.of_nat (length rest) mod 3 = 2).
Proof.
  intros line rest.
  assert (Forall fits_int rest) as Hfit.
  { repeat constructor; intros _; vm_compute; discriminate. }
  split; [reflexivity|]. split; [exact Hfit|].
  destruct (loot_sentence_classified line rest eq_refl Hfit) as (H1 & _ & H3).
  split; [exact H1 | exact H3].
Defined.

Lemma potion_name_rule_witness :
  let line := "Geralt brews Black Blood" in
  str_length line < 2 ^ 31
  ∧ (2 ≤ 3)%nat
  ∧ split_spans line !! 2%nat = Some (13, "Black")
  ∧ split_spans line !! 3%nat = Some (19, "Blood")
  ∧ str_find line "Black" = 13
  ∧ str_find line "Blood" = 19
  ∧ name_rule is_blank line 2 3.
Proof.
  intros line.
  repeat (split; [first [lia | vm_compute; reflexivity]|]).
  apply (potion_name_rule line 2 3).
  - vm_compute. reflexivity.
  - lia.
  - intros s w H. vm_compute in H. injection H as <- <-. vm_compute. reflexivity.
  - intros e w H. vm_compute in H. injection H as <- <-. vm_compute. reflexivity.
Defined.

(** * Further properties of the program *)

(** ** The tokenizer *)

Lemma all_chars_app P (a b : string) :
  all_chars P (a +:+ b) = all_chars P a && all_chars P b.
Proof.
  induction a as [|x a IH]; [done|].
  rewrite append_cons. simpl. rewrite IH. by rewrite andb_assoc.
Qed.

Lemma is_token_ordinary cur :
  cur ≠ "" → all_chars is_ordinary cur = true → is_token cur = true.
Proof. destruct cur as [|c cur]; [done|]. intros _ H. simpl in *. rewrite H. apply orb_true_r. Qed.

Lemma flush_tokens cur :
  all_chars is_ordinary cur = true → Forall (λ t, is_token t = true) (flush cur).
Proof.
  intros H. destruct cur as [|c cur]; [constructor|].
  repeat constructor. by apply is_token_ordinary.
Qed.

Lemma split_go_tokens line : ∀ cur,
  all_chars is_ordinary cur = true →
  Forall (λ t, is_token t = true) (split_go cur line).
Proof.
  induction line as [|c line IH]; intros cur Hcur; simpl.
  - by apply flush_tokens.
  - destruct (isspace c) eqn:Hs; [|destruct (is_mark c) eqn:Hm].
    + apply Forall_app. split; [by apply flush_tokens | by apply IH].
    + apply Forall_app. split; [by apply flush_tokens|].
      constructor; [|by apply IH]. simpl. by rewrite Hm.
    + apply IH. rewrite all_chars_app, Hcur. simpl.
      unfold is_ordinary. by rewrite Hs, Hm.
Qed.

(** Ordinary characters are gathered into the word being read. *)
Lemma split_go_word w : ∀ cur rest,
  all_chars is_ordinary w = true →
  split_go cur (w +:+ rest) = split_go (cur +:+ w) rest.
Proof.
  induction w as [|c w IH]; intros cur rest Hw.
  - by rewrite append_nil_l, append_nil_r.
  - simpl in Hw. apply andb_true_iff in Hw as [Hc Hw].
    unfold is_ordinary in Hc. apply andb_true_iff in Hc as [Hs Hm].
    apply negb_true_iff in Hs, Hm.
    rewrite append_cons. simpl. rewrite Hs, Hm. rewrite IH by done.
    by rewrite append_assoc.
Qed.

(** A separator closes the word being read: what comes before it is
    tokenized on its own. *)
Lemma split_go_separator a : ∀ cur c b,
  isspace c || is_mark c = true →
  split_go cur (a +:+ String c b)
  = split_go cur a ++ (if isspace c then [] else [String c ""]) ++ split_go "" b.
Proof.
  induction a as [|x a IH]; intros cur c b Hc.
  - rewrite append_nil_l. simpl.
    destruct (isspace c); [done|]. simpl in Hc. by rewrite Hc.
  - rewrite append_cons. simpl.
    destruct (isspace x); [|destruct (is_mark x)].
    + rewrite IH by done. by rewrite <- app_assoc.
    + rewrite IH by done. by rewrite <- app_assoc.
    + by apply IH.
Qed.

Lemma split_go_blank line : ∀ cur,
  all_chars isspace line = true → split_go cur line = flush cur.
Proof.
  induction line as [|c line IH]; intros cur H; [done|].
  simpl in *. apply andb_true_iff in H as [-> H].
  rewrite (IH "" H). simpl. by rewrite app_nil_r.
Qed.

Lemma split_go_nil line : ∀ cur,
  split_go cur line = [] → cur = "" ∧ all_chars isspace line = true.
Proof.
  induction line as [|c line IH]; intros cur H; simpl in *.
  - by destruct cur.
  - destruct (isspace c); [|destruct (is_mark c)].
    + apply app_eq_nil in H as [Hf H]. apply IH in H as [_ H].
      by destruct cur.
    + apply app_eq_nil in H as [_ H]. done.
    + apply IH in H as [H _]. by destruct cur.
Qed.

Lemma split_token t : is_token t = true → split_go "" t = [t].
Proof.
  destruct t as [|c t]; [done|]. simpl. intros H.
  apply orb_true_iff in H as [H|H].
  - apply andb_true_iff in H as [Hm Ht]. apply String.eqb_eq in Ht as ->.
    destruct (isspace c) eqn:Hs.
    { by destruct c as [[] [] [] [] [] [] [] []]. }
    by rewrite Hm.
  - pose proof (split_go_word (String c t) "" "" H) as Hw.
    rewrite append_nil_r, append_nil_l in Hw. simpl in Hw. by rewrite Hw.
Qed.

Lemma split_token_then t rest :
  is_token t = true →
  split_go "" (t +:+ " " +:+ rest) = t :: split_go "" rest.
Proof.
  intros Ht. change (t +:+ " " +:+ rest) with (t +:+ String " "%char rest).
  rewrite (split_go_separator t "" " "%char rest) by done.
  by rewrite split_token.
Qed.

(** X1 (tokens): every token that [split_line] yields is a match of the
    tokenizer's regular expression: a single comma, a single question mark,
    or a non-empty run of characters none of which is white space, a comma or
    a question mark. *)
Theorem split_line_tokens (line : string) :
  Forall (λ t, is_token t = true) (split_line line).
Proof. by apply split_go_tokens. Qed.

(** X2 (round trip): tokens written out with one space between them are
    read back by [split_line] as they were. *)
Theorem split_line_unwords (tokens : list string) :
  Forall (λ t, is_token t = true) tokens →
  split_line (String.concat " " tokens) = tokens.
Proof.
  unfold split_line. induction 1 as [|t tokens Ht _ IH]; [done|].
  destruct tokens as [|t' tokens].
  - by apply split_token.
  - change (String.concat " " (t :: t' :: tokens))
      with (t +:+ " " +:+ String.concat " " (t' :: tokens)).
    by rewrite split_token_then, IH.
Qed.

(** X3 (separators): white space and the two marks cut a line in two parts
    that are tokenized independently of each other; a mark is a token of
    its own between them, white space leaves none. *)
Theorem split_line_separator (a b : string) (c : ascii) :
  isspace c || is_mark c = true →
  split_line (a +:+ String c b)
  = split_line a ++ (if isspace c then [] else [String c ""]) ++ split_line b.
Proof. apply split_go_separator. Qed.

(** X4 (blank lines): a line has no token exactly when all its characters
    are white space; this includes the empty line. *)
Theorem split_line_blank (line : string) :
  split_line line = [] ↔ all_chars isspace line = true.
Proof.
  split.
  - intros H. by apply split_go_nil in H as [_ H].
  - intros H. by apply (split_go_blank line "").
Qed.

(** ** Leaving the process *)

Ltac stays_loop :=
  first [ apply stays_double_space_loop | apply stays_name_words_loop
        | apply stays_ingredient_list_loop | apply stays_trade_trophies_loop
        | apply stays_name_until_loop | apply stays_add_ingredients_loop
        | apply stays_formula_loop | apply stays_trophies_to_trade_loop
        | apply stays_join_words_loop | apply stays_potion_name_loop ].

Ltac stays_loops := repeat first [stays_loop | stays_step].

Lemma stays_is_valid_potion_name words line first last :
  is_valid_potion_name words line first last ≠ Exited.
Proof. unfold is_valid_potion_name. stays_loops. Qed.

Lemma stays_detect_sentence_type words line :
  detect_sentence_type words line ≠ Exited.
Proof.
  unfold detect_sentence_type, is_valid_loot, is_valid_trade,
    is_valid_sign_knowledge, is_valid_potion_knowledge, is_valid_potion_recipe,
    is_valid_encounter.
  repeat first [apply stays_is_valid_potion_name | stays_loop | stays_step].
Qed.

Lemma stays_detect_question_type words line :
  detect_question_type words line ≠ Exited.
Proof.
  unfold detect_question_type, question_ingredient, question_potion,
    question_trophy, question_monster, question_formula.
  repeat first [apply stays_is_valid_potion_name | stays_loop | stays_step].
Qed.

Lemma stays_handle_trade words inv : handle_trade words inv ≠ Exited.
Proof.
  unfold handle_trade. stays_loops.
  apply stays_for_each. intros. unfold decrease_trophy. stays.
Qed.

Lemma stays_handle_brew words inv : handle_brew words inv ≠ Exited.
Proof.
  unfold handle_brew, join_words. stays_loops.
  apply stays_for_each. intros. unfold use_ingredient. stays.
Qed.

Lemma stays_handle_encounter words inv : handle_encounter words inv ≠ Exited.
Proof.
  assert (∀ monster inv, use_one_potion_each monster inv ≠ Exited) as Hone.
  { intros. unfold use_one_potion_each. destruct (monsters_at _ _).
    apply stays_for_each. intros. unfold use_one_potion. stays. }
  unfold handle_encounter, defeat. stays; apply Hone.
Qed.

Lemma stays_execute_sentence words line inv :
  execute_sentence words line inv ≠ Exited.
Proof.
  unfold execute_sentence.
  apply stays_bind; [apply stays_detect_sentence_type|]. intros type.
  repeat case_match; try done;
    first [ apply stays_handle_trade | apply stays_handle_brew
          | apply stays_handle_encounter
          | unfold handle_loot, handle_sign_knowledge, handle_potion_knowledge,
              handle_potion_recipe; stays_loops ].
Qed.

Lemma stays_execute_question words line inv :
  execute_question words line inv ≠ Exited.
Proof.
  unfold execute_question, get_potion_count, print_potion_formula, join_words.
  apply stays_bind; [apply stays_detect_question_type|]. intros type.
  repeat case_match; try done; stays_loops.
Qed.

Lemma detect_type_exit words :
  detect_type words = Normal 2 → words = ["Exit"].
Proof.
  unfold detect_type. intros H. crunch H; tidy.
  all: destruct words as [|w [|w' words]];
    try (unfold word_count in *; simpl in *; lia).
  all: match goal with H : words_at _ 0 = Normal _ |- _ =>
         apply words_at_Normal in H as [_ H]; simpl in H end.
  all: by simplify_eq.
Qed.

(** X5 (leaving): the only lines on which [execute_line] ends the process
    are those whose single token is ["Exit"]; white space around the word
    does not matter, anything else on the line does. *)
Theorem exit_only_on_exit (line : string) (inv : Inventory) :
  execute_line line inv = Exited ↔ split_line line = ["Exit"].
Proof.
  split.
  - unfold execute_line. intros H.
    destruct (detect_type (split_line line)) as [type| | | |] eqn:Htype;
      simpl in H; try done.
    + destruct (Z.eqb_spec type 2) as [->|_]; [by apply detect_type_exit|].
      destruct (type =? 1); [by apply stays_execute_question in H|].
      destruct (type =? 0); [by apply stays_execute_sentence in H|done].
    + unfold detect_type in Htype. revert Htype.
      assert (∀ o : outcome Z, o ≠ Exited → o = Exited → split_line line = ["Exit"])
        as Hno by done.
      apply Hno. stays.
  - intros H. unfold execute_line. by rewrite H.
Qed.

(** X6 (blank line): a line without any character other than white space,
    the empty line included, is answered with INVALID and changes nothing. *)
Theorem blank_line_invalid (line : string) (inv : Inventory) :
  all_chars isspace line = true →
  execute_line line inv = Normal (inv, INVALID).
Proof.
  intros H. unfold execute_line.
  by rewrite (split_go_blank line "" H : split_line line = []).
Qed.

(** ** The loop of [main] *)

Lemma length_app_string (a b : string) :
  String.length (a +:+ b) = (String.length a + String.length b)%nat.
Proof.
  induction a as [|x a IH]; [done|]. rewrite append_cons. simpl. by rewrite IH.
Qed.

Lemma getline_line line : ∀ rest,
  no_newline line = true → getline (line +:+ endl +:+ rest) = (line, rest, false).
Proof.
  induction line as [|c line IH]; intros rest H; [done|].
  unfold no_newline in *. simpl in H. apply andb_true_iff in H as [Hc H].
  apply negb_true_iff in Hc. rewrite append_cons. simpl. rewrite Hc.
  by rewrite IH.
Qed.

Lemma getline_last line :
  no_newline line = true → getline line = (line, "", true).
Proof.
  induction line as [|c line IH]; intros H; [done|].
  unfold no_newline in *. simpl in H. apply andb_true_iff in H as [Hc H].
  apply negb_true_iff in Hc. simpl. rewrite Hc. by rewrite IH.
Qed.

Lemma getline_shorter input : ∀ line rest,
  getline input = (line, rest, false) →
  (String.length rest < String.length input)%nat.
Proof.
  induction input as [|c input IH]; intros line rest H; simpl in *; [done|].
  destruct (Ascii.eqb c "010"); [simplify_eq; lia|].
  destruct (getline input) as [[line' rest'] eof] eqn:Hget.
  simplify_eq. specialize (IH _ _ eq_refl). lia.
Qed.

(** Any fuel above the length of the input does. *)
Lemma main_loop_fuel : ∀ fuel fuel' input inv,
  (String.length input < fuel)%nat → (String.length input < fuel')%nat →
  main_loop fuel input inv = main_loop fuel' input inv.
Proof.
  induction fuel as [|fuel IH]; intros [|fuel'] input inv Hf Hf'; try lia.
  simpl. destruct (getline input) as [[line rest] eof] eqn:Hget.
  destruct eof; [done|]. simpl.
  destruct (String.eqb line "Exit"); [done|].
  apply getline_shorter in Hget.
  destruct (execute_line line inv) as [[inv' text]| | | |]; try done.
  by rewrite (IH fuel' rest inv') by lia.
Qed.

(** The fuel of [main] is enough for any input. *)
Lemma main_loop_fueled : ∀ fuel input inv,
  (String.length input < fuel)%nat → (main_loop fuel input inv).2 ≠ OutOfFuel.
Proof.
  induction fuel as [|fuel IH]; intros input inv Hfuel; [lia|].
  simpl. destruct (getline input) as [[line rest] eof] eqn:Hget.
  destruct eof; [done|]. simpl.
  destruct (String.eqb line "Exit"); [done|].
  apply getline_shorter in Hget.
  pose proof (execute_line_fueled line inv) as Hline.
  destruct (execute_line line inv) as [[inv' text]| | | |]; try done.
  specialize (IH rest inv' ltac:(lia)).
  by destruct (main_loop fuel rest inv').
Qed.

Lemma main_fueled input : (main input).2 ≠ OutOfFuel.
Proof. apply main_loop_fueled. lia. Qed.

Lemma main_loop_lines lines last : ∀ fuel inv,
  Forall (λ line, no_newline line = true) lines → no_newline last = true →
  (String.length (unlines lines +:+ last) < fuel)%nat →
  main_loop fuel (unlines lines +:+ last) inv = main_lines lines inv.
Proof.
  induction lines as [|line lines IH]; intros [|fuel] inv Hlines Hlast Hfuel;
    try lia.
  - simpl. rewrite append_nil_l, getline_last by done. done.
  - apply Forall_cons in Hlines as [Hline Hlines].
    simpl unlines in *. rewrite !append_assoc in *.
    simpl main_loop. simpl main_lines. rewrite getline_line by done. simpl.
    destruct (String.eqb line "Exit"); [done|].
    destruct (execute_line line inv) as [[inv' text]| | | |]; try done.
    rewrite IH; [done..|].
    rewrite !length_app_string in Hfuel. rewrite length_app_string.
    change (String.length endl) with 1%nat in Hfuel. lia.
Qed.

Lemma main_unlines lines last :
  Forall (λ line, no_newline line = true) lines → no_newline last = true →
  main (unlines lines +:+ last) = main_lines lines empty_Inventory.
Proof. intros Hlines Hlast. unfold main. apply main_loop_lines; [done..|lia]. Qed.

Lemma main_lines_exit pre post : ∀ inv,
  main_lines (pre ++ "Exit" :: post) inv = main_lines pre inv.
Proof.
  induction pre as [|line pre IH]; intros inv; simpl; [done|].
  destruct (String.eqb line "Exit"); [done|].
  destruct (execute_line line inv) as [[inv' text]| | | |]; try done.
  by rewrite IH.
Qed.

Lemma main_lines_run lines : ∀ inv inv' outs,
  Forall (λ line, line ≠ "Exit") lines →
  run lines inv = Normal (inv', outs) →
  main_lines lines inv = (transcript outs, Normal inv').
Proof.
  induction lines as [|line lines IH]; intros inv inv' outs Hne Hrun; simpl in *.
  - by simplify_eq.
  - apply Forall_cons in Hne as [Hline Hne].
    apply String.eqb_neq in Hline. rewrite Hline.
    destruct (execute_line line inv) as [[inv1 text]| | | |]; simpl in Hrun; try done.
    destruct (run lines inv1) as [[inv2 outs2]| | | |] eqn:Hrest; simpl in Hrun; try done.
    simplify_eq. by rewrite (IH _ _ _ Hne Hrest).
Qed.

(** X7 (end of input): a last line that is not closed by a newline is read
    but never executed: [main] behaves as if it were not there. *)
Theorem unterminated_line_ignored (lines : list string) (last : string) :
  Forall (λ line, no_newline line = true) lines → no_newline last = true →
  main (unlines lines +:+ last) = main (unlines lines).
Proof.
  intros Hlines Hlast. rewrite main_unlines by done.
  rewrite <- (append_nil_r (unlines lines)). by rewrite main_unlines.
Qed.

(** X8 (Exit): what follows a line that reads exactly [Exit] is never
    looked at; [main] writes what it writes for the lines before it and
    returns. *)
Theorem nothing_after_exit (pre post : list string) :
  Forall (λ line, no_newline line = true) pre →
  Forall (λ line, no_newline line = true) post →
  main (unlines (pre ++ "Exit" :: post)) = main (unlines pre).
Proof.
  intros Hpre Hpost.
  rewrite <- (append_nil_r (unlines (pre ++ _))), <- (append_nil_r (unlines pre)).
  rewrite !main_unlines; try done.
  - apply main_lines_exit.
  - apply Forall_app. split; [done|]. by constructor.
Qed.

(** X9 (transcript): on input whose lines are all closed by a newline and
    executed to their end, none of them being [Exit], [main] writes a prompt
    before each answer and one more before it finds the end of the input,
    and it returns in the state the lines lead to. *)
Theorem main_transcript (lines : list string) (inv : Inventory)
    (outs : list string) :
  Forall (λ line, no_newline line = true ∧ line ≠ "Exit") lines →
  run lines empty_Inventory = Normal (inv, outs) →
  main (unlines lines) = (transcript outs, Normal inv).
Proof.
  intros Hlines Hrun. rewrite <- (append_nil_r (unlines lines)).
  rewrite main_unlines; [|eapply Forall_impl; [done|by intros ? []]|done].
  apply main_lines_run; [|done]. eapply Forall_impl; [done|by intros ? []].
Qed.

(** ** The sentences the classifier accepts *)

(** Reads of a list of words that is known token by token. *)
Ltac read_words :=
  unfold word_count in *; simpl length in *;
  repeat match goal with
         | H : words_at _ _ = Normal _ |- _ =>
             apply words_at_Normal in H as [_ H]; simpl in H
         end;
  simplify_eq.

Lemma alphabetical_not_comma w : is_alphabetical w = true → String.eqb w "," = false.
Proof. intros H. apply String.eqb_neq. by intros ->. Qed.

(** X10 (encounter grammar): a sentence is classified as an Encounter
    exactly when it has the four tokens [Geralt encounters a <monster>] with
    an alphabetical monster name. *)
Theorem encounter_sentence_classified (words : list string) (line : string) :
  detect_sentence_type words line = Normal 6
  ↔ ∃ monster, words = ["Geralt"; "encounters"; "a"; monster]
               ∧ is_alphabetical monster = true.
Proof.
  split.
  - unfold detect_sentence_type, is_valid_encounter. intros H.
    crunch H; tidy.
    all: destruct words as [|w0 [|w1 [|w2 [|w3 [|w4 words]]]]];
      try (unfold word_count in *; simpl in *; lia).
    all: read_words. all: eauto.
  - intros (monster & -> & Hm).
    unfold detect_sentence_type, is_valid_encounter, words_at, word_count.
    simpl. rewrite (alphabetical_not_comma _ Hm). simpl. by rewrite Hm.
Qed.

Lemma sign_words_classified sign monster line :
  is_alphabetical sign = true → is_alphabetical monster = true →
  detect_sentence_type
    ["Geralt"; "learns"; sign; "sign"; "is"; "effective"; "against"; monster] line
  = Normal 3.
Proof.
  intros Hs Hm.
  unfold detect_sentence_type, is_valid_sign_knowledge, words_at, word_count.
  simpl. rewrite (alphabetical_not_comma _ Hs). simpl.
  rewrite (alphabetical_not_comma _ Hm). simpl. by rewrite Hs, Hm.
Qed.

(** X11 (sign grammar): a sentence is classified as sign knowledge exactly
    when it has the eight tokens [Geralt learns <sign> sign is effective
    against <monster>] with alphabetical sign and monster names. *)
Theorem sign_sentence_classified (words : list string) (line : string) :
  detect_sentence_type words line = Normal 3
  ↔ ∃ sign monster,
      words = ["Geralt"; "learns"; sign; "sign"; "is"; "effective"; "against"; monster]
      ∧ is_alphabetical sign = true ∧ is_alphabetical monster = true.
Proof.
  split.
  - unfold detect_sentence_type, is_valid_sign_knowledge. intros H.
    crunch H; tidy.
    all: destruct words
      as [|w0 [|w1 [|w2 [|w3 [|w4 [|w5 [|w6 [|w7 [|w8 words]]]]]]]]];
      try (unfold word_count in *; simpl in *; lia).
    all: read_words. all: eauto.
  - intros (sign & monster & -> & Hs & Hm). by apply sign_words_classified.
Qed.

Lemma last_drop_nonempty {A} (l : list A) (n : nat) :
  drop n l ≠ [] → last l = last (drop n l).
Proof.
  intros Hne. rewrite <- (take_drop n l) at 1.
  destruct (drop n l) as [|x rest] eqn:Hd; [done|].
  rewrite last_app. destruct (last (x :: rest)) eqn:Hl; [done|].
  by apply last_None in Hl.
Qed.

Lemma positive_integer_not_comma c : positive_integer c → String.eqb c "," = false.
Proof. intros (_ & Hint & _). apply String.eqb_neq. intros ->. discriminate Hint. Qed.

Lemma is_valid_trade_accepts words :
  trophies_shape (drop 2 words) → loot_shape (after_for (drop 2 words)) →
  Forall (λ p, p.2 ≤ INT_MAX) (ingredient_requests (drop 2 words)) →
  is_valid_trade words = Normal true
  ∧ ∃ name, last words = Some name ∧ is_alphabetical name = true.
Proof.
  intros Hshape Hloot Hfits. unfold is_valid_trade.
  destruct (trade_trophies_loop_accepts words _ Hshape (S (length words)) 2)
    as (j & Hj & Hdrop & ->); [lia|done|rewrite length_drop; lia|].
  simpl. unfold ingredient_requests in Hfits. rewrite <- Hdrop in Hloot, Hfits.
  pose proof (loot_shape_length _ Hloot) as Hmod.
  pose proof (suffix_length words j Hj) as Hlen.
  assert (2 ≤ word_count words - j) as Hle.
  { destruct Hloot; simpl length in *; lia. }
  rewrite Z.max_r in Hlen by lia. rewrite Hlen in Hmod.
  rewrite Z.rem_mod_nonneg, Hmod by lia. simpl.
  split.
  - apply (ingredient_list_loop_accepts words 1 _ Hloot); auto.
    rewrite length_drop. lia.
  - rewrite (last_drop_nonempty words (Z.to_nat j)) by (by destruct Hloot).
    by apply loot_shape_last.
Qed.

(** X12 (trade grammar): a sentence that starts with [Geralt trades] is
    classified as a Trade exactly when what follows is a list of groups
    [<count> <trophy>], separated by commas and with the word [trophy] after
    the last of them, then [for], then a list of groups [<count>
    <ingredient>] separated by commas; counts are positive integers that fit
    an [int], names are alphabetical. *)
Theorem trade_sentence_classified (line : string) (rest : list string) :
  let words := "Geralt" :: "trades" :: rest in
  detect_sentence_type words line = Normal 1
  ↔ trophies_shape rest ∧ loot_shape (after_for rest)
    ∧ Forall (λ p, p.2 ≤ INT_MAX) (ingredient_requests rest).
Proof.
  intros words. split.
  - intros H. apply detect_sentence_type_trade in H.
    by apply is_valid_trade_shape in H.
  - intros (Hshape & Hloot & Hfits).
    destruct (is_valid_trade_accepts words Hshape Hloot Hfits)
      as (Hvalid & name & Hlast & Hname).
    destruct (trophies_shape_head _ Hshape) as (c & n & s & t & rest' & -> & Hc).
    unfold detect_sentence_type. rewrite Hvalid.
    rewrite words_at_last, Hlast by done.
    unfold words_at, word_count. simpl.
    rewrite (positive_integer_not_comma c Hc). simpl.
    rewrite (alphabetical_not_comma _ Hname).
    by rewrite (proj2 (Z.leb_gt _ _)) by lia.
Qed.

(** ** Sentences that teach about a potion *)

Lemma is_valid_potion_name_alphabetical words line first last :
  0 ≤ first → last < word_count words →
  is_valid_potion_name words line first last = Normal true →
  Forall (λ w, is_alphabetical w = true) (between words first last).
Proof.
  intros Hf Hl H. unfold is_valid_potion_name in H. crunch H; tidy.
  match goal with E : name_words_loop _ _ _ _ = Normal _ |- _ =>
    rewrite name_words_loop_spec in E by (unfold word_count in *; lia);
    apply Normal_inj in E end.
  apply forallb_Forall. congruence.
Qed.

Lemma words_at_lookup (words : list string) (k : nat) w :
  words_at words (Z.of_nat k) = Normal w ↔ words !! k = Some w.
Proof. rewrite words_at_Normal, Nat2Z.id. split; [by intros [_ ?] | split; [lia|done]]. Qed.

Lemma words_head (words : list string) w0 w1 :
  words_at words 0 = Normal w0 → words_at words 1 = Normal w1 →
  words = w0 :: w1 :: drop 2 words.
Proof.
  intros H0 H1. apply (words_at_lookup words 0) in H0. apply (words_at_lookup words 1) in H1.
  destruct words as [|a [|b words]]; simpl in *; by simplify_eq.
Qed.

Lemma between_prefix (words : list string) pre name rest :
  words = pre ++ name ++ rest →
  between words (Z.of_nat (length pre))
    (Z.of_nat (length pre) + Z.of_nat (length name) - 1) = name.
Proof.
  intros ->. unfold between. rewrite Nat2Z.id, drop_app_length.
  match goal with |- take ?n _ = _ => replace n with (length name) by lia end.
  by rewrite take_app_length.
Qed.

Lemma potion_found_spec words : potion_found words = true ↔ "potion" ∈ drop 2 words.
Proof.
  unfold potion_found. rewrite existsb_exists. split.
  - intros (w & Hw & ->%String.eqb_eq). by apply list_elem_of_In.
  - intros H. exists "potion". split; [by apply list_elem_of_In | done].
Qed.

Lemma learns_potion_inv words line type :
  detect_sentence_type words line = Normal type → type = 4 ∨ type = 5 →
  ∃ name after,
    words = "Geralt" :: "learns" :: name ++ "potion" :: after
    ∧ ("potion" ∉ name) ∧ 8 ≤ word_count words
    ∧ words !! 3%nat ≠ Some "sign"
    ∧ is_valid_potion_name words line 2 (Z.of_nat (length name) + 1) = Normal true
    ∧ (type = 4 → ∃ rest, after = "is" :: rest
         ∧ is_valid_potion_knowledge words (Z.of_nat (length name) + 2) = Normal true)
    ∧ (type = 5 → ∃ rest, after = "consists" :: "of" :: rest
         ∧ is_valid_potion_recipe words (Z.of_nat (length name) + 5) = Normal true).
Proof.
  unfold detect_sentence_type. intros H Htype.
  crunch H; tidy; subst; try (destruct Htype; discriminate).
  all: match goal with
       | E : name_until_loop _ ?ws _ _ _ = Normal (_, ?z),
         E0 : words_at ?ws 0 = Normal _, E1 : words_at ?ws 1 = Normal _,
         E3 : words_at ?ws 3 = Normal _,
         En : is_valid_potion_name _ _ _ _ = _ |- _ =>
           apply name_until_loop_inv in E as (name & after & Hdrop & Hnot & Hz);
           [|lia]; simpl in Hz; change (Z.to_nat 2) with 2%nat in Hdrop;
           pose proof (words_head _ _ _ E0 E1) as Hwords; rewrite Hdrop in Hwords;
           apply (words_at_lookup ws 3) in E3;
           assert (drop (Z.to_nat z) ws = "potion" :: after) as Hz'
             by (rewrite Hz, Hwords;
                 replace (Z.to_nat (2 + Z.of_nat (length name)))
                   with (2 + length name)%nat by lia;
                 simpl; by rewrite drop_app_length);
           destruct (suffix_reads ws z _ ltac:(lia) Hz') as (_ & R1 & R2 & _);
           replace (z - 1) with (Z.of_nat (length name) + 1) in En by lia;
           repeat match goal with
                  | R : words_at ws (z + _) = Normal _ |- _ =>
                      first [rewrite R1 in R | rewrite R2 in R]
                  end;
           exists name, after;
           split; [done|]; split; [done|]; split; [done|];
           split; [congruence|]; split; [exact En|];
           split; intros ?; try discriminate
       end.
  - destruct after as [|? after]; unfold token_at in *; simpl in *; simplify_eq.
    eexists. split; [done|].
    match goal with E : is_valid_potion_knowledge _ ?z = _ |- _ =>
      by replace (Z.of_nat (length name) + 2) with z by lia end.
  - destruct after as [|? [|? after]]; unfold token_at in *; simpl in *; simplify_eq.
    eexists. split; [done|].
    match goal with E : is_valid_potion_recipe _ ?z = _ |- _ =>
      by replace (Z.of_nat (length name) + 5) with z by lia end.
Qed.

Lemma learns_potion_intro words line name after :
  words = "Geralt" :: "learns" :: name ++ "potion" :: after →
  "potion" ∉ name → 8 ≤ word_count words →
  words !! 3%nat ≠ Some "sign" →
  (∃ w, last words = Some w ∧ is_alphabetical w = true) →
  is_valid_potion_name words line 2 (Z.of_nat (length name) + 1) = Normal true →
  detect_sentence_type words line
  = (let j := Z.of_nat (length name) + 2 in
     next ← words_at words (j + 1);
     if String.eqb next "is" then
       ok ← is_valid_potion_knowledge words j;
       if negb ok then Normal (-1) else Normal 4
     else
       recipe ← Normal (String.eqb next "consists")
                &&& (w ← words_at words (j + 2); Normal (String.eqb w "of"));
       if recipe : bool then
         ok ← is_valid_potion_recipe words (j + 3);
         if negb ok then Normal (-1) else Normal 5
       else Normal (-1)).
Proof.
  intros Hwords Hnot Hcount Hsign (w & Hlast & Hw) Hname.
  assert (words ≠ []) as Hne by (by rewrite Hwords).
  assert (word_count words = Z.of_nat (length name) + 3 + Z.of_nat (length after))
    as Hwc.
  { unfold word_count. rewrite Hwords. simpl length. rewrite length_app.
    simpl length. lia. }
  assert (drop (Z.to_nat 2) words = name ++ "potion" :: after) as Hdrop
    by (by rewrite Hwords).
  assert (drop (Z.to_nat (Z.of_nat (length name) + 2)) words = "potion" :: after)
    as Hdrop'.
  { rewrite Hwords. replace (Z.to_nat _) with (2 + length name)%nat by lia.
    simpl. by rewrite drop_app_length. }
  assert (words_at words 0 = Normal "Geralt") as R0 by (by rewrite Hwords).
  assert (words_at words 1 = Normal "learns") as R1 by (by rewrite Hwords).
  assert (∃ w2, words_at words 2 = Normal w2 ∧ String.eqb w2 "," = false)
    as (w2 & R2 & Hw2).
  { destruct name as [|n name].
    - exists "potion". split; [by rewrite Hwords | done].
    - exists n. split; [by rewrite Hwords|].
      apply alphabetical_not_comma.
      apply is_valid_potion_name_alphabetical in Hname;
        [|lia|lia].
      rewrite (between_cons _ _ _ n) in Hname;
        [|simpl length; lia | by rewrite Hwords].
      by apply Forall_cons in Hname as [? _]. }
  assert (∃ w3, words_at words 3 = Normal w3 ∧ String.eqb w3 "sign" = false)
    as (w3 & R3 & Hw3).
  { destruct (words_at_in_range words 3) as [w3 R3]; [lia|].
    exists w3. split; [done|]. apply String.eqb_neq. intros ->.
    by apply (words_at_lookup words 3) in R3. }
  unfold detect_sentence_type.
  rewrite R0, R2, R1, R3, words_at_last, Hlast by done. simpl.
  rewrite (proj2 (Z.leb_gt _ _)) by lia. rewrite Hw2.
  rewrite (alphabetical_not_comma _ Hw). simpl.
  rewrite (proj2 (Z.ltb_ge _ _)) by lia. rewrite Hw3.
  rewrite (proj2 (potion_found_spec words)); [|rewrite Hwords; simpl; set_solver].
  simpl.
  rewrite (name_until_loop_spec words "potion" name after _ "" 2 Hnot);
    [|lia|done|].
  2: { unfold word_count in Hwc. lia. }
  simpl.
  replace (2 + Z.of_nat (length name) - 1) with (Z.of_nat (length name) + 1) by lia.
  rewrite Hname. simpl.
  replace (2 + Z.of_nat (length name)) with (Z.of_nat (length name) + 2) by lia.
  destruct (suffix_reads words (Z.of_nat (length name) + 2) _ ltac:(lia) Hdrop')
    as (Rj & _).
  rewrite Rj. simpl. done.
Qed.

Lemma last_suffix {A} (pre l : list A) : l ≠ [] → last (pre ++ l) = last l.
Proof.
  intros Hne. rewrite last_app. destruct (last l) eqn:Hl; [done|].
  by apply last_None in Hl.
Qed.

Lemma second_not_sign (name rest : list string) next :
  name !! 1%nat ≠ Some "sign" → next ≠ "sign" →
  ("Geralt" :: "learns" :: name ++ "potion" :: next :: rest) !! 3%nat ≠ Some "sign".
Proof.
  intros Hname Hnext. destruct name as [|n [|n' name]]; simpl in *; congruence.
Qed.

Lemma second_is_sign (name after : list string) :
  ("Geralt" :: "learns" :: name ++ after) !! 3%nat ≠ Some "sign" →
  name !! 1%nat ≠ Some "sign".
Proof. intros H Hname. apply H. simpl. by apply lookup_app_l_Some. Qed.

(** X16 (potion knowledge grammar): a sentence is classified as potion
    knowledge exactly when it has at least eight tokens of the form [Geralt
    learns <name> potion is effective against <monster> ...]: the name is
    the run of tokens before the first [potion], it passes the check of
    names, and its second token is not [sign]; the monster is alphabetical;
    whatever tokens follow the monster are accepted as long as the last of
    them is the monster's name again. *)
Theorem potion_knowledge_sentence_classified (words : list string) (line : string) :
  detect_sentence_type words line = Normal 4
  ↔ ∃ name monster tail,
      words = "Geralt" :: "learns" :: name
              ++ "potion" :: "is" :: "effective" :: "against" :: monster :: tail
      ∧ ("potion" ∉ name) ∧ name !! 1%nat ≠ Some "sign"
      ∧ (8 ≤ length words)%nat
      ∧ last (monster :: tail) = Some monster
      ∧ is_alphabetical monster = true
      ∧ is_valid_potion_name words line 2 (Z.of_nat (length name) + 1) = Normal true.
Proof.
  split.
  - intros H.
    destruct (learns_potion_inv _ _ _ H ltac:(by left))
      as (name & after & Hwords & Hnot & Hcount & Hsign & Hname & Hk & _).
    destruct (Hk eq_refl) as (rest & -> & Hvalid). clear Hk.
    assert (drop (Z.to_nat (Z.of_nat (length name) + 2)) words
            = "potion" :: "is" :: rest) as Hdrop.
    { rewrite Hwords. replace (Z.to_nat _) with (2 + length name)%nat by lia.
      simpl. by rewrite drop_app_length. }
    destruct (suffix_reads words (Z.of_nat (length name) + 2) _ ltac:(lia) Hdrop) as (_ & _ & R2 & R3 & _).
    pose proof (words_at_suffix words (Z.of_nat (length name) + 2) 4 ltac:(lia)) as R4.
    rewrite Hdrop in R4. change (Z.of_nat 4) with 4 in R4.
    unfold is_valid_potion_knowledge in Hvalid. rewrite R2, R3, R4 in Hvalid.
    rewrite words_at_last in Hvalid by (by rewrite Hwords).
    destruct rest as [|r0 [|r1 [|monster tail]]]; unfold token_at in Hvalid;
      simpl in Hvalid; try (crunch Hvalid; fail).
    assert (last words = last (monster :: tail)) as Hlast.
    { rewrite <- (last_suffix ("Geralt" :: "learns" :: name
                                  ++ ["potion"; "is"; r0; r1]) (monster :: tail))
        by done.
      f_equal. rewrite Hwords. simpl. by rewrite <- app_assoc. }
    rewrite Hlast in Hvalid.
    destruct (last (monster :: tail)) as [final|] eqn:Hfinal; simpl in Hvalid;
      [|crunch Hvalid].
    crunch Hvalid; tidy; subst; try done.
    exists name, final, tail. repeat split; try done.
    + by eapply second_is_sign.
    + unfold word_count in Hcount. lia.
  - intros (name & monster & tail & Hwords & Hnot & Hsign & Hcount & Hlast & Hm & Hname).
    assert (last words = Some monster) as Hlast'.
    { rewrite <- Hlast.
      rewrite <- (last_suffix ("Geralt" :: "learns" :: name
                                  ++ ["potion"; "is"; "effective"; "against"])
                    (monster :: tail)) by done.
      f_equal. rewrite Hwords. simpl. by rewrite <- app_assoc. }
    rewrite (learns_potion_intro words line name _ Hwords); try done.
    + assert (drop (Z.to_nat (Z.of_nat (length name) + 2)) words
              = "potion" :: "is" :: "effective" :: "against" :: monster :: tail)
        as Hdrop.
      { rewrite Hwords. replace (Z.to_nat _) with (2 + length name)%nat by lia.
        simpl. by rewrite drop_app_length. }
      destruct (suffix_reads words (Z.of_nat (length name) + 2) _ ltac:(lia) Hdrop) as (_ & R1 & R2 & R3 & _).
      pose proof (words_at_suffix words (Z.of_nat (length name) + 2) 4 ltac:(lia)) as R4.
      rewrite Hdrop in R4. change (Z.of_nat 4) with 4 in R4.
      cbv zeta. unfold is_valid_potion_knowledge.
      rewrite R1, R2, R3, R4, words_at_last, Hlast' by (by rewrite Hwords).
      unfold token_at. simpl. by rewrite String.eqb_refl, Hm.
    + unfold word_count. lia.
    + rewrite Hwords. by apply second_not_sign.
    + eauto.
Qed.

(** X17 (recipe grammar): a sentence is classified as a potion recipe
    exactly when it has at least eight tokens of the form [Geralt learns
    <name> potion consists of <count> <ingredient>, ...]: the name is the
    run of tokens before the first [potion], it passes the check of names,
    and its second token is not [sign]; the ingredient list is made of
    groups of a positive count that fits an [int] and an alphabetical name,
    separated by commas. *)
Theorem recipe_sentence_classified (words : list string) (line : string) :
  detect_sentence_type words line = Normal 5
  ↔ ∃ name tail,
      words = "Geralt" :: "learns" :: name ++ "potion" :: "consists" :: "of" :: tail
      ∧ ("potion" ∉ name) ∧ name !! 1%nat ≠ Some "sign"
      ∧ (8 ≤ length words)%nat
      ∧ loot_shape tail ∧ Forall (λ p, p.2 ≤ INT_MAX) (groups tail)
      ∧ is_valid_potion_name words line 2 (Z.of_nat (length name) + 1) = Normal true.
Proof.
  split.
  - intros H.
    destruct (learns_potion_inv _ _ _ H ltac:(by right))
      as (name & after & Hwords & Hnot & Hcount & Hsign & Hname & _ & Hr).
    destruct (Hr eq_refl) as (tail & -> & Hvalid). clear Hr.
    assert (drop (Z.to_nat (Z.of_nat (length name) + 5)) words = tail) as Hdrop.
    { rewrite Hwords. replace (Z.to_nat _) with (2 + (length name + 3))%nat by lia.
      simpl. by rewrite <- (drop_drop _ 3 (length name)), drop_app_length. }
    apply is_valid_potion_recipe_shape in Hvalid as [Hshape Hfits]; [|lia].
    rewrite Hdrop in Hshape, Hfits.
    exists name, tail. repeat split; try done.
    + rewrite Hwords in Hsign. by eapply second_is_sign.
    + unfold word_count in Hcount. lia.
  - intros (name & tail & Hwords & Hnot & Hsign & Hcount & Hshape & Hfits & Hname).
    assert (tail ≠ []) as Hne by (by destruct Hshape).
    destruct (loot_shape_last _ Hshape) as (final & Hfinal & Halpha).
    assert (drop (Z.to_nat (Z.of_nat (length name) + 5)) words = tail) as Hdrop.
    { rewrite Hwords. replace (Z.to_nat _) with (2 + (length name + 3))%nat by lia.
      simpl. by rewrite <- (drop_drop _ 3 (length name)), drop_app_length. }
    assert (word_count words = Z.of_nat (length name) + 5 + Z.of_nat (length tail))
      as Hwc.
    { unfold word_count. rewrite Hwords. simpl length. rewrite length_app.
      simpl length. lia. }
    rewrite (learns_potion_intro words line name _ Hwords); try done.
    + assert (drop (Z.to_nat (Z.of_nat (length name) + 2)) words
              = "potion" :: "consists" :: "of" :: tail) as Hdrop2.
      { rewrite Hwords. replace (Z.to_nat _) with (2 + length name)%nat by lia.
        simpl. by rewrite drop_app_length. }
      destruct (suffix_reads words (Z.of_nat (length name) + 2) _ ltac:(lia) Hdrop2)
        as (_ & R1 & R2 & _).
      cbv zeta. rewrite R1, R2. unfold token_at. simpl.
      replace (Z.of_nat (length name) + 2 + 3) with (Z.of_nat (length name) + 5) by lia.
      unfold is_valid_potion_recipe.
      pose proof (loot_shape_length _ Hshape) as Hmod.
      replace (word_count words - (Z.of_nat (length name) + 5))
        with (Z.of_nat (length tail)) by lia.
      rewrite rem3, Hmod. simpl.
      replace (word_count words) with (word_count words - 0) by lia.
      rewrite (ingredient_list_loop_accepts words 0 tail); try done; [by left|lia|].
      unfold word_count in Hwc. lia.
    + unfold word_count. lia.
    + rewrite Hwords. by apply second_not_sign.
    + exists final. split; [|done]. rewrite <- Hfinal.
      rewrite <- (last_suffix ("Geralt" :: "learns" :: name
                                ++ ["potion"; "consists"; "of"]) tail) by done.
      f_equal. rewrite Hwords. simpl. by rewrite <- app_assoc.
Qed.

(** ** What a command leaves alone *)

Lemma same_formulas_refl inv : same_formulas inv inv.
Proof. intros name. by destruct (potions inv !! name); constructor. Qed.

Lemma same_formulas_eq inv inv' : potions inv' = potions inv → same_formulas inv inv'.
Proof. intros H name. rewrite H. by destruct (potions inv !! name); constructor. Qed.

Lemma same_formulas_trans inv1 inv2 inv3 :
  same_formulas inv1 inv2 → same_formulas inv2 inv3 → same_formulas inv1 inv3.
Proof.
  intros H12 H23 name. specialize (H12 name). specialize (H23 name).
  destruct H12 as [p p' Hp|]; inversion H23; simplify_eq; constructor.
  by etrans.
Qed.

Lemma same_formulas_sorted inv name p :
  potions inv !! name = Some p →
  same_formulas inv (with_potions (<[name := (get_ingredients p).1]> (potions inv)) inv).
Proof.
  intros Hp other. simpl. destruct (decide (other = name)) as [->|Hne].
  - rewrite lookup_insert_eq, Hp. constructor. simpl. apply std_sort_perm.
  - rewrite lookup_insert_ne by done. by destruct (potions inv !! other); constructor.
Qed.

Lemma same_formulas_le inv inv' : same_formulas inv inv' → formulas_le inv inv'.
Proof.
  intros H name p Hp. specialize (H name). rewrite Hp in H.
  inversion H as [? p' Hperm|]; simplify_eq. eauto.
Qed.

Section keeps.
Context {X : Type} (f : Inventory → X).

Lemma handle_loot_keeps words inv inv' out :
  (∀ m inv, f (with_ingredients m inv) = f inv) →
  handle_loot words inv = Normal (inv', out) → f inv' = f inv.
Proof.
  intros Hf H. unfold handle_loot in H. unbind H. simplify_eq.
  by eapply add_ingredients_loop_keeps.
Qed.

Lemma handle_trade_keeps words inv inv' out :
  (∀ m inv, f (with_ingredients m inv) = f inv) →
  (∀ m inv, f (with_trophies m inv) = f inv) →
  handle_trade words inv = Normal (inv', out) → f inv' = f inv.
Proof.
  intros Hi Ht H. unfold handle_trade in H. unbind H.
  destruct v as [[asked j]|]; [|by simplify_eq].
  unbind H. unbind H. simplify_eq.
  match goal with E : add_ingredients_loop _ _ _ _ = _ |- _ =>
    rewrite (add_ingredients_loop_keeps f _ Hi _ _ _ _ E) end.
  match goal with E : for_each _ _ _ = _ |- _ =>
    apply (for_each_keeps f) in E; [done|] end.
  intros. by eapply decrease_trophy_keeps.
Qed.

Lemma handle_brew_keeps words inv inv' out :
  (∀ m inv, f (with_ingredients m inv) = f inv) →
  (∀ m inv, f (with_potion_counts m inv) = f inv) →
  (∀ m inv, f (with_potions m inv) = f inv) →
  handle_brew words inv = Normal (inv', out) → f inv' = f inv.
Proof.
  intros Hi Hc Hp H. rewrite handle_brew_spec in H.
  destruct (potions inv !! _) as [potion|]; [|by simplify_eq].
  simpl in H. destruct (not_enough _ _); [by simplify_eq|].
  unbind H. unbind H. simplify_eq. rewrite Hc.
  match goal with E : for_each _ _ _ = _ |- _ =>
    apply (for_each_keeps f) in E; [by rewrite E, Hp|] end.
  intros. by eapply use_ingredient_keeps.
Qed.

Lemma handle_sign_knowledge_keeps words inv inv' out :
  (∀ m inv, f (with_monsters m inv) = f inv) →
  handle_sign_knowledge words inv = Normal (inv', out) → f inv' = f inv.
Proof.
  intros Hm H. unfold handle_sign_knowledge in H. crunch H; by simplify_eq.
Qed.

Lemma handle_potion_knowledge_keeps words inv inv' out :
  (∀ m inv, f (with_monsters m inv) = f inv) →
  handle_potion_knowledge words inv = Normal (inv', out) → f inv' = f inv.
Proof.
  intros Hm H. unfold handle_potion_knowledge in H. crunch H; by simplify_eq.
Qed.

Lemma handle_potion_recipe_keeps words inv inv' out :
  (∀ m inv, f (with_potions m inv) = f inv) →
  handle_potion_recipe words inv = Normal (inv', out) → f inv' = f inv.
Proof.
  intros Hp H. unfold handle_potion_recipe in H. unbind H.
  destruct v as [name j]. destruct (potions inv !! name) as [potion|];
    simpl in H; crunch H; simplify_eq; by rewrite ?Hp.
Qed.

Lemma handle_encounter_keeps words inv inv' out :
  (∀ m inv, f (with_potion_counts m inv) = f inv) →
  (∀ m inv, f (with_trophies m inv) = f inv) →
  handle_encounter words inv = Normal (inv', out) → f inv' = f inv.
Proof.
  intros Hc Ht H. unfold handle_encounter in H. unbind H.
  destruct (monsters inv !! v) as [monster|] eqn:Hmonster; [|by simplify_eq].
  assert (∀ r, (use_one_potion_each v inv ≫= defeat v) = Normal r →
               f r.1 = f inv) as Hfight.
  { intros r Hr. unbind Hr.
    match goal with E : use_one_potion_each _ _ = _ |- _ =>
      unfold use_one_potion_each, monsters_at in E; rewrite Hmonster in E;
      apply (for_each_keeps f) in E;
      [|intros; by eapply use_one_potion_keeps] end.
    unfold defeat in Hr. crunch Hr; subst; simpl; by rewrite Ht. }
  repeat case_match; simplify_eq; try done.
  all: by apply Hfight in H.
Qed.
End keeps.

Lemma handle_brew_formulas words inv inv' out :
  handle_brew words inv = Normal (inv', out) → same_formulas inv inv'.
Proof.
  intros H. rewrite handle_brew_spec in H.
  destruct (potions inv !! _) as [potion|] eqn:Hpotion;
    [|simplify_eq; apply same_formulas_refl].
  pose proof (same_formulas_sorted inv _ potion Hpotion) as Hsorted.
  simpl in H. destruct (not_enough _ _); [by simplify_eq|].
  unbind H. unbind H. simplify_eq.
  eapply same_formulas_trans; [exact Hsorted|]. apply same_formulas_eq. simpl.
  match goal with E : for_each _ _ _ = _ |- _ =>
    apply (for_each_keeps potions) in E; [done|] end.
  intros. by eapply use_ingredient_keeps.
Qed.

Lemma print_potion_formula_frame words inv inv' out :
  print_potion_formula words inv = Normal (inv', out) →
  ingredients inv' = ingredients inv ∧ trophies inv' = trophies inv
  ∧ potion_counts inv' = potion_counts inv ∧ monsters inv' = monsters inv
  ∧ same_formulas inv inv'.
Proof.
  unfold print_potion_formula. intros H. unbind H.
  destruct (potions inv !! v) as [potion|] eqn:Hpotion.
  - pose proof (same_formulas_sorted inv _ potion Hpotion) as Hsorted.
    simpl in *. destruct (std_sort _); by simplify_eq.
  - simplify_eq. repeat split; try done. apply same_formulas_refl.
Qed.

Lemma execute_question_frame words line inv inv' out :
  execute_question words line inv = Normal (inv', out) →
  ingredients inv' = ingredients inv ∧ trophies inv' = trophies inv
  ∧ potion_counts inv' = potion_counts inv ∧ monsters inv' = monsters inv
  ∧ same_formulas inv inv'.
Proof.
  unfold execute_question. intros H. unbind H.
  repeat case_match; try (by apply print_potion_formula_frame in H).
  all: crunch H; simplify_eq; repeat split; try done; apply same_formulas_refl.
Qed.

(** X13 (sentences, frame): each kind of sentence only writes to its own
    part of the inventory.  A loot only changes ingredient counts; a trade
    only ingredient and trophy counts; a brew leaves trophies and bestiary
    alone and does not change any formula beyond the order of its
    ingredients; learning a sign or a potion against a monster only changes
    the bestiary; learning a recipe only the formula book; an encounter only
    trophy and potion counts; a sentence that is not recognised (type -1)
    changes nothing. *)
Theorem sentence_frame (line : string) (inv inv' : Inventory) (out : string)
    (type : Z) :
  detect_type (split_line line) = Normal 0 →
  detect_sentence_type (split_line line) line = Normal type →
  execute_line line inv = Normal (inv', out) →
  (type = 0 → trophies inv' = trophies inv ∧ potion_counts inv' = potion_counts inv
              ∧ potions inv' = potions inv ∧ monsters inv' = monsters inv)
  ∧ (type = 1 → potion_counts inv' = potion_counts inv
                ∧ potions inv' = potions inv ∧ monsters inv' = monsters inv)
  ∧ (type = 2 → trophies inv' = trophies inv ∧ monsters inv' = monsters inv
                ∧ same_formulas inv inv')
  ∧ (type = 3 ∨ type = 4 →
     ingredients inv' = ingredients inv ∧ trophies inv' = trophies inv
     ∧ potion_counts inv' = potion_counts inv ∧ potions inv' = potions inv)
  ∧ (type = 5 → ingredients inv' = ingredients inv ∧ trophies inv' = trophies inv
                ∧ potion_counts inv' = potion_counts inv
                ∧ monsters inv' = monsters inv)
  ∧ (type = 6 → ingredients inv' = ingredients inv ∧ potions inv' = potions inv
                ∧ monsters inv' = monsters inv)
  ∧ (type = -1 → inv' = inv ∧ out = INVALID).
Proof.
  intros Ht Hc H. rewrite execute_line_sentence in H by done.
  unfold execute_sentence in H. rewrite Hc in H. simpl in H.
  repeat match goal with |- _ ∧ _ => split end; intros Htype.
  all: try (destruct Htype as [-> | ->]); subst; simpl in H.
  all: repeat match goal with |- _ ∧ _ => split end.
  all: try (by eapply handle_loot_keeps).
  all: try (by eapply handle_trade_keeps).
  all: try (by eapply handle_brew_keeps).
  all: try (by eapply handle_brew_formulas).
  all: try (by eapply handle_sign_knowledge_keeps).
  all: try (by eapply handle_potion_knowledge_keeps).
  all: try (by eapply handle_potion_recipe_keeps).
  all: try (by eapply handle_encounter_keeps).
  all: by simplify_eq.
Qed.

(** X14 (questions, frame): a question never changes a count or the
    bestiary, and it leaves every formula as it is up to the order of its
    ingredients (the formula question sorts the formula it prints in
    place). *)
Theorem question_frame (line : string) (inv inv' : Inventory) (out : string) :
  detect_type (split_line line) = Normal 1 →
  execute_line line inv = Normal (inv', out) →
  ingredients inv' = ingredients inv ∧ trophies inv' = trophies inv
  ∧ potion_counts inv' = potion_counts inv ∧ monsters inv' = monsters inv
  ∧ same_formulas inv inv'.
Proof.
  intros Ht H. rewrite execute_line_question in H by done.
  by eapply execute_question_frame.
Qed.

(** ** The formula book only grows *)

Lemma formulas_le_refl inv : formulas_le inv inv.
Proof. intros name p Hp. eauto. Qed.

Lemma formulas_le_trans inv1 inv2 inv3 :
  formulas_le inv1 inv2 → formulas_le inv2 inv3 → formulas_le inv1 inv3.
Proof.
  intros H12 H23 name p Hp.
  destruct (H12 _ _ Hp) as (p2 & Hp2 & Hperm2).
  destruct (H23 _ _ Hp2) as (p3 & Hp3 & Hperm3).
  exists p3. split; [done|]. by etrans.
Qed.

Lemma formulas_le_eq inv inv' : potions inv' = potions inv → formulas_le inv inv'.
Proof. intros H. apply same_formulas_le, same_formulas_eq, H. Qed.

Lemma handle_potion_recipe_formulas words inv inv' out :
  Inventory_ok inv →
  handle_potion_recipe words inv = Normal (inv', out) → formulas_le inv inv'.
Proof.
  intros Hok H. unfold handle_potion_recipe in H. unbind H.
  destruct v as [name j]. destruct (potions inv !! name) as [potion|] eqn:Hpotion.
  - pose proof (formula_ok_sorted potion (ok_potions inv Hok _ _ Hpotion)) as [Hne _].
    simpl in H. rewrite bool_decide_true in H.
    + simplify_eq. by apply same_formulas_le, same_formulas_sorted.
    + simpl in Hne. destruct (std_sort _); [done | simpl; lia].
  - simpl in H. unbind H. rewrite Hpotion in H. simplify_eq.
    intros other p Hp. exists p. split; [|done]. simpl.
    rewrite lookup_insert_ne; [done|]. intros ->. congruence.
Qed.

Lemma execute_line_formulas line inv inv' out :
  Inventory_ok inv →
  execute_line line inv = Normal (inv', out) → formulas_le inv inv'.
Proof.
  unfold execute_line. intros Hok H. unbind H.
  destruct (v =? 2); [done|]. destruct (v =? 1).
  { by apply execute_question_frame in H as (_ & _ & _ & _ & H%same_formulas_le). }
  destruct (v =? 0); [|simplify_eq; apply formulas_le_refl].
  unfold execute_sentence in H. unbind H.
  repeat case_match; simplify_eq; try apply formulas_le_refl.
  - apply formulas_le_eq. by eapply handle_loot_keeps.
  - apply formulas_le_eq. by eapply handle_trade_keeps.
  - by eapply same_formulas_le, handle_brew_formulas.
  - apply formulas_le_eq. by eapply handle_sign_knowledge_keeps.
  - apply formulas_le_eq. by eapply handle_potion_knowledge_keeps.
  - by eapply handle_potion_recipe_formulas.
  - apply formulas_le_eq. by eapply handle_encounter_keeps.
Qed.

(** X15 (formula book): a formula that has been learnt stays.  Whatever
    lines are executed from a reachable state, every potion of the formula
    book is still there afterwards, with the same ingredients and
    quantities; only their order may have changed.  In particular a second
    recipe for a potion never replaces the first. *)
Theorem formula_book_stable (lines : list string) (inv inv' : Inventory)
    (outs : list string) :
  reachable inv →
  run lines inv = Normal (inv', outs) →
  formulas_le inv inv'.
Proof.
  intros Hr. apply reachable_ok in Hr. revert inv inv' outs Hr.
  induction lines as [|line lines IH]; intros inv inv' outs Hok H; simpl in H.
  - simplify_eq. apply formulas_le_refl.
  - unbind H. destruct v as [inv1 out]. unbind H. destruct v as [inv2 outs'].
    simplify_eq. eapply formulas_le_trans.
    + by eapply execute_line_formulas.
    + eapply IH; [|done]. by eapply execute_line_ok.
Qed.

(** ** What the other sentences do *)

(** X18 (loot): a loot sentence adds, for every ingredient it names, the
    sum of the counts listed for it (a new entry starts from zero); nothing
    else changes, and the answer is the loot message.  The state is
    reachable and no sum leaves the range of [int]. *)
Theorem loot_outcome (line : string) (inv : Inventory) :
  reachable inv →
  detect_type (split_line line) = Normal 0 →
  detect_sentence_type (split_line line) line = Normal 0 →
  let looted := groups (drop 2 (split_line line)) in
  (∀ k, default 0 (ingredients inv !! k) + total_required looted k ≤ INT_MAX) →
  ∃ inv',
    execute_line line inv = Normal (inv', "Alchemy ingredients obtained" +:+ endl)
    ∧ (∀ name, ingredients inv' !! name
               = if decide (name ∈ looted.*1)
                 then Some (default 0 (ingredients inv !! name)
                            + total_required looted name)
                 else ingredients inv !! name)
    ∧ trophies inv' = trophies inv
    ∧ potion_counts inv' = potion_counts inv
    ∧ potions inv' = potions inv
    ∧ monsters inv' = monsters inv.
Proof.
  intros Hr Ht Hc looted Hmax. apply reachable_ok in Hr as Hok.
  rewrite execute_line_sentence by done.
  unfold execute_sentence. rewrite Hc. simpl.
  apply detect_sentence_type_loot in Hc as Hvalid.
  rewrite (handle_loot_valid _ _ Hvalid). fold looted.
  apply is_valid_loot_shape in Hvalid as [Hshape Hfits].
  assert (Forall (λ p, count_ok p.2) looted) as Hlooted by by apply shape_counts_ok.
  destruct (for_each_add_ingredient_total looted inv) as [inv' Hadd];
    [apply Hok | done | done |].
  rewrite Hadd. simpl. exists inv'. split; [done|].
  apply for_each_add_ingredient in Hadd as (m & -> & Hm & _).
  split; [exact Hm | done].
Qed.

(** X19 (brew, unknown potion): brewing a potion that has no formula is
    answered with the no-formula message, which spells the name with single
    spaces, and changes nothing. *)
Theorem brew_unknown_formula (line : string) (inv : Inventory) :
  detect_type (split_line line) = Normal 0 →
  detect_sentence_type (split_line line) line = Normal 2 →
  let name := name_of (drop 2 (split_line line)) in
  potions inv !! name = None →
  execute_line line inv = Normal (inv, "No formula for " +:+ name +:+ endl).
Proof.
  intros Ht Hc name Hnone. rewrite execute_line_sentence by done.
  unfold execute_sentence. rewrite Hc. simpl.
  rewrite handle_brew_spec. fold name. by rewrite Hnone.
Qed.

Lemma add_sign_known sign m : sign ∈ signs_against m → add_sign sign m = m.
Proof.
  intros H. destruct m as [signs potions]. unfold add_sign. simpl in *.
  f_equal. by apply subseteq_union_1_L, singleton_subseteq_l.
Qed.

Lemma add_potion_known potion m : potion ∈ potions_against m → add_potion potion m = m.
Proof.
  intros H. destruct m as [signs potions]. unfold add_potion. simpl in *.
  f_equal. by apply subseteq_union_1_L, singleton_subseteq_l.
Qed.

Lemma with_monsters_same inv monster m :
  monsters inv !! monster = Some m →
  with_monsters (<[monster := m]> (monsters inv)) inv = inv.
Proof. intros H. rewrite insert_id by done. apply with_same. Qed.

Lemma detect_type_sentence words w0 final :
  words_at words 0 = Normal w0 → w0 ≠ "Exit" →
  last words = Some final → is_alphabetical final = true →
  detect_type words = Normal 0.
Proof.
  intros H0 Hexit Hlast Hfinal. unfold detect_type.
  assert (words ≠ []) as Hne by (by destruct words).
  rewrite (proj2 (Z.eqb_neq _ _)) by (unfold word_count; destruct words; simpl; [done|lia]).
  rewrite words_at_last, Hlast, H0 by done. simpl.
  assert (String.eqb final "?" = false) as -> by (apply String.eqb_neq; by intros ->).
  by rewrite (proj2 (String.eqb_neq w0 "Exit")).
Qed.

(** X20 (sign knowledge): on [Geralt learns <sign> sign is effective
    against <monster>] the bestiary entry of the monster is the old one, or
    an empty one if there was none, with the sign added; nothing else
    changes.  The answer tells whether the entry is new, was updated, or had
    the sign already. *)
Theorem sign_knowledge_outcome (line : string) (inv : Inventory)
    (sign monster : string) :
  split_line line
  = ["Geralt"; "learns"; sign; "sign"; "is"; "effective"; "against"; monster] →
  is_alphabetical sign = true → is_alphabetical monster = true →
  let entry := default new_Monster (monsters inv !! monster) in
  let known := (λ m, bool_decide (sign ∈ signs_against m)) <$> monsters inv !! monster in
  execute_line line inv
  = Normal (with_monsters (<[monster := add_sign sign entry]> (monsters inv)) inv,
            learnt known monster).
Proof.
  intros Hwords Hs Hm entry known.
  rewrite execute_line_sentence
    by (rewrite Hwords; by apply (detect_type_sentence _ "Geralt" monster)).
  unfold execute_sentence. rewrite Hwords, sign_words_classified by done. simpl.
  unfold handle_sign_knowledge, words_at. simpl. unfold entry, known, get_signs.
  destruct (monsters inv !! monster) as [m|] eqn:Hmonster; simpl; [|done].
  destruct (decide (sign ∈ signs_against m)) as [Hin|Hnot].
  - rewrite (bool_decide_false (sign ∉ _)) by tauto.
    rewrite (bool_decide_true (sign ∈ _)) by done. simpl.
    by rewrite add_sign_known, with_monsters_same.
  - rewrite (bool_decide_true (sign ∉ _)) by done.
    by rewrite (bool_decide_false (sign ∈ _)) by done.
Qed.

(** X21 (potion knowledge): on a sentence classified as potion knowledge
    the tokens before the first [potion], joined by single spaces, name the
    potion and the token after [against] names the monster; the bestiary
    entry of the monster is the old one, or an empty one if there was none,
    with the potion added; nothing else changes. *)
Theorem potion_knowledge_outcome (line : string) (inv : Inventory) :
  detect_type (split_line line) = Normal 0 →
  detect_sentence_type (split_line line) line = Normal 4 →
  ∃ name monster tail,
    split_line line
    = "Geralt" :: "learns" :: name
      ++ "potion" :: "is" :: "effective" :: "against" :: monster :: tail
    ∧ ("potion" ∉ name)
    ∧ let potion := name_of name in
      let entry := default new_Monster (monsters inv !! monster) in
      let known :=
        (λ m, bool_decide (potion ∈ potions_against m)) <$> monsters inv !! monster in
      execute_line line inv
      = Normal (with_monsters (<[monster := add_potion potion entry]> (monsters inv)) inv,
                learnt known monster).
Proof.
  intros Ht Hc.
  destruct (learns_potion_inv _ _ _ Hc ltac:(by left))
    as (name & after & Hwords & Hnot & Hcount & Hsign & Hname & Hk & _).
  destruct (Hk eq_refl) as (rest & -> & Hvalid). clear Hk.
  set (words := split_line line) in *.
  assert (drop (Z.to_nat 2) words = name ++ "potion" :: "is" :: rest) as Hdrop2
    by (by rewrite Hwords).
  assert (drop (Z.to_nat (Z.of_nat (length name) + 2)) words
          = "potion" :: "is" :: rest) as Hdrop.
  { rewrite Hwords. replace (Z.to_nat _) with (2 + length name)%nat by lia.
    simpl. by rewrite drop_app_length. }
  destruct (suffix_reads words (Z.of_nat (length name) + 2) _ ltac:(lia) Hdrop)
    as (_ & _ & R2 & R3 & _).
  pose proof (words_at_suffix words (Z.of_nat (length name) + 2) 4 ltac:(lia)) as R4.
  rewrite Hdrop in R4. change (Z.of_nat 4) with 4 in R4.
  unfold is_valid_potion_knowledge in Hvalid. rewrite R2, R3, R4 in Hvalid.
  destruct rest as [|r0 [|r1 [|monster tail]]]; unfold token_at in Hvalid, R4;
    simpl in Hvalid, R4; try (crunch Hvalid; fail).
  assert (r0 = "effective" ∧ r1 = "against") as [-> ->].
  { crunch Hvalid; tidy; by subst. }
  exists name, monster, tail. split; [done|]. split; [done|].
  intros potion entry known.
  rewrite execute_line_sentence by done.
  unfold execute_sentence. fold words. rewrite Hc. simpl.
  unfold handle_potion_knowledge.
  rewrite (potion_name_loop_spec words name _ (S (length words)) "" 2 Hnot
             ltac:(lia) Hdrop2).
  2: { rewrite Hwords. simpl length. rewrite length_app. lia. }
  simpl. replace (2 + Z.of_nat (length name) + 4)
    with (Z.of_nat (length name) + 2 + 4) by lia.
  rewrite R4. simpl. fold potion. unfold entry, known, get_potions.
  destruct (monsters inv !! monster) as [m|] eqn:Hmonster; simpl; [|done].
  destruct (decide (potion ∈ potions_against m)) as [Hin|Hnotin].
  - rewrite (bool_decide_false (potion ∉ _)) by tauto.
    rewrite (bool_decide_true (potion ∈ _)) by done. simpl.
    by rewrite add_potion_known, with_monsters_same.
  - rewrite (bool_decide_true (potion ∉ _)) by done.
    by rewrite (bool_decide_false (potion ∈ _)) by done.
Qed.

(** X22 (recipe): on a sentence classified as a potion recipe the tokens
    before the first [potion], joined by single spaces, name the potion.  If
    the potion has a formula already, the sentence is answered with
    "Already known formula" and only sorts that formula; otherwise the
    groups after [consists of] become its formula, in the order of the
    sentence.  The state is reachable. *)
Theorem recipe_outcome (line : string) (inv : Inventory) :
  reachable inv →
  detect_type (split_line line) = Normal 0 →
  detect_sentence_type (split_line line) line = Normal 5 →
  ∃ name tail,
    split_line line
    = "Geralt" :: "learns" :: name ++ "potion" :: "consists" :: "of" :: tail
    ∧ ("potion" ∉ name)
    ∧ let potion := name_of name in
      execute_line line inv
      = match potions inv !! potion with
        | Some known =>
            Normal (with_potions
                      (<[potion := {| potion_ingredients :=
                                        std_sort (potion_ingredients known) |}]>
                         (potions inv)) inv,
                    "Already known formula" +:+ endl)
        | None =>
            Normal (with_potions
                      (<[potion := {| potion_ingredients := groups tail |}]>
                         (potions inv)) inv,
                    "New alchemy formula obtained: " +:+ potion +:+ endl)
        end.
Proof.
  intros Hr Ht Hc. apply reachable_ok in Hr as Hok.
  destruct (learns_potion_inv _ _ _ Hc ltac:(by right))
    as (name & after & Hwords & Hnot & Hcount & Hsign & Hname & _ & Hk).
  destruct (Hk eq_refl) as (tail & -> & Hvalid). clear Hk.
  set (words := split_line line) in *.
  exists name, tail. split; [done|]. split; [done|]. intros potion.
  rewrite execute_line_sentence by done.
  unfold execute_sentence. fold words. rewrite Hc. simpl.
  assert (drop (Z.to_nat 2) words = name ++ "potion" :: "consists" :: "of" :: tail)
    as Hdrop2 by (by rewrite Hwords).
  assert (potion_name_loop (S (length words)) words "" 2
          = Normal (potion, Z.of_nat (length name) + 2)) as Hloop.
  { rewrite (potion_name_loop_spec words name _ (S (length words)) "" 2 Hnot
               ltac:(lia) Hdrop2).
    - unfold potion. do 2 f_equal. lia.
    - rewrite Hwords. simpl length. rewrite length_app. lia. }
  replace (Z.of_nat (length name) + 5) with (Z.of_nat (length name) + 2 + 3)
    in Hvalid by lia.
  rewrite (handle_potion_recipe_valid words inv potion (Z.of_nat (length name) + 2)
             ltac:(lia) Hloop Hvalid).
  assert (drop (Z.to_nat (Z.of_nat (length name) + 2 + 3)) words = tail) as ->.
  { rewrite Hwords. replace (Z.to_nat _) with (2 + (length name + 3))%nat by lia.
    simpl. by rewrite <- (drop_drop _ 3 (length name)), drop_app_length. }
  destruct (potions inv !! potion) as [known|] eqn:Hknown; [|done].
  pose proof (formula_ok_sorted known (ok_potions inv Hok _ _ Hknown)) as [Hne _].
  simpl in *. rewrite bool_decide_true; [done|].
  destruct (std_sort _); [done | simpl; lia].
Qed.

(** ** The answers to the questions *)

Lemma alphabetical_not_question w : is_alphabetical w = true → String.eqb w "?" = false.
Proof. intros H. apply String.eqb_neq. by intros ->. Qed.

Global Instance key_le_total {A : Type} : Total (@key_le A).
Proof. intros a b. unfold key_le. apply (total String.le). Qed.

Global Instance key_le_trans {A : Type} : Transitive (@key_le A).
Proof. intros a b c. unfold key_le. apply (transitivity (R := String.le)). Qed.



Lemma map_items_nil {A : Type} (m : gmap string A) : map_items m = [] ↔ m = ∅.
Proof.
  split.
  - intros H. apply map_to_list_empty_iff, Permutation_nil_r.
    by rewrite <- map_items_perm, H.
  - intros ->. apply Permutation_nil_r. by rewrite map_items_perm, map_to_list_empty.
Qed.



(** X23 (count of one item): the questions [Total ingredient <name> ?] and
    [Total trophy <name> ?] are answered with the count of the ledger, 0 for
    a name the ledger does not have, and change nothing. *)
Theorem count_question_answer (line : string) (inv : Inventory) (name : string) :
  is_alphabetical name = true →
  (split_line line = ["Total"; "ingredient"; name; "?"] →
   execute_line line inv
   = Normal (inv, show_int (default 0 (ingredients inv !! name)) +:+ endl))
  ∧ (split_line line = ["Total"; "trophy"; name; "?"] →
     execute_line line inv
     = Normal (inv, show_int (default 0 (trophies inv !! name)) +:+ endl)).
Proof.
  intros Hname. pose proof (alphabetical_not_question _ Hname) as Hq.
  split; intros Hwords.
  all: unfold execute_line, detect_type, execute_question, detect_question_type,
    question_ingredient, question_potion, question_trophy, words_at, word_count.
  all: rewrite Hwords; simpl; rewrite ?Hq; simpl; rewrite ?Hname; simpl.
  all: done.
Qed.



(** ** Kinds of lines, names and counts *)

(** X26 (kind of a line): [detect_type] sorts every list of tokens into one
    of four kinds without reading past its end.  No token: invalid; the
    last token is a question mark: a question (also for [Exit ?]); the single
    token [Exit]: the exit command; anything else: a sentence. *)
Theorem line_kind (words : list string) :
  detect_type words
  = Normal (if decide (words = []) then -1
            else if decide (last words = Some "?") then 1
            else if decide (words = ["Exit"]) then 2
            else 0).
Proof.
  unfold detect_type. destruct (decide (words = [])) as [->|Hne]; [done|].
  rewrite (proj2 (Z.eqb_neq _ _))
    by (unfold word_count; destruct words; simpl; [done|lia]).
  rewrite words_at_last by done.
  destruct (last words) as [final|] eqn:Hlast; [|by apply last_None in Hlast].
  simpl. destruct (String.eqb_spec final "?") as [->|Hq].
  - by rewrite decide_True.
  - rewrite decide_False by congruence.
    destruct words as [|w0 words]; [done|].
    destruct (String.eqb_spec w0 "Exit") as [->|Hexit].
    + destruct words as [|w1 words].
      * by rewrite decide_True.
      * rewrite decide_False by congruence.
        unfold words_at, word_count.
        by rewrite (proj2 (Z.eqb_neq (Z.of_nat (length ("Exit" :: w1 :: words))) 1))
          by (simpl length; lia).
    + rewrite decide_False by congruence.
      unfold words_at. simpl. by rewrite (proj2 (String.eqb_neq w0 "Exit")).
Qed.

(** X27 (brew grammar): a sentence is classified as a Brew exactly when it
    is [Geralt brews] followed by at least one token, and these tokens pass
    the check of names. *)
Theorem brew_sentence_classified (words : list string) (line : string) :
  detect_sentence_type words line = Normal 2
  ↔ ∃ name, words = "Geralt" :: "brews" :: name ∧ name ≠ []
            ∧ is_valid_potion_name words line 2 (word_count words - 1) = Normal true.
Proof.
  split.
  - unfold detect_sentence_type. intros H. crunch H; tidy; subst.
    match goal with
    | E0 : words_at ?ws 0 = Normal _, E1 : words_at ?ws 1 = Normal _ |- _ =>
        pose proof (words_head _ _ _ E0 E1) as Hwords
    end.
    exists (drop 2 words). split; [done|]. split; [|done].
    intros Hnil. apply (f_equal length) in Hnil. rewrite length_drop in Hnil.
    unfold word_count in *. simpl in Hnil. lia.
  - intros (name & Hwords & Hne & Hname).
    assert (word_count words = Z.of_nat (length name) + 2) as Hwc
      by (unfold word_count; rewrite Hwords; simpl length; lia).
    assert (0 < length name)%nat as Hlen by (destruct name; simpl; [done|lia]).
    pose proof (is_valid_potion_name_alphabetical words line 2 (word_count words - 1)
                  ltac:(lia) ltac:(lia) Hname) as Halpha.
    rewrite between_to_end in Halpha by lia.
    change (drop (Z.to_nat 2) words) with (drop 2 words) in Halpha.
    rewrite Hwords in Halpha. simpl in Halpha.
    destruct name as [|n name]; [done|].
    destruct (last (n :: name)) as [final|] eqn:Hfinal;
      [|by apply last_None in Hfinal].
    assert (is_alphabetical final = true) as Hfinal'.
    { rewrite Forall_forall in Halpha. apply Halpha.
      apply last_Some in Hfinal as [l' ->]. set_solver. }
    assert (last words = Some final) as Hlast.
    { rewrite <- Hfinal. rewrite Hwords.
      by apply (last_suffix ["Geralt"; "brews"] (n :: name)). }
    apply Forall_cons in Halpha as [Hn _].
    assert (words_at words 0 = Normal "Geralt") as R0 by (by rewrite Hwords).
    assert (words_at words 1 = Normal "brews") as R1 by (by rewrite Hwords).
    assert (words_at words 2 = Normal n) as R2 by (by rewrite Hwords).
    unfold detect_sentence_type.
    rewrite R0, R1, R2, words_at_last, Hlast, Hname by (by rewrite Hwords).
    simpl. rewrite (proj2 (Z.leb_gt _ _)) by (simpl length in *; lia).
    by rewrite (alphabetical_not_comma _ Hn), (alphabetical_not_comma _ Hfinal').
Qed.

(** X28 (count of a potion): a question classified as the count of one
    potion is answered with the brewed count of the potion whose name is
    made of the tokens between [Total potion] and the closing question mark,
    joined by single spaces; 0 if there is none.  Nothing changes. *)
Theorem potion_count_question_answer (line : string) (inv : Inventory) :
  detect_type (split_line line) = Normal 1 →
  detect_question_type (split_line line) line = Normal 2 →
  let words := split_line line in
  let name := name_of (between words 2 (word_count words - 2)) in
  execute_line line inv
  = Normal (inv, show_int (default 0 (potion_counts inv !! name)) +:+ endl).
Proof.
  intros Ht Hq. cbv zeta. rewrite execute_line_question by done.
  unfold execute_question. rewrite Hq. simpl.
  unfold get_potion_count. rewrite join_words_spec by lia. done.
Qed.

(** X29 (counts and [stoi]): on a token of a line that [is_integer] accepts,
    [std::stoi] returns the number the digits denote when it is at most
    [INT_MAX] and throws [std::out_of_range] otherwise; it never throws
    [std::invalid_argument]. *)
Theorem integer_token_stoi (line token : string) :
  token ∈ split_line line → is_integer token = true →
  stoi token = if count_of token <=? INT_MAX then Normal (count_of token)
               else Throw out_of_range.
Proof.
  intros Hin Hint.
  assert (token ≠ "") as Hne.
  { pose proof (split_line_nonempty line) as Hall.
    rewrite Forall_forall in Hall. by apply Hall. }
  rewrite (stoi_integer _ Hint Hne). unfold in_int.
  pose proof (count_of_nonneg token).
  rewrite (proj2 (Z.leb_le INT_MIN _)) by (unfold INT_MIN; lia). done.
Qed.

Lemma words_head3 (words : list string) w0 w1 w2 :
  words_at words 0 = Normal w0 → words_at words 1 = Normal w1 →
  words_at words 2 = Normal w2 → words = w0 :: w1 :: w2 :: drop 3 words.
Proof.
  intros H0 H1 H2. apply (words_at_lookup words 0) in H0.
  apply (words_at_lookup words 1) in H1. apply (words_at_lookup words 2) in H2.
  destruct words as [|a [|b [|c words]]]; simpl in *; by simplify_eq.
Qed.

(** X30 (formula question grammar): a question is classified as a formula
    question exactly when it is [What is in <name> ?], where the name is a
    run of tokens without question mark that passes the check of names; the
    name may be empty. *)
Theorem formula_question_classified (words : list string) (line : string) :
  detect_question_type words line = Normal 7
  ↔ ∃ name, words = "What" :: "is" :: "in" :: name ++ ["?"]
            ∧ ("?" ∉ name)
            ∧ is_valid_potion_name words line 3 (Z.of_nat (length name) + 2)
              = Normal true.
Proof.
  split.
  - unfold detect_question_type, question_ingredient, question_potion,
      question_trophy, question_monster, question_formula. intros H.
    crunch H; tidy; subst; try done.
    match goal with
    | E : name_until_loop _ ?ws _ _ _ = Normal (_, ?z),
      E0 : words_at ?ws 0 = Normal _, E1 : words_at ?ws 1 = Normal _,
      E2 : words_at ?ws 2 = Normal _,
      En : is_valid_potion_name _ _ _ _ = _, Ec : word_count _ = _ |- _ =>
        apply name_until_loop_inv in E as (name & rest & Hdrop & Hnot & Hz);
        [|lia]; simpl in Hz; change (Z.to_nat 3) with 3%nat in Hdrop;
        pose proof (words_head3 _ _ _ _ E0 E1 E2) as Hwords;
        rewrite Hdrop in Hwords;
        replace (z - 1) with (Z.of_nat (length name) + 2) in En by lia;
        exists name; split; [|split; [done | exact En]];
        assert (rest = []) as ->; [|done];
        apply (f_equal length) in Hwords; unfold word_count in Ec;
        simpl length in Hwords; rewrite length_app in Hwords;
        simpl length in Hwords; destruct rest; [done | simpl in Hwords; lia]
    end.
  - intros (name & Hwords & Hnot & Hname).
    assert (words_at words 0 = Normal "What") as R0 by (by rewrite Hwords).
    assert (words_at words 1 = Normal "is") as R1 by (by rewrite Hwords).
    assert (words_at words 2 = Normal "in") as R2 by (by rewrite Hwords).
    assert (drop (Z.to_nat 3) words = name ++ ["?"]) as Hdrop by (by rewrite Hwords).
    assert (word_count words = Z.of_nat (length name) + 4) as Hwc.
    { unfold word_count. rewrite Hwords. simpl length. rewrite length_app.
      simpl length. lia. }
    assert (words_at words (3 + Z.of_nat (length name)) = Normal "?") as Rz.
    { rewrite (words_at_suffix words 3 (length name)) by lia.
      rewrite Hdrop. unfold token_at.
      by rewrite lookup_app_r, Nat.sub_diag by lia. }
    unfold detect_question_type, question_ingredient, question_potion,
      question_trophy, question_monster, question_formula.
    rewrite R0, R1, R2. simpl.
    rewrite (name_until_loop_spec words "?" name [] (S (length words)) "" 3 Hnot
               ltac:(lia) Hdrop) by (unfold word_count in Hwc; lia).
    simpl.
    replace (3 + Z.of_nat (length name) - 1) with (Z.of_nat (length name) + 2) by lia.
    rewrite Hname, Rz. simpl.
    by rewrite (proj2 (Z.eqb_eq _ _)) by lia.
Qed.

(** ** The further properties at work on concrete input *)

Lemma split_line_unwords_witness :
  let tokens := ["Geralt"; "loots"; "5"; "Rebis"; ","; "3"; "Vitriol"] in
  Forall (λ t, is_token t = true) tokens
  ∧ split_line "Geralt loots 5 Rebis , 3 Vitriol" = tokens.
Proof.
  intros tokens.
  assert (Forall (λ t, is_token t = true) tokens) as H by (repeat constructor).
  split; [exact H|]. exact (split_line_unwords tokens H).
Defined.

Lemma split_line_separator_witness :
  isspace " " || is_mark " " = true
  ∧ is_mark "," = true
  ∧ split_line "5 Rebis,3 Vitriol" = split_line "5 Rebis" ++ [","] ++ split_line "3 Vitriol"
  ∧ split_line "5 Rebis" = split_line "5" ++ split_line "Rebis".
Proof.
  split; [reflexivity|]. split; [reflexivity|]. split.
  - exact (split_line_separator "5 Rebis" "3 Vitriol" "," eq_refl).
  - exact (split_line_separator "5" "Rebis" " " eq_refl).
Defined.

Lemma split_line_blank_witness :
  all_chars isspace ("  " +:+ tab) = true ∧ split_line ("  " +:+ tab) = [].
Proof.
  split; [reflexivity|]. apply (proj2 (split_line_blank ("  " +:+ tab))). reflexivity.
Defined.

Lemma exit_only_on_exit_witness :
  split_line "  Exit " = ["Exit"]
  ∧ execute_line "  Exit " empty_Inventory = Exited.
Proof.
  split; [reflexivity|].
  apply (proj2 (exit_only_on_exit "  Exit " empty_Inventory)). reflexivity.
Defined.

Lemma blank_line_invalid_witness :
  all_chars isspace "   " = true
  ∧ execute_line "   " (state_after session) = Normal (state_after session, INVALID).
Proof.
  split; [reflexivity|]. apply (blank_line_invalid "   "). reflexivity.
Defined.

Lemma unterminated_line_ignored_witness :
  let lines := ["Geralt loots 5 Rebis"; "Total ingredient ?"] in
  Forall (λ line, no_newline line = true) lines
  ∧ no_newline "Geralt loots 1 Rebis" = true
  ∧ main (unlines lines +:+ "Geralt loots 1 Rebis") = main (unlines lines).
Proof.
  intros lines.
  assert (Forall (λ line, no_newline line = true) lines) as H by (repeat constructor).
  split; [exact H|]. split; [reflexivity|].
  exact (unterminated_line_ignored lines "Geralt loots 1 Rebis" H eq_refl).
Defined.

Lemma nothing_after_exit_witness :
  let pre := ["Geralt loots 5 Rebis"] in
  let post := ["Total ingredient ?"; "Geralt loots 1 Rebis"] in
  Forall (λ line, no_newline line = true) pre
  ∧ Forall (λ line, no_newline line = true) post
  ∧ main (unlines (pre ++ "Exit" :: post)) = main (unlines pre).
Proof.
  intros pre post.
  assert (Forall (λ line, no_newline line = true) pre) as Hpre by (repeat constructor).
  assert (Forall (λ line, no_newline line = true) post) as Hpost by (repeat constructor).
  split; [exact Hpre|]. split; [exact Hpost|].
  exact (nothing_after_exit pre post Hpre Hpost).
Defined.

Lemma main_transcript_witness :
  let lines := ["Geralt loots 5 Rebis"; "Total ingredient ?"] in
  let outs := ["Alchemy ingredients obtained" +:+ endl; "5 Rebis" +:+ endl] in
  Forall (λ line, no_newline line = true ∧ line ≠ "Exit") lines
  ∧ run lines empty_Inventory = Normal (state_after lines, outs)
  ∧ main (unlines lines) = (transcript outs, Normal (state_after lines)).
Proof.
  intros lines outs.
  assert (Forall (λ line, no_newline line = true ∧ line ≠ "Exit") lines) as H
    by (repeat constructor; discriminate).
  assert (run lines empty_Inventory = Normal (state_after lines, outs)) as Hrun
    by (vm_compute; reflexivity).
  split; [exact H|]. split; [exact Hrun|].
  exact (main_transcript lines (state_after lines) outs H Hrun).
Defined.

Lemma encounter_sentence_classified_witness :
  let words := ["Geralt"; "encounters"; "a"; "Harpy"] in
  is_alphabetical "Harpy" = true
  ∧ detect_sentence_type words "Geralt encounters a Harpy" = Normal 6.
Proof.
  intros words. split; [reflexivity|].
  apply (proj2 (encounter_sentence_classified words "Geralt encounters a Harpy")).
  exists "Harpy". split; reflexivity.
Defined.

Lemma sign_sentence_classified_witness :
  let line := "Geralt learns Igni sign is effective against Harpy" in
  ∃ sign monster,
    split_line line
    = ["Geralt"; "learns"; sign; "sign"; "is"; "effective"; "against"; monster]
    ∧ is_alphabetical sign = true ∧ is_alphabetical monster = true.
Proof.
  intros line.
  apply (proj1 (sign_sentence_classified (split_line line) line)). reflexivity.
Defined.

Lemma trade_sentence_classified_witness :
  let line := "Geralt trades 2 Harpy, 1 Wyvern trophy for 3 Rebis" in
  let rest := ["2"; "Harpy"; ","; "1"; "Wyvern"; "trophy"; "for"; "3"; "Rebis"] in
  split_line line = "Geralt" :: "trades" :: rest
  ∧ trophies_shape rest ∧ loot_shape (after_for rest)
  ∧ Forall (λ p, p.2 ≤ INT_MAX) (ingredient_requests rest).
Proof.
  intros line rest. split; [reflexivity|].
  apply (proj1 (trade_sentence_classified line rest)). reflexivity.
Defined.

Lemma potion_knowledge_sentence_classified_witness :
  let line := "Geralt learns Black Blood potion is effective against Harpy" in
  ∃ name monster tail,
    split_line line
    = "Geralt" :: "learns" :: name
      ++ "potion" :: "is" :: "effective" :: "against" :: monster :: tail
    ∧ ("potion" ∉ name) ∧ name !! 1%nat ≠ Some "sign"
    ∧ (8 ≤ length (split_line line))%nat
    ∧ last (monster :: tail) = Some monster
    ∧ is_alphabetical monster = true
    ∧ is_valid_potion_name (split_line line) line 2 (Z.of_nat (length name) + 1)
      = Normal true.
Proof.
  intros line.
  apply (proj1 (potion_knowledge_sentence_classified (split_line line) line)).
  reflexivity.
Defined.

Lemma recipe_sentence_classified_witness :
  let line := "Geralt learns Swallow potion consists of 3 Vitriol, 2 Rebis" in
  ∃ name tail,
    split_line line
    = "Geralt" :: "learns" :: name ++ "potion" :: "consists" :: "of" :: tail
    ∧ ("potion" ∉ name) ∧ name !! 1%nat ≠ Some "sign"
    ∧ (8 ≤ length (split_line line))%nat
    ∧ loot_shape tail ∧ Forall (λ p, p.2 ≤ INT_MAX) (groups tail)
    ∧ is_valid_potion_name (split_line line) line 2 (Z.of_nat (length name) + 1)
      = Normal true.
Proof.
  intros line.
  apply (proj1 (recipe_sentence_classified (split_line line) line)). reflexivity.
Defined.

Lemma brew_sentence_classified_witness :
  let line := "Geralt brews Black Blood" in
  ∃ name, split_line line = "Geralt" :: "brews" :: name ∧ name ≠ []
          ∧ is_valid_potion_name (split_line line) line 2
              (word_count (split_line line) - 1) = Normal true.
Proof.
  intros line.
  apply (proj1 (brew_sentence_classified (split_line line) line)). reflexivity.
Defined.

Lemma sentence_frame_witness :
  let inv := state_after session in
  let line := "Geralt encounters a Harpy" in
  let inv' := state_after (session ++ [line]) in
  detect_type (split_line line) = Normal 0
  ∧ detect_sentence_type (split_line line) line = Normal 6
  ∧ execute_line line inv = Normal (inv', "Geralt defeats Harpy" +:+ endl)
  ∧ ingredients inv' = ingredients inv ∧ potions inv' = potions inv
  ∧ monsters inv' = monsters inv.
Proof.
  intros inv line inv'.
  assert (execute_line line inv = Normal (inv', "Geralt defeats Harpy" +:+ endl))
    as Hex by (vm_compute; reflexivity).
  split; [reflexivity|]. split; [reflexivity|]. split; [exact Hex|].
  destruct (sentence_frame line inv inv' _ 6 eq_refl eq_refl Hex)
    as (_ & _ & _ & _ & _ & H & _).
  apply H. reflexivity.
Defined.

Lemma question_frame_witness :
  let inv := state_after session in
  let line := "What is in Swallow ?" in
  ∃ inv',
    detect_type (split_line line) = Normal 1
    ∧ execute_line line inv = Normal (inv', "3 Vitriol, 2 Rebis" +:+ endl)
    ∧ ingredients inv' = ingredients inv ∧ trophies inv' = trophies inv
    ∧ potion_counts inv' = potion_counts inv ∧ monsters inv' = monsters inv
    ∧ same_formulas inv inv'.
Proof.
  intros inv line.
  destruct (execute_line line inv) as [[inv' out]| | | |] eqn:Hex;
    try (vm_compute in Hex; discriminate Hex).
  assert (out = "3 Vitriol, 2 Rebis" +:+ endl) as ->.
  { vm_compute in Hex. by injection Hex as _ <-. }
  exists inv'. split; [reflexivity|]. split; [reflexivity|].
  exact (question_frame line inv inv' _ eq_refl Hex).
Defined.

Lemma formula_book_stable_witness :
  let inv := state_after ["Geralt loots 5 Rebis, 3 Vitriol";
                          "Geralt learns Swallow potion consists of 3 Vitriol, 2 Rebis"] in
  let lines := ["Geralt learns Swallow potion consists of 1 Rebis";
                "Geralt brews Swallow"] in
  ∃ inv' outs,
    reachable inv
    ∧ run lines inv = Normal (inv', outs)
    ∧ outs = ["Already known formula" +:+ endl; "Alchemy item created: Swallow" +:+ endl]
    ∧ formulas_le inv inv'.
Proof.
  intros inv lines.
  assert (reachable inv) as Hr by apply state_after_reachable.
  destruct (run lines inv) as [[inv' outs]| | | |] eqn:Hrun;
    try (vm_compute in Hrun; discriminate Hrun).
  exists inv', outs. split; [exact Hr|]. split; [reflexivity|]. split.
  - vm_compute in Hrun. by injection Hrun as _ <-.
  - exact (formula_book_stable lines inv inv' outs Hr Hrun).
Defined.

Lemma loot_outcome_witness :
  let inv := state_after ["Geralt loots 5 Rebis"] in
  let line := "Geralt loots 2 Rebis, 3 Vitriol, 4 Rebis" in
  reachable inv
  ∧ detect_type (split_line line) = Normal 0
  ∧ detect_sentence_type (split_line line) line = Normal 0
  ∧ ∃ inv',
      execute_line line inv = Normal (inv', "Alchemy ingredients obtained" +:+ endl)
      ∧ ingredients inv' !! "Rebis" = Some 11
      ∧ ingredients inv' !! "Vitriol" = Some 3
      ∧ ingredients inv' !! "Quebrith" = None.
Proof.
  intros inv line.
  assert (reachable inv) as Hr by apply state_after_reachable.
  repeat (split; [first [exact Hr | vm_compute; reflexivity]|]).
  destruct (loot_outcome line inv Hr eq_refl eq_refl) as (inv' & Hex & Hing & _).
  - intros k.
    assert (ingredients inv = {["Rebis" := 5]}) as -> by (vm_compute; reflexivity).
    assert (groups (drop 2 (split_line line))
            = [("Rebis", 2); ("Vitriol", 3); ("Rebis", 4)]) as ->
      by (vm_compute; reflexivity).
    unfold total_required. cbn [foldr fst snd].
    destruct (decide (k = "Rebis")) as [->|Hne].
    + vm_compute. discriminate.
    + rewrite lookup_singleton_ne by done. cbn [default from_option].
      rewrite (proj2 (String.eqb_neq "Rebis" k)) by done.
      destruct (String.eqb "Vitriol" k); unfold INT_MAX; lia.
  - exists inv'. split; [exact Hex|]. rewrite !Hing.
    repeat split; vm_compute; reflexivity.
Defined.

Lemma brew_unknown_formula_witness :
  let inv := state_after session in
  let line := "Geralt brews Black Blood" in
  detect_type (split_line line) = Normal 0
  ∧ detect_sentence_type (split_line line) line = Normal 2
  ∧ potions inv !! "Black Blood" = None
  ∧ execute_line line inv = Normal (inv, "No formula for Black Blood" +:+ endl).
Proof.
  intros inv line. split; [reflexivity|]. split; [reflexivity|].
  split; [vm_compute; reflexivity|].
  apply (brew_unknown_formula line inv eq_refl eq_refl). vm_compute. reflexivity.
Defined.

Lemma sign_knowledge_outcome_witness :
  let inv := state_after session in
  let line := "Geralt learns Aard sign is effective against Harpy" in
  split_line line
  = ["Geralt"; "learns"; "Aard"; "sign"; "is"; "effective"; "against"; "Harpy"]
  ∧ ∃ inv',
      execute_line line inv = Normal (inv', "Bestiary entry updated: Harpy" +:+ endl)
      ∧ knows_sign inv' "Harpy" "Aard".
Proof.
  intros inv line. split; [reflexivity|].
  pose proof (sign_knowledge_outcome line inv "Aard" "Harpy" eq_refl eq_refl eq_refl)
    as H.
  cbv zeta in H.
  assert ((λ m, bool_decide ("Aard" ∈ signs_against m)) <$> monsters inv !! "Harpy"
          = Some false) as E by (vm_compute; reflexivity).
  rewrite E in H.
  eexists. split; [exact H|].
  eexists. split; [apply lookup_insert_eq|].
  unfold add_sign. cbn [signs_against]. apply elem_of_union_l, elem_of_singleton.
  reflexivity.
Defined.

Lemma potion_knowledge_outcome_witness :
  let inv := state_after session in
  let line := "Geralt learns Black Blood potion is effective against Bruxa" in
  detect_type (split_line line) = Normal 0
  ∧ detect_sentence_type (split_line line) line = Normal 4
  ∧ ∃ inv', execute_line line inv
            = Normal (inv', "New bestiary entry added: Bruxa" +:+ endl)
            ∧ knows_potion inv' "Bruxa" "Black Blood".
Proof.
  intros inv line. split; [reflexivity|]. split; [reflexivity|].
  destruct (potion_knowledge_outcome line inv eq_refl eq_refl)
    as (name & monster & tail & Hwords & Hnot & H).
  assert (name = ["Black"; "Blood"] ∧ monster = "Bruxa") as [-> ->].
  { vm_compute in Hwords.
    destruct name as [|n0 [|n1 [|n2 name]]]; simpl in Hwords;
      try discriminate Hwords.
    - injection Hwords as <- <- <- _. split; reflexivity.
    - injection Hwords as _ _ <- _. exfalso. apply Hnot.
      apply list_elem_of_further, list_elem_of_further, list_elem_of_here. }
  cbv zeta in H.
  assert ((λ m, bool_decide (name_of ["Black"; "Blood"] ∈ potions_against m))
            <$> monsters inv !! "Bruxa" = None) as E by (vm_compute; reflexivity).
  rewrite E in H.
  eexists. split; [exact H|].
  eexists. split; [apply lookup_insert_eq|].
  unfold add_potion. cbn [potions_against]. apply elem_of_union_l, elem_of_singleton.
  reflexivity.
Defined.

Lemma recipe_outcome_witness :
  let inv := state_after session in
  let line := "Geralt learns Black Blood potion consists of 3 Vitriol, 2 Rebis" in
  reachable inv
  ∧ detect_type (split_line line) = Normal 0
  ∧ detect_sentence_type (split_line line) line = Normal 5
  ∧ ∃ inv', execute_line line inv
            = Normal (inv', "New alchemy formula obtained: Black Blood" +:+ endl)
            ∧ potions inv' !! "Black Blood" = Some swallow.
Proof.
  intros inv line.
  assert (reachable inv) as Hr by apply state_after_reachable.
  split; [exact Hr|]. split; [reflexivity|]. split; [reflexivity|].
  destruct (recipe_outcome line inv Hr eq_refl eq_refl)
    as (name & tail & Hwords & Hnot & H).
  assert (name = ["Black"; "Blood"] ∧ tail = ["3"; "Vitriol"; ","; "2"; "Rebis"])
    as [-> ->].
  { vm_compute in Hwords.
    destruct name as [|n0 [|n1 [|n2 name]]]; simpl in Hwords;
      try discriminate Hwords.
    - injection Hwords as <- <- <-. split; reflexivity.
    - injection Hwords as _ _ <- _. exfalso. apply Hnot.
      apply list_elem_of_further, list_elem_of_further, list_elem_of_here. }
  cbv zeta in H.
  assert (potions inv !! name_of ["Black"; "Blood"] = None) as E
    by (vm_compute; reflexivity).
  rewrite E in H.
  eexists. split; [exact H|]. simpl. rewrite lookup_insert_eq. reflexivity.
Defined.

Lemma count_question_answer_witness :
  let inv := state_after session in
  is_alphabetical "Vitriol" = true
  ∧ execute_line "Total ingredient Vitriol ?" inv = Normal (inv, "4" +:+ endl)
  ∧ execute_line "Total trophy Vitriol ?" inv = Normal (inv, "0" +:+ endl).
Proof.
  intros inv. split; [reflexivity|].
  destruct (count_question_answer "Total ingredient Vitriol ?" inv "Vitriol" eq_refl)
    as [Hi _].
  destruct (count_question_answer "Total trophy Vitriol ?" inv "Vitriol" eq_refl)
    as [_ Ht].
  split.
  - rewrite (Hi eq_refl). f_equal.
  - rewrite (Ht eq_refl). f_equal.
Defined.



Lemma potion_count_question_answer_witness :
  let inv := state_after ["Geralt loots 5 Rebis, 3 Vitriol";
                          "Geralt learns Swallow potion consists of 3 Vitriol, 2 Rebis";
                          "Geralt brews Swallow"] in
  let line := "Total potion Swallow ?" in
  detect_type (split_line line) = Normal 1
  ∧ detect_question_type (split_line line) line = Normal 2
  ∧ execute_line line inv = Normal (inv, "1" +:+ endl).
Proof.
  intros inv line. split; [reflexivity|]. split; [reflexivity|].
  rewrite (potion_count_question_answer line inv eq_refl eq_refl). reflexivity.
Defined.

Lemma integer_token_stoi_witness :
  "99999999999" ∈ split_line "Geralt loots 99999999999 Rebis"
  ∧ is_integer "99999999999" = true
  ∧ stoi "99999999999" = Throw out_of_range.
Proof.
  assert ("99999999999" ∈ split_line "Geralt loots 99999999999 Rebis") as Hin.
  { vm_compute. apply list_elem_of_further, list_elem_of_further, list_elem_of_here. }
  split; [exact Hin|]. split; [reflexivity|].
  rewrite (integer_token_stoi _ _ Hin eq_refl). reflexivity.
Defined.

Lemma formula_question_classified_witness :
  let line := "What is in Black Blood ?" in
  ∃ name, split_line line = "What" :: "is" :: "in" :: name ++ ["?"]
          ∧ ("?" ∉ name)
          ∧ is_valid_potion_name (split_line line) line 3 (Z.of_nat (length name) + 2)
            = Normal true.
Proof.
  intros line.
  apply (proj1 (formula_question_classified (split_line line) line)). reflexivity.
Defined.

(** ** Corners of the grammar and of the main loop, on concrete lines *)

(** Tokens between the monster and a final repetition of its name are
    accepted by the check of potion knowledge sentences. *)
Example potion_knowledge_with_tail :
  let line := "Geralt learns Swallow potion is effective against Harpy junk 12 Harpy" in
  detect_sentence_type (split_line line) line = Normal 4.
Proof. reflexivity. Qed.

(** A potion knowledge sentence without any name before [potion]. *)
Example potion_knowledge_without_name :
  let line := "Geralt learns potion is effective against Harpy Harpy" in
  detect_sentence_type (split_line line) line = Normal 4
  ∧ ∃ inv, execute_line line empty_Inventory
           = Normal (inv, "New bestiary entry added: Harpy" +:+ endl).
Proof.
  intros line. split; [reflexivity|]. eexists. vm_compute. reflexivity.
Qed.

(** A potion whose name has [sign] as its second word cannot be learnt:
    the sentence is taken for sign knowledge, which has eight tokens. *)
Example second_word_sign_rejected :
  let line := "Geralt learns Black sign potion is effective against Harpy" in
  execute_line line empty_Inventory = Normal (empty_Inventory, INVALID).
Proof. reflexivity. Qed.

Example formula_question_without_name :
  execute_line "What is in ?" empty_Inventory
  = Normal (empty_Inventory, "No formula for " +:+ endl).
Proof. reflexivity. Qed.

(** The second line is not closed by a newline and is not answered. *)
Example last_line_unanswered :
  (main ("Geralt loots 5 Rebis" +:+ endl +:+ "Total ingredient ?")).1
  = prompt +:+ "Alchemy ingredients obtained" +:+ endl +:+ prompt.
Proof. vm_compute. reflexivity. Qed.

(** [Exit] with a blank before it is not the line [main] compares with, but
    it is the exit command of [execute_line]. *)
Example exit_after_blank :
  main (" Exit" +:+ endl +:+ "Total ingredient ?" +:+ endl) = (prompt, Exited).
Proof. vm_compute. reflexivity. Qed.
